(** * Padel schedule generator and statistics (src/src/App.tsx)

    A shallow embedding of the pure core of [App.tsx]: the seeded
    generator [mulberry32], the Fisher-Yates [shuffle], the schedule
    generator [generateSchedule] with its backtracking search
    [buildBalancedDmOpponents], the aggregators [computeStats], [dmStats]
    and [dmSummary], and the score editor [setScoreAuto].

    Conventions of the embedding.
    - A JavaScript string is a [string]: a sequence of code units, here
      the Latin-1 range (one [ascii] per code unit).
    - A JavaScript number that the program only uses as an integer is a
      [Z]; the 32-bit operations of [mulberry32] are written out with
      their wrap-around.
    - [Map] objects used as dictionaries are [gmap]s, [Set] objects are
      [gset]s; the [Map] whose iteration order is observed (the rows of
      [computeStats]) is a list in insertion order.
    - A [throw] is a value of an error type; mutable state that is
      threaded through calls is passed explicitly. *)

From Stdlib Require Import ZArith List Ascii String DecimalString QArith Lia.
From stdpp Require Import base tactics option list gmap strings sorting.

Local Open Scope string_scope.
Local Open Scope list_scope.
Local Open Scope Z_scope.

(** ** Strings *)

(** [String.prototype.trim] removes white space and line terminators at
    both ends; in the Latin-1 range these are TAB, LF, VT, FF, CR, SP and
    NBSP. *)
Definition isWhite (c : ascii) : bool :=
  let n := nat_of_ascii c in
  bool_decide (n ∈ [9; 10; 11; 12; 13; 32; 160]%nat).

Fixpoint trimStartL (l : list ascii) : list ascii :=
  match l with
  | [] => []
  | c :: l' => if isWhite c then trimStartL l' else l
  end.

Definition trim (s : string) : string :=
  string_of_list_ascii
    (reverse (trimStartL (reverse (trimStartL (list_ascii_of_string s))))).

(** [String.prototype.toLowerCase] on Latin-1 code units: A-Z and the
    accented capitals U+00C0..U+00DE (except the multiplication sign
    U+00D7) move up by 32. *)
Definition lowerChar (c : ascii) : ascii :=
  let n := nat_of_ascii c in
  if ((65 <=? n) && (n <=? 90))%nat then ascii_of_nat (n + 32)
  else if ((192 <=? n) && (n <=? 222) && negb (n =? 215))%nat
       then ascii_of_nat (n + 32)
  else c.

Fixpoint toLowerCase (s : string) : string :=
  match s with
  | EmptyString => EmptyString
  | String c s' => String (lowerChar c) (toLowerCase s')
  end.

(** [const lower = (s) => s.trim().toLowerCase()] *)
Definition lower (s : string) : string := toLowerCase (trim s).

(** [/^(daniel|macho)$/.test(lower(p.name))] *)
Definition isDuoName (name : string) : bool :=
  bool_decide (lower name = "daniel") || bool_decide (lower name = "macho").

(** [pairKey = (a, b) => (a < b ? a + '-' + b : b + '-' + a)]; [<] on
    strings compares code units lexicographically, and [+:+] is string
    concatenation. *)
Definition pairKey (a b : string) : string :=
  if String.ltb a b then a +:+ "-" +:+ b else b +:+ "-" +:+ a.

(** ** 32-bit arithmetic and [mulberry32] *)

Definition toUint32 (x : Z) : Z := x mod 2 ^ 32.
Definition toInt32 (x : Z) : Z := (x + 2 ^ 31) mod 2 ^ 32 - 2 ^ 31.

(** [x ^ y], [x | y], [x >>> n] and [Math.imul(x, y)]. *)
Definition bxor (x y : Z) : Z := Z.lxor (toInt32 x) (toInt32 y).
Definition bor (x y : Z) : Z := Z.lor (toInt32 x) (toInt32 y).
Definition ushr (x : Z) (n : Z) : Z := Z.shiftr (toUint32 x) n.
Definition imul (x y : Z) : Z := toInt32 (toInt32 x * toInt32 y).

(** One call of the closure returned by [mulberry32(seed)].  The closure
    variable [seed] is the state; the call returns the numerator [u] of
    the result [u / 4294967296] together with the new value of [seed].
    [seed += 0x6d2b79f5] is an addition of numbers, not wrapped; it is
    exact as long as the sum stays below 2^53, which holds for the 150
    calls of one generation from any 32-bit seed.  Beyond 2^53 the source
    rounds the sum to the nearest number, which this definition does not
    follow: the values of the stream are those of the source for seeds
    that are and stay safe integers. *)
Definition mulberry32 (seed : Z) : Z * Z :=
  let seed := seed + 0x6d2b79f5 in
  let t := seed in
  let t := imul (bxor t (ushr t 15)) (bor t 1) in
  let t := bxor t (t + imul (bxor t (ushr t 7)) (bor t 61)) in
  (toUint32 (bxor t (ushr t 14)), seed).

(** [Math.floor(rng() * (i + 1))]: the quotient [u / 2^32] is exact in
    binary floating point, and so is its product with a small integer,
    so the floor is the integer quotient. *)
Definition randIndex (u : Z) (i : nat) : nat :=
  Z.to_nat (u * (Z.of_nat i + 1) / 4294967296).

(** ** [shuffle] *)

(** [[a[i], a[j]] = [a[j], a[i]]].  Both indices are inside the array
    whenever [shuffle] performs the exchange ([randIndex_le] below); an
    exchange outside the array, which the source never performs, leaves
    the list as it is. *)
Definition swap {A} (a : list A) (i j : nat) : list A :=
  match a !! i, a !! j with
  | Some x, Some y => <[j := x]> (<[i := y]> a)
  | _, _ => a
  end.

(** The loop [for (let i = a.length - 1; i > 0; i--)], with [n] the
    current value of [i]. *)
Fixpoint shuffleLoop {A} (n : nat) (a : list A) (seed : Z) : list A * Z :=
  match n with
  | O => (a, seed)
  | S n' =>
      let '(u, seed) := mulberry32 seed in
      let j := randIndex u n in
      shuffleLoop n' (swap a n j) seed
  end.

Definition shuffle {A} (arr : list A) (seed : Z) : list A * Z :=
  shuffleLoop (length arr - 1) arr seed.

(** ** [Array.prototype.sort] *)

(** ECMAScript requires [sort] to be stable; for a comparator that is a
    consistent total preorder the result is therefore determined, and it
    is the one a stable insertion sort computes. *)
Fixpoint insertSorted {A} (cmp : A → A → Z) (x : A) (l : list A) : list A :=
  match l with
  | [] => [x]
  | y :: l' => if cmp x y <=? 0 then x :: l else y :: insertSorted cmp x l'
  end.

Definition arraySort {A} (cmp : A → A → Z) (l : list A) : list A :=
  foldr (insertSorted cmp) [] l.

(** "Not after", for a comparator in the style of [sort]. *)
Definition cmpLe {A} (cmp : A → A → Z) (a b : A) : Prop := cmp a b ≤ 0.

(** [new Map(entries)]: a later entry for the same key replaces an
    earlier one. *)
Definition newMap {V} (entries : list (string * V)) : gmap string V :=
  foldl (λ m kv, <[kv.1 := kv.2]> m) ∅ entries.

(** ** Data model *)

Record Player := mkPlayer { p_id : string; p_name : string }.
Record Team := mkTeam { t_a : string; t_b : string }.
Record Score := mkScore { s_team1 : Z; s_team2 : Z }.
Record Match := mkMatch {
  court : Z; team1 : Team; team2 : Team; score : option Score }.
Record Round := mkRound { round : Z; matches : list Match }.

(** [[m.team1.a, m.team1.b, m.team2.a, m.team2.b]] *)
Definition matchIds (m : Match) : list string :=
  [t_a (team1 m); t_b (team1 m); t_a (team2 m); t_b (team2 m)].

Definition roundIds (r : Round) : list string :=
  mjoin (matchIds <$> matches r).

(** ** Outcomes of [generateSchedule] *)

Inductive GenError :=
  | ErrPlayers          (* "Requires exactly 12 players" *)
  | ErrDuo              (* "Two players must be named Daniel and Macho" *)
  | ErrOthers           (* "Exactly 10 players besides Daniel & Macho are required" *)
  | ErrBalance          (* "Could not balance Daniel & Macho opponents. Try another seed." *)
  | ErrRound (r : Z)    (* `Internal round construction error at round ${r}` *)
  | ErrUndefined (r : Z).
    (* Round [r] reads an array element that does not exist.  The source
       then either raises a TypeError (a missing pair) or carries
       [undefined] as a player id (a missing second member); as ids are
       strings here, both are reported by this outcome. *)

Inductive Result (A : Type) :=
  | Ok (a : A)
  | Throw (e : GenError).
Arguments Ok {A} a.
Arguments Throw {A} e.

(** Sequencing of computations that may throw, with stdpp's notation
    [x ← m; k]. *)
#[global] Instance result_bind : MBind Result := λ A B f m,
  match m with
  | Ok a => f a
  | Throw e => Throw e
  end.

(** ** The balancing search, [buildBalancedDmOpponents] *)

Definition NEED : Z := 3.

(** The two mutable objects of the search, [counts] and [usedPair].  The
    third one, [res], is only written: on success slot [k] holds the pair
    chosen at depth [k], which is what [backtrack] returns below. *)
Record Search := mkSearch {
  counts : gmap string Z;
  usedPair : gset string }.

(** [counts.get(id)]; every id that is looked up is a key of the map. *)
Definition getCount (c : gmap string Z) (id : string) : Z :=
  default 0 (c !! id).

Section Generator.

(** [String.prototype.localeCompare] is provided by the platform and
    depends on its locale; the generator is parameterised by it. *)
Variable localeCompare : string → string → Z.

(** The comparator of
    [ids.slice().sort((a, b) => (counts.get(a) - counts.get(b)) || a.localeCompare(b))]. *)
Definition poolCmp (c : gmap string Z) (a b : string) : Z :=
  let d := getCount c a - getCount c b in
  if d =? 0 then localeCompare a b else d.

(** The "choose" and "undo" blocks of the inner loop. *)
Definition choose (a b : string) (st : Search) : Search :=
  let c := <[a := getCount (counts st) a + 1]> (counts st) in
  let c := <[b := getCount c b + 1]> c in
  mkSearch c ({[pairKey a b]} ∪ usedPair st).

Definition undo (a b : string) (st : Search) : Search :=
  let u := usedPair st ∖ {[pairKey a b]} in
  let c := <[a := getCount (counts st) a - 1]> (counts st) in
  let c := <[b := getCount c b - 1]> c in
  mkSearch c u.

(** [ids.reduce((acc, id) => acc + Math.max(0, NEED - counts.get(id)), 0)] *)
Definition needTotal (ids : list string) (c : gmap string Z) : Z :=
  foldl (λ acc id, acc + Z.max 0 (NEED - getCount c id)) 0 ids.

Definition SearchResult : Type := option (list (string * string)) * Search.

Section Loops.
(** [remainingSlots] is [(15 - (k + 1)) * 2] and [rec] is
    [backtrack(k + 1)]. *)
Variables (ids : list string) (remainingSlots : Z)
          (rec : Search → SearchResult).

(** [for (let j = i + 1; j < pool.length; j++)], over the part of the
    pool after position [i]. *)
Fixpoint loopJ (a : string) (bs : list string) (st : Search)
  : SearchResult :=
  match bs with
  | [] => (None, st)
  | b :: bs' =>
      if NEED <=? getCount (counts st) b then loopJ a bs' st
      else if bool_decide (pairKey a b ∈ usedPair st) then loopJ a bs' st
      else
        let st := choose a b st in
        let feasible := needTotal ids (counts st) <=? remainingSlots in
        match (if feasible then rec st else (None, st)) with
        | (Some r, st) => (Some ((a, b) :: r), st)
        | (None, st) => loopJ a bs' (undo a b st)
        end
  end.

(** [for (let i = 0; i < pool.length; i++)] *)
Fixpoint loopI (pool : list string) (st : Search) : SearchResult :=
  match pool with
  | [] => (None, st)
  | a :: rest =>
      if NEED <=? getCount (counts st) a then loopI rest st
      else
        match loopJ a rest st with
        | (Some r, st) => (Some r, st)
        | (None, st) => loopI rest st
        end
  end.
End Loops.

(** [backtrack(k)] with [n = 15 - k] slots still to fill.  The result is
    [Some] of the pairs written to [res[k..14]] when the source returns
    [true], and [None] when it returns [false]. *)
Fixpoint backtrack (ids : list string) (n : nat) (st : Search)
  : SearchResult :=
  match n with
  | O => (Some [], st)
  | S n' =>
      let pool := arraySort (poolCmp (counts st)) ids in
      loopI ids (Z.of_nat n' * 2) (backtrack ids n') pool st
  end.

Definition initSearch (ids : list string) : Search :=
  mkSearch (newMap ((λ id, (id, 0)) <$> ids)) ∅.

Definition buildBalancedDmOpponents (ids : list string)
  : Result (list (string * string)) :=
  match backtrack ids 15 (initSearch ids) with
  | (Some res, _) => Ok res
  | (None, _) => Throw ErrBalance
  end.

(** ** Rounds *)

(** The loop of [pairRemaining]: [out.push([arr[i], arr[i + 1]])] for
    [i = 0, 2, 4, ...].  With an odd number of elements the last pair is
    [[x, undefined]], written [[x]]. *)
Fixpoint pairUp (arr : list string) : list (list string) :=
  match arr with
  | x :: y :: tl => [x; y] :: pairUp tl
  | [x] => [[x]]
  | [] => []
  end.

Definition pairRemaining (eight : list string) (seed : Z)
  : list (list string) * Z :=
  let '(arr, seed) := shuffle eight seed in
  (pairUp arr, seed).

(** [pp[k][i]] *)
Definition at2 (pp : list (list string)) (k i : nat) : option string :=
  pp !! k ≫= (λ pr, pr !! i).

Definition getId (r : Z) (o : option string) : Result string :=
  match o with
  | Some x => Ok x
  | None => Throw (ErrUndefined r)
  end.

(** The inner loop of the validation,
    [for (const id of ids) { if (seen.has(id)) ...; seen.add(id); }]. *)
Fixpoint seenLoop (ids : list string) (seen : gset string)
  : option (gset string) :=
  match ids with
  | [] => Some seen
  | x :: tl =>
      if bool_decide (x ∈ seen) then None
      else seenLoop tl ({[x]} ∪ seen)
  end.

(** [for (const m of matches)]: [None] is [ok = false]. *)
Fixpoint validateLoop (ms : list Match) (seen : gset string)
  : option (gset string) :=
  match ms with
  | [] => Some seen
  | m :: tl =>
      let ids := matchIds m in
      if bool_decide (size (list_to_set (C := gset string) ids) ≠ 4%nat)
      then None
      else match seenLoop ids seen with
           | None => None
           | Some seen => validateLoop tl seen
           end
  end.

(** [!(!ok || seen.size !== 12)] *)
Definition roundValid (ms : list Match) : bool :=
  match validateLoop ms ∅ with
  | None => false
  | Some seen => bool_decide (size seen = 12%nat)
  end.

(** The body of [for (let r = 0; r < 15; r++)], for round index [r] and
    [dmOpp = dmOppPairs[r]]; [rn] is [r + 1]. *)
Definition buildRound (D M : string) (others : list string)
    (rn : Z) (dmOpp : string * string) (seed : Z) : Result (Round * Z) :=
  let used : gset string := list_to_set [D; M; dmOpp.1; dmOpp.2] in
  let rem := filter (λ id, id ∉ used) others in
  let '(pairs, seed) := pairRemaining rem seed in
  let '(pp, seed) := shuffle pairs seed in
  a8 ← getId rn (at2 pp 0 0); b8 ← getId rn (at2 pp 0 1);
  c8 ← getId rn (at2 pp 1 0); d8 ← getId rn (at2 pp 1 1);
  a9 ← getId rn (at2 pp 2 0); b9 ← getId rn (at2 pp 2 1);
  c9 ← getId rn (at2 pp 3 0); d9 ← getId rn (at2 pp 3 1);
  let matches :=
    [ mkMatch 7 (mkTeam D M) (mkTeam dmOpp.1 dmOpp.2) None;
      mkMatch 8 (mkTeam a8 b8) (mkTeam c8 d8) None;
      mkMatch 9 (mkTeam a9 b9) (mkTeam c9 d9) None ] in
  if roundValid matches then Ok (mkRound rn matches, seed)
  else Throw (ErrRound rn).

(** The loop over the rounds; [dmOppPairs] holds the pairs of the rounds
    still to build, [rn] the number of the next one. *)
Fixpoint roundsLoop (D M : string) (others : list string) (rn : Z)
    (dmOppPairs : list (string * string)) (seed : Z) : Result (list Round) :=
  match dmOppPairs with
  | [] => Ok []
  | dmOpp :: rest =>
      '(rd, seed) ← buildRound D M others rn dmOpp seed;
      rds ← roundsLoop D M others (rn + 1) rest seed;
      Ok (rd :: rds)
  end.

(** [players.filter((p) => /^(daniel|macho)$/.test(lower(p.name))).map((p) => p.id)] *)
Definition duoIds (players : list Player) : list string :=
  p_id <$> filter (λ p, isDuoName (p_name p)) players.

(** [players.filter((p) => p.id !== D && p.id !== M).map((p) => p.id)] *)
Definition otherIds (D M : string) (players : list Player) : list string :=
  p_id <$> filter (λ p, p_id p ≠ D ∧ p_id p ≠ M) players.

Definition generateSchedule (players : list Player) (seed : Z)
  : Result (list Round) :=
  if bool_decide (length players ≠ 12%nat) then Throw ErrPlayers else
  match duoIds players with
  | [D; M] =>
      let others := otherIds D M players in
      if bool_decide (length others ≠ 10%nat) then Throw ErrOthers else
      dmOppPairs ← buildBalancedDmOpponents others;
      roundsLoop D M others 1 dmOppPairs seed
  | _ => Throw ErrDuo
  end.

End Generator.

(** ** Statistics *)

(** [x || y] on numbers and on strings: the left operand unless it is
    falsy ([0], the empty string). *)
Definition orNum (x y : Z) : Z := if x =? 0 then y else x.
Definition orStr (x y : string) : string :=
  if bool_decide (x = "") then y else x.

(** A score counts when it is present and sums to 24:
    [if (!m.score) continue; if (s1 + s2 !== 24) continue;]. *)
Definition validScore (m : Match) : option Score :=
  match score m with
  | Some sc => if bool_decide (s_team1 sc + s_team2 sc ≠ 24) then None
               else Some sc
  | None => None
  end.

Record Row := mkRow {
  player : string; name : string;
  played : Z; won : Z; tied : Z; lost : Z;
  pointsFor : Z; pointsAgainst : Z; diff : Z }.

(** The [rows] map of [computeStats], in insertion order; its keys are
    the [player] fields. *)
Definition hasRow (id : string) (rows : list Row) : bool :=
  bool_decide (id ∈ player <$> rows).

(** [idToName.get(id) || id] *)
Definition nameOf (idToName : gmap string string) (id : string) : string :=
  match idToName !! id with
  | Some n => orStr n id
  | None => id
  end.

(** [ensure(id)] followed by an update of the row it returns. *)
Definition ensure (idToName : gmap string string) (id : string)
    (rows : list Row) : list Row :=
  if hasRow id rows then rows
  else rows ++ [mkRow id (nameOf idToName id) 0 0 0 0 0 0 0].

Definition touch (idToName : gmap string string) (f : Row → Row)
    (rows : list Row) (id : string) : list Row :=
  (λ r, if bool_decide (player r = id) then f r else r)
    <$> ensure idToName id rows.

Definition addGame (pf pa : Z) (r : Row) : Row :=
  mkRow (player r) (name r) (played r + 1) (won r) (tied r) (lost r)
        (pointsFor r + pf) (pointsAgainst r + pa) (diff r).
Definition addWon (r : Row) : Row :=
  mkRow (player r) (name r) (played r) (won r + 1) (tied r) (lost r)
        (pointsFor r) (pointsAgainst r) (diff r).
Definition addLost (r : Row) : Row :=
  mkRow (player r) (name r) (played r) (won r) (tied r) (lost r + 1)
        (pointsFor r) (pointsAgainst r) (diff r).
Definition addTied (r : Row) : Row :=
  mkRow (player r) (name r) (played r) (won r) (tied r + 1) (lost r)
        (pointsFor r) (pointsAgainst r) (diff r).

(** The body of the inner loop of [computeStats]. *)
Definition statsMatch (idToName : gmap string string) (rows : list Row)
    (m : Match) : list Row :=
  match validScore m with
  | None => rows
  | Some sc =>
      let s1 := s_team1 sc in
      let s2 := s_team2 sc in
      let t1 := [t_a (team1 m); t_b (team1 m)] in
      let t2 := [t_a (team2 m); t_b (team2 m)] in
      let rows := foldl (touch idToName (addGame s1 s2)) rows t1 in
      let rows := foldl (touch idToName (addGame s2 s1)) rows t2 in
      if s2 <? s1 then
        let rows := foldl (touch idToName addWon) rows t1 in
        foldl (touch idToName addLost) rows t2
      else if s1 <? s2 then
        let rows := foldl (touch idToName addWon) rows t2 in
        foldl (touch idToName addLost) rows t1
      else foldl (touch idToName addTied) rows (t1 ++ t2)
  end.

Definition statsRows (idToName : gmap string string)
    (schedule : list Round) : list Row :=
  foldl (λ rows r, foldl (statsMatch idToName) rows (matches r)) [] schedule.

(** [{ ...r, diff: r.pointsFor - r.pointsAgainst }] *)
Definition withDiff (r : Row) : Row :=
  mkRow (player r) (name r) (played r) (won r) (tied r) (lost r)
        (pointsFor r) (pointsAgainst r) (pointsFor r - pointsAgainst r).

Section Standings.

Variable localeCompare : string → string → Z.

(** [b.pointsFor - a.pointsFor || b.won - a.won || b.diff - a.diff
     || a.name.localeCompare(b.name)] *)
Definition rowCmp (a b : Row) : Z :=
  orNum (pointsFor b - pointsFor a)
    (orNum (won b - won a)
       (orNum (diff b - diff a) (localeCompare (name a) (name b)))).

Definition computeStats (schedule : list Round) (players : list Player)
  : list Row :=
  let idToName := newMap ((λ p, (p_id p, p_name p)) <$> players) in
  let list := withDiff <$> statsRows idToName schedule in
  arraySort rowCmp list.

End Standings.

(** [t.includes(danielId) && t.includes(machoId)] *)
Definition hasDM (danielId machoId : string) (t : Team) : bool :=
  bool_decide (danielId ∈ [t_a t; t_b t])
  && bool_decide (machoId ∈ [t_a t; t_b t]).

(** Template-literal conversion of an integer, [`${n}`]. *)
Definition showZ (n : Z) : string :=
  NilZero.string_of_int (Z.to_int n).

Record Game := mkGame {
  g_round : Z; oppNames : string;
  g_score : option string; result : option string }.

(** [players.find((p) => p.id === id)?.name || id] *)
Definition findName (players : list Player) (id : string) : string :=
  match List.find (λ p, bool_decide (p_id p = id)) players with
  | Some p => orStr (p_name p) id
  | None => id
  end.

(** The entry that [dmStats] pushes for a match of the Duo. *)
Definition gameOf (danielId machoId : string) (players : list Player)
    (rn : Z) (m : Match) : Game :=
  let dmOnTeam1 := hasDM danielId machoId (team1 m) in
  let opp := if dmOnTeam1 then team2 m else team1 m in
  let names := findName players (t_a opp) +:+ " & "
               +:+ findName players (t_b opp) in
  match score m with
  | Some sc =>
      let s1 := s_team1 sc in
      let s2 := s_team2 sc in
      let dmScore := if dmOnTeam1 then s1 else s2 in
      let oppScore := if dmOnTeam1 then s2 else s1 in
      let res := if oppScore <? dmScore then "W"
                 else if dmScore <? oppScore then "L" else "T" in
      mkGame rn names (Some (showZ s1 +:+ "-" +:+ showZ s2)) (Some res)
  | None => mkGame rn names None None
  end.

Definition dmStats (schedule : list Round) (danielId machoId : string)
    (players : list Player) : list Game :=
  foldl (λ (games : list Game) r,
    foldl (λ (games : list Game) m,
      if hasDM danielId machoId (team1 m) || hasDM danielId machoId (team2 m)
      then games ++ [gameOf danielId machoId players (round r) m]
      else games) games (matches r)) [] schedule.

(** The local variables of [dmSummary]. *)
Record Tally := mkTally {
  tl_played : Z; tl_won : Z; tl_tied : Z; tl_lost : Z; tl_pointsFor : Z }.

(** The object [dmSummary] returns, [{ played, won, tied, lost, avg }].
    [avg] is the exact quotient; the source's division yields the
    floating-point number nearest to it. *)
Record Summary := mkSummary {
  dm_played : Z; dm_won : Z; dm_tied : Z; dm_lost : Z; dm_avg : Q }.

Definition tallyMatch (danielId machoId : string) (t : Tally) (m : Match)
  : Tally :=
  if hasDM danielId machoId (team1 m) || hasDM danielId machoId (team2 m)
  then
    match validScore m with
    | None => t
    | Some sc =>
        let dmOnTeam1 := hasDM danielId machoId (team1 m) in
        let dmScore := if dmOnTeam1 then s_team1 sc else s_team2 sc in
        let oppScore := if dmOnTeam1 then s_team2 sc else s_team1 sc in
        let t := mkTally (tl_played t + 1) (tl_won t) (tl_tied t) (tl_lost t)
                         (tl_pointsFor t + dmScore) in
        if oppScore <? dmScore then
          mkTally (tl_played t) (tl_won t + 1) (tl_tied t) (tl_lost t)
                  (tl_pointsFor t)
        else if dmScore <? oppScore then
          mkTally (tl_played t) (tl_won t) (tl_tied t) (tl_lost t + 1)
                  (tl_pointsFor t)
        else
          mkTally (tl_played t) (tl_won t) (tl_tied t + 1) (tl_lost t)
                  (tl_pointsFor t)
    end
  else t.

Definition dmTally (schedule : list Round) (danielId machoId : string)
  : Tally :=
  foldl (λ t r, foldl (tallyMatch danielId machoId) t (matches r))
        (mkTally 0 0 0 0 0) schedule.

(** [played ? pointsFor / played : 0] *)
Definition average (pointsFor played : Z) : Q :=
  if played =? 0 then 0%Q else ((pointsFor # 1) / (played # 1))%Q.

Definition dmSummary (schedule : list Round) (danielId machoId : string)
  : Summary :=
  let t := dmTally schedule danielId machoId in
  mkSummary (tl_played t) (tl_won t) (tl_tied t) (tl_lost t)
            (average (tl_pointsFor t) (tl_played t)).

(** ** Score entry, [setScoreAuto] *)

(** [Math.max(0, Math.min(24, x))] *)
Definition clamp24 (x : Z) : Z := Z.max 0 (Z.min 24 x).

(** The score object written by [setScoreAuto]; [value] is an integer,
    hence finite, so [Number.isFinite(value) ? value : 0] is [value]. *)
Definition newScore (old : option Score) (value side : Z) : Score :=
  let '(a, b) :=
    match old with
    | Some sc => (orNum (s_team1 sc) 0, orNum (s_team2 sc) 0)
    | None => (0, 0)
    end in
  let '(a, b) :=
    if side =? 1 then (value, clamp24 (24 - value))
    else (clamp24 (24 - value), value) in
  mkScore (clamp24 a) (clamp24 b).

(** The updater passed to [setSchedule].  [None] stands for the
    TypeError raised when [copy[roundIdx]] or its [matches[matchIdx]] does
    not exist. *)
Definition setScoreAuto (prev : list Round) (roundIdx matchIdx : nat)
    (value side : Z) : option (list Round) :=
  r ← prev !! roundIdx;
  m ← matches r !! matchIdx;
  let m' := mkMatch (court m) (team1 m) (team2 m)
                    (Some (newScore (score m) value side)) in
  Some (<[roundIdx := mkRound (round r) (<[matchIdx := m']> (matches r))]> prev).

(** ** Vocabulary for the balancing search *)

(** Every id of the list is a key of [counts], as after
    [new Map(ids.map((id) => [id, 0]))]. *)
Definition keysOK (ids : list string) (st : Search) : Prop :=
  ∀ x, x ∈ ids → is_Some (counts st !! x).

(** [Path ids n st res]: starting from the search state [st], the pairs
    of [res] can be chosen one after the other in the next [n] slots, each
    passing the tests of the inner loop: two different positions of the
    pool, both below the cap, a pair not used before, and the feasibility
    check after the choice. *)
Inductive Path (ids : list string)
  : nat → Search → list (string * string) → Prop :=
  | Path_nil st : Path ids 0 st []
  | Path_cons n st a b res :
      [a; b] ⊆+ ids →
      getCount (counts st) a < NEED →
      getCount (counts st) b < NEED →
      pairKey a b ∉ usedPair st →
      needTotal ids (counts (choose a b st)) ≤ Z.of_nat n * 2 →
      Path ids n (choose a b st) res →
      Path ids (S n) st ((a, b) :: res).

(** What a search procedure for [n] slots guarantees: on failure the
    state is as it was on entry, on success the result is a [Path]. *)
Definition searchSpec (ids : list string) (n : nat)
    (search : Search → SearchResult) : Prop :=
  ∀ st, keysOK ids st →
    match search st with
    | (None, st') => st' = st
    | (Some res, _) => Path ids n st res
    end.

(** The number of times [x] occurs as a member of the pairs of [res]. *)
Fixpoint occ (x : string) (res : list (string * string)) : Z :=
  match res with
  | [] => 0
  | (a, b) :: res' =>
      (if bool_decide (x = a) then 1 else 0)
      + (if bool_decide (x = b) then 1 else 0) + occ x res'
  end.

(** One candidate pair that passes the tests of the inner loop and from
    which the remaining slots can be filled. *)
Definition goodChoice (ids : list string) (n : nat) (st : Search)
    (a b : string) : Prop :=
  getCount (counts st) a < NEED
  ∧ getCount (counts st) b < NEED
  ∧ (pairKey a b ∉ usedPair st)
  ∧ needTotal ids (counts (choose a b st)) ≤ Z.of_nat n * 2
  ∧ ∃ res, Path ids n (choose a b st) res.

(** The number of positions of [l] that hold [x]. *)
Definition mult (x : string) (l : list string) : Z :=
  Z.of_nat (length (filter (λ y, y = x) l)).

Definition sumZ (l : list Z) : Z := foldr Z.add 0 l.

(** ** Vocabulary for the properties of the generator *)

(** A round as [generateSchedule] builds it for the opponent pair
    [dmOpp]: the Duo on court 7 against [dmOpp], eight players of
    [others] on courts 8 and 9, no score, twelve different ids. *)
Definition builtRound (D M : string) (others : list string)
    (dmOpp : string * string) (rd : Round) : Prop :=
  ∃ a8 b8 c8 d8 a9 b9 c9 d9,
    matches rd =
      [ mkMatch 7 (mkTeam D M) (mkTeam dmOpp.1 dmOpp.2) None;
        mkMatch 8 (mkTeam a8 b8) (mkTeam c8 d8) None;
        mkMatch 9 (mkTeam a9 b9) (mkTeam c9 d9) None ]
    ∧ NoDup [D; M; dmOpp.1; dmOpp.2; a8; b8; c8; d8; a9; b9; c9; d9]
    ∧ Forall (λ x, x ∈ others) [a8; b8; c8; d8; a9; b9; c9; d9].

(** The matches of a round that are played on court 7, and the members
    of their second team: the opponents of the Duo in that round. *)
Definition court7 (rd : Round) : list Match :=
  filter (λ m, court m = 7) (matches rd).

Definition duoOpponents (rd : Round) : list string :=
  m ← court7 rd; [t_a (team2 m); t_b (team2 m)].

(** The number of rounds in which [x] is an opponent of the Duo. *)
Definition timesVsDuo (x : string) (schedule : list Round) : nat :=
  length (filter (λ rd, x ∈ duoOpponents rd) schedule).

(** The search of [buildBalancedDmOpponents] finds no assignment for the
    non-Duo players of [players]. *)
Definition searchFails (localeCompare : string → string → Z)
    (players : list Player) : Prop :=
  ∃ D M, duoIds players = [D; M]
    ∧ (backtrack localeCompare (otherIds D M players) 15
         (initSearch (otherIds D M players))).1 = None.

(** The four conditions under which the generator gives up. *)
Definition generationFails (localeCompare : string → string → Z)
    (players : list Player) : Prop :=
  length players ≠ 12%nat
  ∨ length (filter (λ p, isDuoName (p_name p)) players) ≠ 2%nat
  ∨ (∃ D M, duoIds players = [D; M]
       ∧ length (otherIds D M players) ≠ 10%nat)
  ∨ searchFails localeCompare players.

(** A complete schedule: rounds 1 to 15, each with one match on each of
    the courts 7, 8 and 9, none of them scored. *)
Definition completeSchedule (schedule : list Round) : Prop :=
  round <$> schedule = seqZ 1 15
  ∧ Forall (λ rd, court <$> matches rd = [7; 8; 9]
                  ∧ Forall (λ m, score m = None) (matches rd)) schedule.

(** Twelve players of whom two are named Daniel and none Macho. *)
Definition twoDaniels : list Player :=
  [ mkPlayer "p1" "Daniel"; mkPlayer "p2" "Daniel";
    mkPlayer "p3" "Player 3"; mkPlayer "p4" "Player 4";
    mkPlayer "p5" "Player 5"; mkPlayer "p6" "Player 6";
    mkPlayer "p7" "Player 7"; mkPlayer "p8" "Player 8";
    mkPlayer "p9" "Player 9"; mkPlayer "p10" "Player 10";
    mkPlayer "p11" "Player 11"; mkPlayer "p12" "Player 12" ].

(** The players of the application's initial state. *)
Definition defaultPlayers : list Player :=
  [ mkPlayer "p1" "Daniel"; mkPlayer "p2" "Macho";
    mkPlayer "p3" "Player 3"; mkPlayer "p4" "Player 4";
    mkPlayer "p5" "Player 5"; mkPlayer "p6" "Player 6";
    mkPlayer "p7" "Player 7"; mkPlayer "p8" "Player 8";
    mkPlayer "p9" "Player 9"; mkPlayer "p10" "Player 10";
    mkPlayer "p11" "Player 11"; mkPlayer "p12" "Player 12" ].

(** ** Vocabulary for the properties of the statistics *)

(** The schedule with the score of the match at ([ri], [mi]) removed. *)
Definition clearScore (m : Match) : Match :=
  mkMatch (court m) (team1 m) (team2 m) None.

Definition clearScoreAt (ri mi : nat) (schedule : list Round) : list Round :=
  alter (λ r, mkRound (round r) (alter clearScore mi (matches r))) ri schedule.

(** All matches of a schedule, in the order the aggregators scan them. *)
Definition allMatches (schedule : list Round) : list Match :=
  r ← schedule; matches r.

(** The order of the standings in the words of the specification:
    points-for descending, then wins descending, then differential
    descending, then name ascending. *)
Definition rowBefore (localeCompare : string → string → Z) (a b : Row)
  : Prop :=
  pointsFor a > pointsFor b
  ∨ (pointsFor a = pointsFor b
     ∧ (won a > won b
        ∨ (won a = won b
           ∧ (diff a > diff b
              ∨ (diff a = diff b
                 ∧ localeCompare (name a) (name b) ≤ 0))))).

Definition keepsPlayer (f : Row → Row) : Prop := ∀ r, player (f r) = player r.

(** Both Duo ids are on one team of the match. *)
Definition duoPlays (danielId machoId : string) (m : Match) : bool :=
  hasDM danielId machoId (team1 m) || hasDM danielId machoId (team2 m).

(** The entries of the game log that come from one round: one for each
    match of the Duo, scored or not. *)
Definition duoGames (danielId machoId : string) (players : list Player)
    (r : Round) : list Game :=
  gameOf danielId machoId players (round r)
    <$> filter (λ m, duoPlays danielId machoId m) (matches r).

(** The matches that count for the Duo summary, in the words of the
    specification: the Duo plays and the score sums to 24. *)
Definition duoCounted (danielId machoId : string) (m : Match) : bool :=
  duoPlays danielId machoId m
  && match score m with
     | Some sc => bool_decide (s_team1 sc + s_team2 sc = 24)
     | None => false
     end.

(** The score of the Duo's team and of the opposing team in a match. *)
Definition duoScore (danielId machoId : string) (m : Match) : Z :=
  match score m with
  | Some sc => if hasDM danielId machoId (team1 m) then s_team1 sc
               else s_team2 sc
  | None => 0
  end.

Definition oppScore (danielId machoId : string) (m : Match) : Z :=
  match score m with
  | Some sc => if hasDM danielId machoId (team1 m) then s_team2 sc
               else s_team1 sc
  | None => 0
  end.

(** A comparator to run the development on: the order of the code
    units, which is [localeCompare] in a locale with binary collation. *)
Definition codeUnitCompare (a b : string) : Z :=
  match String.compare a b with
  | Lt => -1
  | Eq => 0
  | Gt => 1
  end.

(** ** Concrete inputs *)

(** The schedule generated for the default players and seed 42, with
    [codeUnitCompare] as the comparator. *)
Definition schedule42 : list Round :=
  Eval vm_compute in
    match generateSchedule codeUnitCompare defaultPlayers 42 with
    | Ok schedule => schedule
    | Throw _ => []
    end.

(** Two rounds with scores: a score that does not sum to 24, a win, a
    match without a score, a tie and a loss of the Duo. *)
Definition scoredExample : list Round :=
  [ mkRound 1
      [ mkMatch 7 (mkTeam "p1" "p2") (mkTeam "p3" "p4")
                (Some (mkScore 10 10));
        mkMatch 8 (mkTeam "p5" "p6") (mkTeam "p7" "p8")
                (Some (mkScore 15 9));
        mkMatch 9 (mkTeam "p9" "p10") (mkTeam "p11" "p12") None ];
    mkRound 2
      [ mkMatch 7 (mkTeam "p1" "p2") (mkTeam "p5" "p7")
                (Some (mkScore 11 13));
        mkMatch 8 (mkTeam "p3" "p6") (mkTeam "p4" "p8")
                (Some (mkScore 12 12));
        mkMatch 9 (mkTeam "p9" "p11") (mkTeam "p10" "p12")
                (Some (mkScore 9 15)) ] ].

(** Twelve players of whom the two named Daniel and Macho share an
    id. *)
Definition sharedDuoId : list Player :=
  [ mkPlayer "p1" "Daniel"; mkPlayer "p1" "Macho";
    mkPlayer "p3" "Player 3"; mkPlayer "p4" "Player 4";
    mkPlayer "p5" "Player 5"; mkPlayer "p6" "Player 6";
    mkPlayer "p7" "Player 7"; mkPlayer "p8" "Player 8";
    mkPlayer "p9" "Player 9"; mkPlayer "p10" "Player 10";
    mkPlayer "p11" "Player 11"; mkPlayer "p12" "Player 12" ].

(** ** Vocabulary for further properties *)

(** The search state after choosing the pairs of [res] one after the
    other. *)
Definition chooseAll (res : list (string * string)) (st : Search) : Search :=
  foldl (λ st p, choose p.1 p.2 st) st res.

(** The keys under which the pairs of [res] are recorded in
    [usedPair]. *)
Definition pairKeys (res : list (string * string)) : list string :=
  (λ p, pairKey p.1 p.2) <$> res.

(** The row of player [x] in the [rows] map of [computeStats],
    [rows.get(x)]. *)
Definition rowOf (x : string) (rows : list Row) : option Row :=
  List.find (λ r, bool_decide (player r = x)) rows.

(** The value of a quantity [φ] for player [x]: 0 when [x] has no row. *)
Definition rowVal (φ : Row → Z) (x : string) (rows : list Row) : Z :=
  from_option φ 0 (rowOf x rows).

(** Matches played that are not counted as won, tied or lost; points
    that are not 24 a match. *)
Definition unclassified (r : Row) : Z := played r - won r - tied r - lost r.
Definition pointsExcess (r : Row) : Z :=
  pointsFor r + pointsAgainst r - 24 * played r.

(** [Number.isSafeInteger]: the integers from -(2^53 - 1) to 2^53 - 1.
    The sum of two safe integers, when it is a safe integer itself, is
    computed exactly by the addition of numbers. *)
Definition safeInteger (x : Z) : Prop := - (2 ^ 53 - 1) ≤ x ≤ 2 ^ 53 - 1.

(** ** More of the application *)

(** [updateName(id, name)]:
    [prev.map((p) => (p.id === id ? { ...p, name } : p))] *)
Definition updateName (id name : string) (players : list Player)
  : list Player :=
  (λ p, if bool_decide (p_id p = id) then mkPlayer (p_id p) name else p)
    <$> players.

(** The Duo rule of [printPDF], [/^(daniel|macho)$/i.test(p.name)]: the
    name is compared without regard to case, and is not trimmed.  In the
    Latin-1 range only the letters A-Z match the letters of the
    pattern. *)
Definition isDuoNamePrint (name : string) : bool :=
  bool_decide (toLowerCase name = "daniel")
  || bool_decide (toLowerCase name = "macho").

(** [players.filter(p => /^(daniel|macho)$/i.test(p.name)).map(p => p.id)] *)
Definition duoIdsPrint (players : list Player) : list string :=
  p_id <$> filter (λ p, isDuoNamePrint (p_name p)) players.

(** [s.replaceAll(c, rep)] for a pattern of one character. *)
Fixpoint replaceAllChar (c : ascii) (rep : string) (s : string) : string :=
  match s with
  | EmptyString => EmptyString
  | String x s' =>
      if bool_decide (x = c) then rep +:+ replaceAllChar c rep s'
      else String x (replaceAllChar c rep s')
  end.

(** [htmlEscape] of [printPDF]:
    [String(s).replaceAll('&', '&amp;').replaceAll('<', '&lt;').replaceAll('>', '&gt;')] *)
Definition htmlEscape (s : string) : string :=
  replaceAllChar ">" "&gt;"
    (replaceAllChar "<" "&lt;" (replaceAllChar "&" "&amp;" s)).

(** The double quote character, and the quoting of a field in
    [exportCSV]: a quote, the field with every quote doubled, a quote. *)
Definition dquote : ascii := "034"%char.

Definition csvField (x : string) : string :=
  String dquote
    (replaceAllChar dquote (String dquote (String dquote EmptyString)) x
     +:+ String dquote EmptyString).

(** [`${idToName.get(id)}`]: a missing id prints as "undefined". *)
Definition showName (idToName : gmap string string) (id : string) : string :=
  default "undefined" (idToName !! id).

(** The rows of [exportCSV]: the header, then one row for each match. *)
Definition csvRows (idToName : gmap string string) (schedule : list Round)
  : list (list string) :=
  ["Round"; "Court"; "Team1"; "Team2"; "Score"]
  :: (r ← schedule;
      (λ m,
         [ showZ (round r); showZ (court m);
           showName idToName (t_a (team1 m)) +:+ " & "
             +:+ showName idToName (t_b (team1 m));
           showName idToName (t_a (team2 m)) +:+ " & "
             +:+ showName idToName (t_b (team2 m));
           match score m with
           | Some sc => showZ (s_team1 sc) +:+ "-" +:+ showZ (s_team2 sc)
           | None => ""
           end ]) <$> matches r).

(** [rows.map((r) => r.map(quote).join(",")).join("\n")] *)
Definition csvText (rows : list (list string)) : string :=
  String.concat (String "010"%char EmptyString)
    ((λ r, String.concat "," (csvField <$> r)) <$> rows).

Definition exportCSV (players : list Player) (schedule : list Round)
  : string :=
  csvText (csvRows (newMap ((λ p, (p_id p, p_name p)) <$> players)) schedule).

(** ** Vocabulary for the escaping functions *)

(** The three replacements of [htmlEscape] act as one pass that maps
    every character to its entity. *)
Definition escChar (c : ascii) : string :=
  if bool_decide (c = "&"%char) then "&amp;"
  else if bool_decide (c = "<"%char) then "&lt;"
  else if bool_decide (c = ">"%char) then "&gt;"
  else String c EmptyString.

Definition quoteBody (x : string) : string :=
  replaceAllChar dquote (String dquote (String dquote EmptyString)) x.

(** A text that does not begin with a quote. *)
Definition noQuoteAhead (r : string) : Prop :=
  match r with
  | EmptyString => True
  | String c _ => c ≠ dquote
  end.

(** [r.map(quote).join(",")] *)
Definition csvLine (r : list string) : string :=
  String.concat "," (csvField <$> r).

(** The end of a line: the end of the text, or a line feed. *)
Definition lineEnd (r : string) : Prop :=
  match r with
  | EmptyString => True
  | String c _ => c = "010"%char
  end.

(** ** The diagnostic counts [dmOppCounts] *)

(** [map.set(k, (map.get(k) || 0) + 1)] *)
Definition bump (k : string) (map : gmap string Z) : gmap string Z :=
  <[k := match map !! k with Some n => orNum n 0 | None => 0 end + 1]> map.

(** The body of the inner loop: the members of the team that plays
    against the Duo are counted. *)
Definition countMatch (dId mId : string) (map : gmap string Z) (m : Match)
  : gmap string Z :=
  let map :=
    if hasDM dId mId (team1 m)
    then bump (t_b (team2 m)) (bump (t_a (team2 m)) map) else map in
  if hasDM dId mId (team2 m)
  then bump (t_b (team1 m)) (bump (t_a (team1 m)) map) else map.

(** [dmOppCounts]: the Duo is found by name, the first player called
    Daniel and the first called Macho; when one of them is missing, or
    has an empty id, every count stays 0. *)
Definition dmOppCounts (schedule : list Round) (players : list Player)
  : gmap string Z :=
  let map := newMap ((λ p, (p_id p, 0)) <$> players) in
  let dId :=
    p_id <$> List.find (λ p, bool_decide (lower (p_name p) = "daniel"))
               players in
  let mId :=
    p_id <$> List.find (λ p, bool_decide (lower (p_name p) = "macho"))
               players in
  match dId, mId with
  | Some d, Some m =>
      if bool_decide (d = "") || bool_decide (m = "") then map
      else foldl (λ map r, foldl (countMatch d m) map (matches r))
             map schedule
  | _, _ => map
  end.

(** The rows of the diagnostic panel.  The panel leaves out the players
    matched by [/^daniel|macho$/i]: the names that begin with "daniel" or
    end with "macho", without regard to case. *)
Definition panelHidden (name : string) : bool :=
  bool_decide (list_ascii_of_string "daniel"
               `prefix_of` list_ascii_of_string (toLowerCase name))
  || bool_decide (list_ascii_of_string "macho"
                  `suffix_of` list_ascii_of_string (toLowerCase name)).

(** [players.filter(p => !/^daniel|macho$/i.test(p.name))] with the cell
    [dmOppCounts.get(p.id) || 0] of each row. *)
Definition panelRows (players : list Player) (counts : gmap string Z)
  : list (string * Z) :=
  (λ p, (p_name p,
         match counts !! p_id p with Some n => orNum n 0 | None => 0 end))
    <$> filter (λ p, negb (panelHidden (p_name p))) players.

Set Warnings "-clear-no-such-hyp".

(** ** Facts about [arraySort] *)

Lemma insertSorted_Permutation {A} (cmp : A → A → Z) x l :
  insertSorted cmp x l ≡ₚ x :: l.
Proof.
  induction l as [|y l IH]; simpl; [done|].
  destruct (cmp x y <=? 0); [done|].
  rewrite IH. apply Permutation_swap.
Qed.

Lemma arraySort_Permutation {A} (cmp : A → A → Z) l :
  arraySort cmp l ≡ₚ l.
Proof.
  induction l as [|x l IH]; simpl; [done|].
  by rewrite insertSorted_Permutation, IH.
Qed.

Lemma arraySort_length {A} (cmp : A → A → Z) l :
  length (arraySort cmp l) = length l.
Proof. by rewrite arraySort_Permutation. Qed.

Section SortSorted.
Context {A : Type} (cmp : A → A → Z).
Hypothesis le_total : ∀ a b, cmpLe cmp a b ∨ cmpLe cmp b a.
Hypothesis le_trans : ∀ a b c, cmpLe cmp a b → cmpLe cmp b c → cmpLe cmp a c.

Lemma insertSorted_sorted x l :
  StronglySorted (cmpLe cmp) l →
  StronglySorted (cmpLe cmp) (insertSorted cmp x l).
Proof.
  induction 1 as [|y l Hl IH Hy]; simpl.
  - repeat constructor.
  - destruct (Z.leb_spec (cmp x y) 0) as [Hxy|Hxy].
    + constructor; [by constructor|].
      constructor; [done|].
      eapply Forall_impl; [exact Hy|]. intros z Hz. by eapply le_trans.
    + constructor; [done|].
      rewrite insertSorted_Permutation. constructor; [|done].
      destruct (le_total x y) as [H|H]; [|done]. unfold cmpLe in H. lia.
Qed.

Lemma arraySort_sorted l : StronglySorted (cmpLe cmp) (arraySort cmp l).
Proof.
  induction l as [|x l IH]; simpl; [constructor|].
  by apply insertSorted_sorted.
Qed.
End SortSorted.

Lemma StronglySorted_lookup {A} (R : A → A → Prop) l i j a b :
  StronglySorted R l → (i < j)%nat →
  l !! i = Some a → l !! j = Some b → R a b.
Proof.
  intros Hs. revert i j. induction Hs as [|x l Hl IH Hx]; intros i j Hij Hi Hj.
  - done.
  - destruct i as [|i], j as [|j]; try lia; simpl in *.
    + injection Hi as ->. rewrite Forall_forall in Hx.
      apply Hx. by eapply list_elem_of_lookup_2.
    + eapply IH; [|done..]. lia.
Qed.

Lemma StronglySorted_weaken {A} (R S : A → A → Prop) l :
  (∀ a b, R a b → S a b) → StronglySorted R l → StronglySorted S l.
Proof.
  intros HRS. induction 1 as [|x l Hl IH Hx]; constructor; [done|].
  eapply Forall_impl; [exact Hx|]. auto.
Qed.

(** ** The order of the standings *)

Section StandingsOrder.

Variable localeCompare : string → string → Z.

(** [localeCompare] is a consistent comparator: exchanging the arguments
    exchanges the sign, and "not after" is transitive. *)
Hypothesis localeCompare_antisym :
  ∀ a b, Z.sgn (localeCompare b a) = - Z.sgn (localeCompare a b).
Hypothesis localeCompare_trans :
  ∀ a b c, localeCompare a b ≤ 0 → localeCompare b c ≤ 0 →
           localeCompare a c ≤ 0.

Lemma rowCmp_le_iff a b :
  rowCmp localeCompare a b ≤ 0 ↔ rowBefore localeCompare a b.
Proof.
  unfold rowCmp, rowBefore, orNum.
  repeat match goal with
         | |- context [?x =? 0] => destruct (Z.eqb_spec x 0)
         end; lia.
Qed.

Lemma rowBefore_total a b :
  rowBefore localeCompare a b ∨ rowBefore localeCompare b a.
Proof.
  unfold rowBefore.
  pose proof (localeCompare_antisym (name a) (name b)). lia.
Qed.

Lemma rowBefore_trans a b c :
  rowBefore localeCompare a b → rowBefore localeCompare b c →
  rowBefore localeCompare a c.
Proof.
  unfold rowBefore.
  pose proof (localeCompare_trans (name a) (name b) (name c)). lia.
Qed.

Lemma computeStats_sorted schedule players :
  StronglySorted (rowBefore localeCompare)
                 (computeStats localeCompare schedule players).
Proof.
  unfold computeStats.
  eapply StronglySorted_weaken; cycle 1.
  - apply (arraySort_sorted (rowCmp localeCompare)).
    + intros a b. unfold cmpLe. rewrite !rowCmp_le_iff. apply rowBefore_total.
    + intros a b c. unfold cmpLe. rewrite !rowCmp_le_iff.
      apply rowBefore_trans.
  - intros a b. unfold cmpLe. apply rowCmp_le_iff.
Qed.

Lemma computeStats_diff schedule players r :
  r ∈ computeStats localeCompare schedule players →
  diff r = pointsFor r - pointsAgainst r.
Proof.
  unfold computeStats. rewrite arraySort_Permutation.
  intros (r0 & -> & _)%list_elem_of_fmap. reflexivity.
Qed.

(** C5.  The rows returned by [computeStats] are sorted by points-for
    descending, then wins descending, then point differential (points-for
    minus points-against) descending, then name ascending in the order of
    [localeCompare]; of two rows with equal points-for, wins and
    differential, the one whose name is smaller comes first. *)
Theorem computeStats_order (schedule : list Round) (players : list Player) :
  let rows := computeStats localeCompare schedule players in
  StronglySorted (rowBefore localeCompare) rows
  ∧ (∀ r, r ∈ rows → diff r = pointsFor r - pointsAgainst r)
  ∧ (∀ i j a b,
       rows !! i = Some a → rows !! j = Some b →
       pointsFor a = pointsFor b → won a = won b → diff a = diff b →
       localeCompare (name a) (name b) < 0 →
       (i < j)%nat).
Proof.
  intros rows. pose proof (computeStats_sorted schedule players) as Hs.
  fold rows in Hs. split; [done|]. split.
  - intros r. apply computeStats_diff.
  - intros i j a b Hi Hj Hpf Hw Hd Hlt.
    destruct (Nat.lt_trichotomy i j) as [H|[->|H]]; [done| |].
    + assert (a = b) as -> by congruence.
      pose proof (localeCompare_antisym (name b) (name b)). lia.
    + pose proof (StronglySorted_lookup _ _ _ _ _ _ Hs H Hj Hi) as Hba.
      pose proof (localeCompare_antisym (name a) (name b)).
      unfold rowBefore in Hba. lia.
Qed.

End StandingsOrder.

(** ** The random stream and [shuffle] *)

Lemma toUint32_range x : 0 ≤ toUint32 x < 2 ^ 32.
Proof. unfold toUint32. apply Z.mod_pos_bound. lia. Qed.

Lemma mulberry32_range seed : 0 ≤ (mulberry32 seed).1 < 2 ^ 32.
Proof. unfold mulberry32. simpl. apply toUint32_range. Qed.

(** [Math.floor(rng() * (i + 1))] is an index between [0] and [i]. *)
Lemma randIndex_le u i : 0 ≤ u < 2 ^ 32 → (randIndex u i ≤ i)%nat.
Proof.
  intros Hu. unfold randIndex.
  assert (u * (Z.of_nat i + 1) / 4294967296 < Z.of_nat i + 1).
  { apply Z.div_lt_upper_bound; [lia|]. nia. }
  assert (0 ≤ u * (Z.of_nat i + 1) / 4294967296).
  { apply Z.div_pos; lia. }
  lia.
Qed.

Lemma insert_front_Permutation {A} (l : list A) j x y :
  l !! j = Some y → y :: <[j := x]> l ≡ₚ x :: l.
Proof.
  revert j. induction l as [|h l IH]; intros [|j] Hj; simpl in *; try done.
  - injection Hj as ->. apply Permutation_swap.
  - rewrite (Permutation_swap h y), (IH j Hj). apply Permutation_swap.
Qed.

Lemma swap_Permutation {A} (a : list A) i j : swap a i j ≡ₚ a.
Proof.
  unfold swap.
  destruct (a !! i) as [x|] eqn:Hi; [|done].
  destruct (a !! j) as [y|] eqn:Hj; [|done].
  revert i j Hi Hj. induction a as [|h a IH]; intros i j Hi Hj; [done|].
  destruct i as [|i], j as [|j]; simpl in *.
  - by simplify_eq.
  - injection Hi as ->. by apply insert_front_Permutation.
  - injection Hj as ->. by apply insert_front_Permutation.
  - by rewrite IH.
Qed.

Lemma shuffleLoop_Permutation {A} n (a : list A) seed :
  (shuffleLoop n a seed).1 ≡ₚ a.
Proof.
  revert a seed. induction n as [|n IH]; intros a seed; simpl; [done|].
  destruct (mulberry32 seed) as [u seed'].
  rewrite IH. apply swap_Permutation.
Qed.

Lemma shuffle_Permutation {A} (arr : list A) seed :
  (shuffle arr seed).1 ≡ₚ arr.
Proof. apply shuffleLoop_Permutation. Qed.

(** Every exchange of [shuffle] is inside the array. *)
Lemma shuffleLoop_in_range {A} n (a : list A) seed :
  (n < length a)%nat →
  let '(u, _) := mulberry32 seed in
  (randIndex u n ≤ n < length a)%nat.
Proof.
  intros Hn. pose proof (mulberry32_range seed) as Hu.
  destruct (mulberry32 seed) as [u seed']. simpl in Hu.
  split; [by apply randIndex_le|done].
Qed.

Lemma pairUp_concat arr : mjoin (pairUp arr) = arr.
Proof.
  cut (mjoin (pairUp arr) = arr
       ∧ ∀ x, mjoin (pairUp (x :: arr)) = x :: arr); [by intros []|].
  induction arr as [|y tl [IH1 IH2]]; [done|].
  split; [apply IH2|]. intros x. simpl. by rewrite IH1.
Qed.

Lemma pairUp_eight arr :
  length arr = 8%nat →
  ∃ x1 x2 x3 x4 x5 x6 x7 x8,
    arr = [x1; x2; x3; x4; x5; x6; x7; x8]
    ∧ pairUp arr = [[x1; x2]; [x3; x4]; [x5; x6]; [x7; x8]].
Proof.
  intros Hlen.
  do 9 (destruct arr as [|? arr]; simpl in Hlen; try lia).
  eexists _, _, _, _, _, _, _, _. split; reflexivity.
Qed.

(** ** The balancing search *)

Lemma getCount_insert c k v x :
  getCount (<[k := v]> c) x = if decide (k = x) then v else getCount c x.
Proof. unfold getCount. rewrite lookup_insert. by case_decide. Qed.

Lemma getCount_choose a b st x :
  getCount (counts (choose a b st)) x
  = getCount (counts st) x
    + (if bool_decide (x = a) then 1 else 0)
    + (if bool_decide (x = b) then 1 else 0).
Proof.
  unfold choose. simpl. rewrite !getCount_insert.
  repeat case_decide; repeat case_bool_decide; simplify_eq; lia.
Qed.

Lemma keysOK_choose ids a b st : keysOK ids st → keysOK ids (choose a b st).
Proof.
  intros H x Hx. unfold choose. simpl.
  rewrite !lookup_insert. repeat case_decide; eauto.
Qed.

(** The "undo" block restores the state that the "choose" block
    changed. *)
Lemma undo_choose a b st :
  is_Some (counts st !! a) → is_Some (counts st !! b) →
  pairKey a b ∉ usedPair st →
  undo a b (choose a b st) = st.
Proof.
  intros [ca Ha] [cb Hb] Hk. destruct st as [c u]. simpl in *.
  unfold undo, choose. simpl. f_equal.
  - apply map_eq. intros x.
    rewrite !lookup_insert, !getCount_insert.
    unfold getCount.
    repeat case_decide; simplify_eq; rewrite ?Ha, ?Hb; simpl;
      try (f_equal; lia); try done.
    all: rewrite ?Ha in *; simplify_eq; f_equal; lia.
  - set_solver.
Qed.

Lemma loopJ_cons ids slots search a b bs st :
  loopJ ids slots search a (b :: bs) st =
    if NEED <=? getCount (counts st) b then loopJ ids slots search a bs st
    else if bool_decide (pairKey a b ∈ usedPair st)
    then loopJ ids slots search a bs st
    else
      match (if needTotal ids (counts (choose a b st)) <=? slots
             then search (choose a b st) else (None, choose a b st)) with
      | (Some r, st') => (Some ((a, b) :: r), st')
      | (None, st') => loopJ ids slots search a bs (undo a b st')
      end.
Proof. reflexivity. Qed.

Lemma loopI_cons ids slots search a rest st :
  loopI ids slots search (a :: rest) st =
    if NEED <=? getCount (counts st) a then loopI ids slots search rest st
    else
      match loopJ ids slots search a rest st with
      | (Some r, st') => (Some r, st')
      | (None, st') => loopI ids slots search rest st'
      end.
Proof. reflexivity. Qed.

Section LoopsSound.
Variables (ids : list string) (n : nat) (search : Search → SearchResult).
Hypothesis search_ok : searchSpec ids n search.

Lemma loopJ_sound a bs st :
  keysOK ids st →
  getCount (counts st) a < NEED →
  (∀ b, b ∈ bs → [a; b] ⊆+ ids) →
  match loopJ ids (Z.of_nat n * 2) search a bs st with
  | (None, st') => st' = st
  | (Some res, _) => Path ids (S n) st res
  end.
Proof.
  intros Hk Ha. induction bs as [|b bs IH]; intros Hbs; [done|].
  rewrite loopJ_cons.
  assert (∀ b, b ∈ bs → [a; b] ⊆+ ids) as Hbs' by (intros; apply Hbs; set_solver).
  destruct (Z.leb_spec NEED (getCount (counts st) b)) as [|Hb]; [by apply IH|].
  case_bool_decide as Hu; [by apply IH|].
  assert ([a; b] ⊆+ ids) as Hab by (apply Hbs; set_solver).
  assert (undo a b (choose a b st) = st) as Hundo.
  { apply undo_choose; [apply Hk|apply Hk|done].
    - eapply elem_of_submseteq; [|exact Hab]. set_solver.
    - eapply elem_of_submseteq; [|exact Hab]. set_solver. }
  destruct (Z.leb_spec (needTotal ids (counts (choose a b st)))
                       (Z.of_nat n * 2)) as [Hf|Hf].
  - pose proof (search_ok (choose a b st) (keysOK_choose _ _ _ _ Hk)) as Hs.
    destruct (search (choose a b st)) as [[res|] st']; simpl.
    + by constructor.
    + subst st'. rewrite Hundo. by apply IH.
  - rewrite Hundo. by apply IH.
Qed.

Lemma loopI_sound pool st :
  keysOK ids st →
  pool ⊆+ ids →
  match loopI ids (Z.of_nat n * 2) search pool st with
  | (None, st') => st' = st
  | (Some res, _) => Path ids (S n) st res
  end.
Proof.
  intros Hk. induction pool as [|a rest IH]; intros Hp; [done|].
  rewrite loopI_cons.
  assert (rest ⊆+ ids) as Hrest.
  { etrans; [|exact Hp]. by apply submseteq_cons. }
  destruct (Z.leb_spec NEED (getCount (counts st) a)) as [|Ha]; [by apply IH|].
  pose proof (loopJ_sound a rest st Hk Ha) as HJ.
  destruct (loopJ ids (Z.of_nat n * 2) search a rest st) as [[res|] st'].
  - apply HJ. intros b Hb. etrans; [|exact Hp].
    apply submseteq_skip. by apply singleton_submseteq_l.
  - rewrite HJ; [by apply IH|].
    intros b Hb. etrans; [|exact Hp].
    apply submseteq_skip. by apply singleton_submseteq_l.
Qed.
End LoopsSound.

Lemma backtrack_sound localeCompare ids n :
  searchSpec ids n (backtrack localeCompare ids n).
Proof.
  induction n as [|n IH]; intros st Hk; simpl.
  - constructor.
  - apply loopI_sound; [done..|].
    by rewrite arraySort_Permutation.
Qed.

(** ** Consequences of a successful search *)

Lemma submseteq_NoDup {A} (l k : list A) : l ⊆+ k → NoDup k → NoDup l.
Proof.
  intros (k' & Hk)%submseteq_Permutation Hnd. rewrite Hk in Hnd.
  by apply NoDup_app in Hnd as [? _].
Qed.

Lemma pair_submseteq_ne {A} (a b : A) (ids : list A) :
  [a; b] ⊆+ ids → NoDup ids → a ≠ b.
Proof.
  intros Hab Hnd ->. apply (submseteq_NoDup _ _ Hab) in Hnd.
  apply NoDup_cons in Hnd as [Hn _]. set_solver.
Qed.

Lemma Path_length ids n st res : Path ids n st res → length res = n.
Proof. induction 1; simpl; congruence. Qed.

Lemma Path_pairs ids n st res :
  Path ids n st res → Forall (λ p, [p.1; p.2] ⊆+ ids) res.
Proof. induction 1; constructor; done. Qed.

Lemma needTotal_acc ids c acc :
  foldl (λ acc id, acc + Z.max 0 (NEED - getCount c id)) acc ids
  = acc + needTotal ids c.
Proof.
  unfold needTotal. revert acc.
  induction ids as [|x ids IH]; intros acc; simpl; [lia|].
  rewrite IH, (IH (0 + _)). lia.
Qed.

Lemma needTotal_cons x ids c :
  needTotal (x :: ids) c = Z.max 0 (NEED - getCount c x) + needTotal ids c.
Proof. unfold needTotal at 1. simpl. by rewrite needTotal_acc. Qed.

Lemma needTotal_nonneg ids c : 0 ≤ needTotal ids c.
Proof.
  induction ids as [|x ids IH]; [done|]. rewrite needTotal_cons. lia.
Qed.

Lemma needTotal_elem ids c x :
  x ∈ ids → Z.max 0 (NEED - getCount c x) ≤ needTotal ids c.
Proof.
  induction 1 as [x ids|x y ids Hx IH]; rewrite needTotal_cons.
  - pose proof (needTotal_nonneg ids c). lia.
  - lia.
Qed.

Lemma needTotal_zero_counts ids c :
  (∀ x, x ∈ ids → getCount c x = 0) →
  needTotal ids c = NEED * Z.of_nat (length ids).
Proof.
  induction ids as [|x ids IH]; intros H; [done|].
  rewrite needTotal_cons, H, IH by set_solver.
  unfold NEED. simpl length. lia.
Qed.

(** Each id reaches the quota: the feasibility check after the last
    choice leaves no need. *)
Lemma Path_lower ids n st res x :
  Path ids n st res →
  needTotal ids (counts st) ≤ Z.of_nat n * 2 →
  x ∈ ids →
  NEED ≤ getCount (counts st) x + occ x res.
Proof.
  intros HP. induction HP as [st|n st a b res Hab Ha Hb Hu Hf HP IH];
    intros Hneed Hx.
  - pose proof (needTotal_elem ids (counts st) x Hx). simpl. lia.
  - specialize (IH Hf Hx). rewrite getCount_choose in IH. simpl. lia.
Qed.

(** No id exceeds the quota when the ids are pairwise different. *)
Lemma Path_upper ids n st res x :
  NoDup ids →
  Path ids n st res →
  (∀ y, getCount (counts st) y ≤ NEED) →
  getCount (counts st) x + occ x res ≤ NEED.
Proof.
  intros Hnd HP. induction HP as [st|n st a b res Hab Ha Hb Hu Hf HP IH];
    intros Hle.
  - specialize (Hle x). simpl. lia.
  - assert (a ≠ b) as Hne by by eapply pair_submseteq_ne.
    simpl. rewrite getCount_choose in IH.
    assert (getCount (counts st) x + (if bool_decide (x = a) then 1 else 0)
            + (if bool_decide (x = b) then 1 else 0) + occ x res ≤ NEED);
      [|lia].
    apply IH. intros y. rewrite getCount_choose.
    specialize (Hle y).
    repeat case_bool_decide; simplify_eq; lia.
Qed.

Lemma newMap_lookup_zero (l : list string) (m : gmap string Z) x :
  foldl (λ m kv, <[kv.1 := kv.2]> m) m ((λ id, (id, 0)) <$> l) !! x
  = if bool_decide (x ∈ l) then Some 0 else m !! x.
Proof.
  revert m. induction l as [|y l IH]; intros m; simpl; [done|].
  rewrite IH. simpl. rewrite lookup_insert.
  repeat case_bool_decide; try case_decide; set_solver.
Qed.

Lemma getCount_initSearch ids x : getCount (counts (initSearch ids)) x = 0.
Proof.
  unfold initSearch, newMap, getCount. simpl.
  rewrite newMap_lookup_zero. by case_bool_decide.
Qed.

Lemma keysOK_initSearch ids : keysOK ids (initSearch ids).
Proof.
  intros x Hx. unfold initSearch, newMap. simpl.
  rewrite newMap_lookup_zero, bool_decide_eq_true_2 by done. eauto.
Qed.

(** What [buildBalancedDmOpponents] returns for ten ids. *)
Lemma buildBalancedDmOpponents_Path localeCompare ids res :
  buildBalancedDmOpponents localeCompare ids = Ok res →
  Path ids 15 (initSearch ids) res.
Proof.
  unfold buildBalancedDmOpponents.
  pose proof (backtrack_sound localeCompare ids 15 (initSearch ids)
                (keysOK_initSearch ids)) as H.
  destruct (backtrack localeCompare ids 15 (initSearch ids)) as [[r|] st'];
    [|done].
  by intros [= ->].
Qed.

Lemma buildBalancedDmOpponents_balanced localeCompare ids res :
  NoDup ids → length ids = 10%nat →
  buildBalancedDmOpponents localeCompare ids = Ok res →
  length res = 15%nat
  ∧ Forall (λ p, p.1 ∈ ids ∧ p.2 ∈ ids ∧ p.1 ≠ p.2) res
  ∧ ∀ x, x ∈ ids → occ x res = 3.
Proof.
  intros Hnd Hlen HP%buildBalancedDmOpponents_Path.
  split; [by eapply Path_length|]. split.
  - eapply Forall_impl; [by eapply Path_pairs|].
    intros [a b] Hab. simpl in *. split_and!.
    + eapply elem_of_submseteq; [|exact Hab]. set_solver.
    + eapply elem_of_submseteq; [|exact Hab]. set_solver.
    + by eapply pair_submseteq_ne.
  - intros x Hx.
    pose proof (Path_lower ids 15 _ res x HP) as Hlo.
    pose proof (Path_upper ids 15 _ res x Hnd HP) as Hup.
    rewrite getCount_initSearch in Hlo, Hup. unfold NEED in *.
    assert (3 ≤ 0 + occ x res).
    { apply Hlo; [|done]. rewrite needTotal_zero_counts
        by (intros; apply getCount_initSearch).
      rewrite Hlen. unfold NEED. lia. }
    assert (0 + occ x res ≤ 3).
    { apply Hup. intros y. rewrite getCount_initSearch. lia. }
    lia.
Qed.

(** ** The validation of a round *)

Lemma size_list_to_set_le (l : list string) :
  (size (list_to_set (C := gset string) l) ≤ length l)%nat.
Proof.
  induction l as [|x l IH]; simpl; [done|].
  rewrite size_union_alt, size_singleton.
  assert (list_to_set (C := gset string) l ∖ {[x]} ⊆ list_to_set l) as Hsub
    by set_solver.
  apply subseteq_size in Hsub. lia.
Qed.

Lemma size_list_to_set_NoDup (l : list string) :
  size (list_to_set (C := gset string) l) = length l ↔ NoDup l.
Proof.
  split; [|apply size_list_to_set].
  induction l as [|x l IH]; simpl; [constructor|]. intros Hs.
  pose proof (size_list_to_set_le l) as Hle.
  destruct (decide (x ∈ l)) as [Hx|Hx].
  - exfalso.
    assert ({[x]} ∪ list_to_set l = list_to_set (C := gset string) l) as Heq
      by set_solver.
    rewrite Heq in Hs. lia.
  - constructor; [done|]. apply IH.
    rewrite size_union, size_singleton in Hs by set_solver. lia.
Qed.

Lemma seenLoop_Some ids seen seen' :
  seenLoop ids seen = Some seen'
  ↔ NoDup ids ∧ (∀ x, x ∈ ids → x ∉ seen) ∧ seen' = list_to_set ids ∪ seen.
Proof.
  revert seen. induction ids as [|x ids IH]; intros seen; simpl.
  - split.
    + intros [= ->]. split; [constructor|]. set_solver.
    + intros (_ & _ & ->). f_equal. set_solver.
  - case_bool_decide as Hx.
    + split; [done|]. intros (_ & H & _). exfalso. eapply H; [|done]. set_solver.
    + rewrite IH, NoDup_cons. split.
      * intros (Hnd & Hni & ->). split; [|set_solver].
        split; [|done]. intros Hin. apply (Hni x Hin). set_solver.
      * intros ([Hx' Hnd] & Hni & ->). split; [done|]. set_solver.
Qed.

Lemma seenLoop_app l1 l2 seen :
  seenLoop (l1 ++ l2) seen = seenLoop l1 seen ≫= seenLoop l2.
Proof.
  revert seen. induction l1 as [|x l1 IH]; intros seen; simpl; [done|].
  by case_bool_decide.
Qed.

Lemma validateLoop_Some ms seen seen' :
  validateLoop ms seen = Some seen'
  ↔ Forall (λ m, NoDup (matchIds m)) ms
    ∧ seenLoop (mjoin (matchIds <$> ms)) seen = Some seen'.
Proof.
  revert seen. induction ms as [|m ms IH]; intros seen.
  - simpl. split; [by intros ->|by intros [_ ->]].
  - cbn [validateLoop fmap list_fmap mjoin list_join].
    rewrite seenLoop_app, Forall_cons.
    assert (length (matchIds m) = 4%nat) as Hlen by done.
    case_bool_decide as Hsz.
    + split; [done|]. intros [[Hnd _] _].
      apply size_list_to_set_NoDup in Hnd. congruence.
    + assert (NoDup (matchIds m)) as Hnd.
      { apply size_list_to_set_NoDup. congruence. }
      destruct (seenLoop (matchIds m) seen) as [s1|]; simpl.
      * rewrite IH. naive_solver.
      * naive_solver.
Qed.

(** A round passes the validation exactly when its twelve slots hold
    twelve different ids. *)
Lemma roundValid_true ms :
  roundValid ms = true
  ↔ NoDup (mjoin (matchIds <$> ms))
    ∧ length (mjoin (matchIds <$> ms)) = 12%nat.
Proof.
  unfold roundValid.
  destruct (validateLoop ms ∅) as [seen|] eqn:Hv.
  - apply validateLoop_Some in Hv as [HF (Hnd & _ & ->)%seenLoop_Some].
    rewrite bool_decide_eq_true, union_empty_r_L, size_list_to_set by done.
    naive_solver.
  - split; [done|]. intros [Hnd Hlen]. exfalso.
    assert (is_Some (validateLoop ms ∅)) as [? ?]; [|congruence].
    eexists. apply validateLoop_Some. split.
    + clear Hv Hlen. induction ms as [|m ms IH]; [constructor|].
      cbn [fmap list_fmap mjoin list_join] in Hnd.
      apply NoDup_app in Hnd as (? & _ & ?).
      constructor; [done|by apply IH].
    + apply seenLoop_Some. split_and!; [done|set_solver|done].
Qed.

(** ** Building a round *)

Lemma at2_elem pp k i x : at2 pp k i = Some x → x ∈ mjoin pp.
Proof.
  unfold at2. destruct (pp !! k) as [pr|] eqn:Hk; [|done]. simpl.
  intros Hi. apply list_elem_of_join. exists pr.
  split; by eapply list_elem_of_lookup_2.
Qed.

(** The eight ids paired for courts 8 and 9 are the ids of [rem]. *)
Lemma roundPairs_concat (rem : list string) seed :
  let '(pairs, seed1) := pairRemaining rem seed in
  mjoin (shuffle pairs seed1).1 ≡ₚ rem.
Proof.
  unfold pairRemaining.
  pose proof (shuffle_Permutation rem seed) as Harr.
  destruct (shuffle rem seed) as [arr seed1]. simpl in Harr.
  rewrite shuffle_Permutation, pairUp_concat. done.
Qed.

Lemma getId_Ok rn o (x : string) : getId rn o = Ok x → o = Some x.
Proof. destruct o; simpl; congruence. Qed.

Lemma bind_Ok {A B} (m : Result A) (f : A → Result B) (b : B) :
  m ≫= f = Ok b → ∃ a, m = Ok a ∧ f a = Ok b.
Proof. destruct m as [a|e]; [eauto|done]. Qed.

(** A round that is built has the Duo on court 7 against [dmOpp], eight
    other players of [others] on courts 8 and 9, no score, and twelve
    different ids. *)
Lemma buildRound_inv D M others rn dmOpp seed rd seed' :
  buildRound D M others rn dmOpp seed = Ok (rd, seed') →
  ∃ a8 b8 c8 d8 a9 b9 c9 d9,
    rd = mkRound rn
           [ mkMatch 7 (mkTeam D M) (mkTeam dmOpp.1 dmOpp.2) None;
             mkMatch 8 (mkTeam a8 b8) (mkTeam c8 d8) None;
             mkMatch 9 (mkTeam a9 b9) (mkTeam c9 d9) None ]
    ∧ NoDup [D; M; dmOpp.1; dmOpp.2; a8; b8; c8; d8; a9; b9; c9; d9]
    ∧ Forall (λ x, x ∈ others) [a8; b8; c8; d8; a9; b9; c9; d9].
Proof.
  unfold buildRound.
  set (rem := filter _ others).
  pose proof (roundPairs_concat rem seed) as Hperm.
  destruct (pairRemaining rem seed) as [pairs seed1].
  destruct (shuffle pairs seed1) as [pp seed2]. simpl in Hperm.
  intros H.
  repeat (apply bind_Ok in H as (? & ?%getId_Ok%at2_elem & H)).
  destruct (roundValid _) eqn:Hv; [|done]. injection H as <- <-.
  apply roundValid_true in Hv as [Hnd _].
  eexists _, _, _, _, _, _, _, _. split; [reflexivity|]. split; [exact Hnd|].
  assert (∀ y, y ∈ mjoin pp → y ∈ others) as Hin.
  { intros y. rewrite Hperm. unfold rem.
    intros [_ ?]%list_elem_of_filter. done. }
  repeat constructor; by apply Hin.
Qed.

Lemma filter_all {A} (P : A → Prop) `{!∀ x, Decision (P x)} (l : list A) :
  Forall P l → filter P l = l.
Proof.
  induction 1 as [|x l Hx Hl IH]; [done|].
  by rewrite filter_cons_True, IH.
Qed.

Lemma filter_used_rem (D M a b : string) (others k : list string) :
  others ≡ₚ a :: b :: k →
  NoDup others → D ∉ others → M ∉ others →
  filter (λ id, id ∉ (list_to_set [D; M; a; b] : gset string)) others ≡ₚ k.
Proof.
  intros Hperm Hnd HD HM. rewrite Hperm in Hnd, HD, HM |- *.
  apply NoDup_cons in Hnd as [Ha Hnd].
  apply NoDup_cons in Hnd as [Hb Hnd].
  rewrite filter_cons_False by set_solver.
  rewrite filter_cons_False by set_solver.
  rewrite filter_all; [done|].
  apply Forall_forall. intros x Hx. set_solver.
Qed.

(** With ten different ids other than the Duo's, every read of the round
    construction is inside its array: the round is built from eight ids
    that are the other ids without [dmOpp], and only the validation
    decides. *)
Lemma buildRound_reads D M others rn dmOpp seed :
  NoDup others → D ∉ others → M ∉ others →
  length others = 10%nat →
  [dmOpp.1; dmOpp.2] ⊆+ others →
  ∃ a8 b8 c8 d8 a9 b9 c9 d9 seed',
    others ≡ₚ [dmOpp.1; dmOpp.2; a8; b8; c8; d8; a9; b9; c9; d9]
    ∧ buildRound D M others rn dmOpp seed =
        let matches :=
          [ mkMatch 7 (mkTeam D M) (mkTeam dmOpp.1 dmOpp.2) None;
            mkMatch 8 (mkTeam a8 b8) (mkTeam c8 d8) None;
            mkMatch 9 (mkTeam a9 b9) (mkTeam c9 d9) None ] in
        if roundValid matches then Ok (mkRound rn matches, seed')
        else Throw (ErrRound rn).
Proof.
  intros Hnd HD HM Hlen Hsub. destruct dmOpp as [a b]. simpl in Hsub.
  apply submseteq_Permutation in Hsub as [k Hk]. simpl in Hk.
  pose proof (filter_used_rem D M a b others k Hk Hnd HD HM) as Hrem.
  assert (length k = 8%nat) as Hk8.
  { apply Permutation_length in Hk. simpl in Hk. lia. }
  unfold buildRound. simpl.
  set (rem := filter _ others) in *.
  pose proof (roundPairs_concat rem seed) as Hperm.
  unfold pairRemaining in *.
  pose proof (shuffle_Permutation rem seed) as Harr.
  destruct (shuffle rem seed) as [arr seed1]. simpl in Harr.
  destruct (pairUp_eight arr) as (x1 & x2 & x3 & x4 & x5 & x6 & x7 & x8
                                   & -> & Hpairs).
  { by rewrite Harr, Hrem. }
  rewrite Hpairs in *.
  pose proof (shuffle_Permutation
                [[x1; x2]; [x3; x4]; [x5; x6]; [x7; x8]] seed1) as Hpp.
  destruct (shuffle _ seed1) as [pp seed2]. simpl in Hpp, Hperm.
  assert (Forall (λ pr, length pr = 2%nat) pp) as Hlen2.
  { rewrite Hpp. repeat constructor. }
  pose proof (Permutation_length Hpp) as Hlen4. simpl in Hlen4.
  destruct pp as [|[|a8 [|b8 [|]]] [|[|c8 [|d8 [|]]] [|[|a9 [|b9 [|]]]
    [|[|c9 [|d9 [|]]] [|]]]]];
    simpl in Hlen4; try lia;
    repeat match goal with
           | H : Forall _ (_ :: _) |- _ =>
               apply Forall_cons in H as [? H]
           end; simpl in *; try lia.
  exists a8, b8, c8, d8, a9, b9, c9, d9, seed2. split; [|done].
  rewrite Hk, <- Hrem, <- Hperm. done.
Qed.

(** With twelve different ids, a round is always built. *)
Lemma buildRound_Ok D M others rn dmOpp seed :
  NoDup (D :: M :: others) →
  length others = 10%nat →
  [dmOpp.1; dmOpp.2] ⊆+ others →
  ∃ rd seed', buildRound D M others rn dmOpp seed = Ok (rd, seed').
Proof.
  intros Hnd Hlen Hsub.
  pose proof Hnd as [HD [HM Hndo]%NoDup_cons]%NoDup_cons.
  destruct (buildRound_reads D M others rn dmOpp seed)
    as (a8 & b8 & c8 & d8 & a9 & b9 & c9 & d9 & seed' & Hperm & ->);
    try done; [set_solver|].
  cbn zeta.
  assert (roundValid
    [ mkMatch 7 (mkTeam D M) (mkTeam dmOpp.1 dmOpp.2) None;
      mkMatch 8 (mkTeam a8 b8) (mkTeam c8 d8) None;
      mkMatch 9 (mkTeam a9 b9) (mkTeam c9 d9) None ] = true) as ->.
  { apply roundValid_true. split; [|done].
    cbn [fmap list_fmap mjoin list_join matchIds team1 team2 t_a t_b app].
    by rewrite <- Hperm. }
  eauto.
Qed.

Lemma buildRound_defined D M others rn dmOpp seed r :
  NoDup others → D ∉ others → M ∉ others →
  length others = 10%nat →
  [dmOpp.1; dmOpp.2] ⊆+ others →
  buildRound D M others rn dmOpp seed ≠ Throw (ErrUndefined r).
Proof.
  intros Hnd HD HM Hlen Hsub.
  destruct (buildRound_reads D M others rn dmOpp seed)
    as (a8 & b8 & c8 & d8 & a9 & b9 & c9 & d9 & seed' & _ & ->);
    try done.
  cbn zeta. by case_match.
Qed.

(** ** The loop over the rounds *)

Lemma buildRound_built D M others rn dmOpp seed rd seed' :
  buildRound D M others rn dmOpp seed = Ok (rd, seed') →
  round rd = rn ∧ builtRound D M others dmOpp rd.
Proof.
  intros (a8 & b8 & c8 & d8 & a9 & b9 & c9 & d9 & -> & Hnd & Hin)
    %buildRound_inv.
  split; [done|]. by exists a8, b8, c8, d8, a9, b9, c9, d9.
Qed.

Lemma roundsLoop_inv D M others rn dmOppPairs seed rds :
  roundsLoop D M others rn dmOppPairs seed = Ok rds →
  Forall2 (builtRound D M others) dmOppPairs rds
  ∧ round <$> rds = seqZ rn (Z.of_nat (length dmOppPairs)).
Proof.
  revert rn seed rds.
  induction dmOppPairs as [|dmOpp rest IH]; intros rn seed rds;
    cbn [roundsLoop length].
  - intros [= <-]. split; [constructor|done].
  - intros ([rd seed1] & [Hrn Hrd]%buildRound_built & H)%bind_Ok.
    apply bind_Ok in H as (rds' & [HF Hnum]%IH & [= <-]).
    split; [by constructor|].
    rewrite fmap_cons, Hrn, Hnum, Nat2Z.inj_succ.
    rewrite (seqZ_cons rn) by lia. f_equal. f_equal; lia.
Qed.

Lemma roundsLoop_Ok D M others rn dmOppPairs seed :
  NoDup (D :: M :: others) →
  length others = 10%nat →
  Forall (λ p, [p.1; p.2] ⊆+ others) dmOppPairs →
  ∃ rds, roundsLoop D M others rn dmOppPairs seed = Ok rds.
Proof.
  intros Hnd Hlen HF. revert rn seed.
  induction HF as [|dmOpp rest Hp HF IH]; intros rn seed; simpl; [eauto|].
  destruct (buildRound_Ok D M others rn dmOpp seed Hnd Hlen Hp)
    as (rd & seed1 & ->). simpl.
  destruct (IH (rn + 1) seed1) as [rds ->]. simpl. eauto.
Qed.

(** ** [generateSchedule] *)

Lemma generateSchedule_inv localeCompare players seed schedule :
  generateSchedule localeCompare players seed = Ok schedule →
  ∃ D M res,
    length players = 12%nat
    ∧ duoIds players = [D; M]
    ∧ length (otherIds D M players) = 10%nat
    ∧ buildBalancedDmOpponents localeCompare (otherIds D M players) = Ok res
    ∧ roundsLoop D M (otherIds D M players) 1 res seed = Ok schedule.
Proof.
  unfold generateSchedule. case_bool_decide as Hlen; [done|].
  destruct (duoIds players) as [|D [|M [|]]]; try done.
  case_bool_decide as Hoth; [done|].
  intros (res & Hres & Hrounds)%bind_Ok.
  exists D, M, res. split_and!; try done; lia.
Qed.

Lemma duoIds_subset players : duoIds players ⊆ p_id <$> players.
Proof.
  unfold duoIds. intros x (p & -> & [_ Hp]%list_elem_of_filter)%list_elem_of_fmap.
  by apply list_elem_of_fmap_2.
Qed.

Lemma otherIds_sublist D M players :
  otherIds D M players `sublist_of` p_id <$> players.
Proof. unfold otherIds. apply fmap_sublist, sublist_filter. Qed.

Lemma otherIds_not_duo D M players x :
  x ∈ otherIds D M players → x ≠ D ∧ x ≠ M.
Proof.
  unfold otherIds.
  by intros (p & -> & [Hp _]%list_elem_of_filter)%list_elem_of_fmap.
Qed.

(** What a generated schedule consists of. *)
Lemma generateSchedule_structure localeCompare players seed schedule :
  generateSchedule localeCompare players seed = Ok schedule →
  ∃ D M res,
    length players = 12%nat
    ∧ duoIds players = [D; M]
    ∧ length (otherIds D M players) = 10%nat
    ∧ Path (otherIds D M players) 15 (initSearch (otherIds D M players)) res
    ∧ buildBalancedDmOpponents localeCompare (otherIds D M players) = Ok res
    ∧ Forall2 (builtRound D M (otherIds D M players)) res schedule
    ∧ round <$> schedule = seqZ 1 15
    ∧ length schedule = 15%nat.
Proof.
  intros (D & M & res & Hlen & Hduo & Hoth & Hres & Hrounds)
    %generateSchedule_inv.
  pose proof (buildBalancedDmOpponents_Path _ _ _ Hres) as HP.
  pose proof (Path_length _ _ _ _ HP) as Hl15.
  apply roundsLoop_inv in Hrounds as [HF Hnum]. rewrite Hl15 in Hnum.
  exists D, M, res. split_and!; try done.
  by rewrite <- (Forall2_length _ _ _ HF).
Qed.

Lemma builtRound_roundIds D M others dmOpp rd :
  builtRound D M others dmOpp rd →
  NoDup (roundIds rd) ∧ length (roundIds rd) = 12%nat
  ∧ ∀ x, x ∈ roundIds rd → x ∈ [D; M; dmOpp.1; dmOpp.2] ∨ x ∈ others.
Proof.
  intros (a8 & b8 & c8 & d8 & a9 & b9 & c9 & d9 & Hm & Hnd & Hin).
  unfold roundIds. rewrite Hm.
  cbn [fmap list_fmap mjoin list_join matchIds team1 team2 t_a t_b app].
  split; [done|]. split; [done|].
  rewrite Forall_forall in Hin. intros x Hx.
  rewrite !elem_of_cons in Hx. rewrite !elem_of_cons.
  destruct Hx as [->|[->|[->|[->|Hx]]]]; auto 10.
  right. apply Hin. by rewrite !elem_of_cons.
Qed.

(** The ids of a generated round are the ids of the players. *)
Lemma generateSchedule_round_ids localeCompare players seed schedule rd :
  generateSchedule localeCompare players seed = Ok schedule →
  rd ∈ schedule →
  NoDup (roundIds rd) ∧ roundIds rd ≡ₚ p_id <$> players.
Proof.
  intros (D & M & res & Hlen & Hduo & Hoth & HP & _ & HF & _)
    %generateSchedule_structure Hrd.
  apply list_elem_of_lookup in Hrd as [i Hi].
  destruct (Forall2_lookup_r _ _ _ _ _ HF Hi) as (dmOpp & Hopp & Hb).
  pose proof (Path_pairs _ _ _ _ HP) as Hpairs.
  rewrite Forall_forall in Hpairs.
  assert ([dmOpp.1; dmOpp.2] ⊆+ otherIds D M players) as Hsub
    by (apply Hpairs; by eapply list_elem_of_lookup_2).
  apply builtRound_roundIds in Hb as (Hnd & Hl12 & Hin).
  split; [done|].
  apply submseteq_length_Permutation; [|by rewrite length_fmap, Hlen, Hl12].
  apply NoDup_submseteq; [done|]. intros x Hx.
  assert (∀ y, y ∈ otherIds D M players → y ∈ p_id <$> players) as Hoin.
  { intros y Hy. eapply elem_of_sublist; [done|apply otherIds_sublist]. }
  destruct (Hin x Hx) as [Hd|Ho]; [|by apply Hoin].
  rewrite !elem_of_cons in Hd.
  destruct Hd as [->|[->|[->|[->|Hd]]]].
  - apply duoIds_subset. rewrite Hduo. set_solver.
  - apply duoIds_subset. rewrite Hduo. set_solver.
  - apply Hoin. eapply elem_of_submseteq; [|exact Hsub]. set_solver.
  - apply Hoin. eapply elem_of_submseteq; [|exact Hsub]. set_solver.
  - set_solver.
Qed.

(** A successful generation shows that the ids are pairwise different. *)
Lemma generateSchedule_NoDup_ids localeCompare players seed schedule :
  generateSchedule localeCompare players seed = Ok schedule →
  NoDup (p_id <$> players).
Proof.
  intros H.
  pose proof (generateSchedule_structure _ _ _ _ H)
    as (D & M & res & _ & _ & _ & _ & _ & _ & _ & Hl15).
  destruct schedule as [|rd schedule]; [done|].
  destruct (generateSchedule_round_ids _ _ _ _ rd H) as [Hnd Hperm];
    [set_solver|].
  by rewrite <- Hperm.
Qed.

(** ** Coverage and distinctness *)

(** C2.  In every round of a generated schedule there are three
    matches, the four ids of each match are pairwise different, and the
    twelve ids of the round are the ids of the twelve input players, each
    exactly once. *)
Theorem generateSchedule_coverage
    (localeCompare : string → string → Z)
    (players : list Player) (seed : Z) (schedule : list Round) :
  generateSchedule localeCompare players seed = Ok schedule →
  length players = 12%nat
  ∧ ∀ rd, rd ∈ schedule →
      length (matches rd) = 3%nat
      ∧ (∀ m, m ∈ matches rd → NoDup (matchIds m))
      ∧ NoDup (roundIds rd)
      ∧ roundIds rd ≡ₚ p_id <$> players.
Proof.
  intros Hgen.
  pose proof (generateSchedule_structure _ _ _ _ Hgen)
    as (D & M & res & Hlen & _ & _ & _ & _ & HF & _ & _).
  split; [done|]. intros rd Hrd.
  destruct (generateSchedule_round_ids _ _ _ _ rd Hgen Hrd) as [Hnd Hperm].
  split_and!; try done.
  - apply list_elem_of_lookup in Hrd as [i Hi].
    destruct (Forall2_lookup_r _ _ _ _ _ HF Hi)
      as (dmOpp & _ & (? & ? & ? & ? & ? & ? & ? & ? & -> & _)).
    done.
  - intros m Hm. unfold roundIds in Hnd.
    apply list_elem_of_split in Hm as (l1 & l2 & Heq).
    rewrite Heq, fmap_app, fmap_cons, join_app in Hnd.
    apply NoDup_app in Hnd as (_ & _ & Hnd).
    cbn [mjoin list_join] in Hnd.
    by apply NoDup_app in Hnd as (? & _ & _).
Qed.

(** ** The Duo and its opponents *)

Lemma builtRound_court7 D M others dmOpp rd :
  builtRound D M others dmOpp rd →
  court7 rd = [mkMatch 7 (mkTeam D M) (mkTeam dmOpp.1 dmOpp.2) None]
  ∧ duoOpponents rd = [dmOpp.1; dmOpp.2]
  ∧ dmOpp.1 ≠ dmOpp.2.
Proof.
  intros (a8 & b8 & c8 & d8 & a9 & b9 & c9 & d9 & Hm & Hnd & _).
  unfold duoOpponents, court7. rewrite Hm. split_and!; [done..|].
  intros Heq. rewrite Heq in Hnd.
  do 2 apply NoDup_cons in Hnd as [_ Hnd].
  apply NoDup_cons in Hnd as [Hn _]. set_solver.
Qed.

Lemma timesVsDuo_occ D M others res schedule x :
  Forall2 (builtRound D M others) res schedule →
  Z.of_nat (timesVsDuo x schedule) = occ x res.
Proof.
  unfold timesVsDuo.
  induction 1 as [|[a b] rd res schedule Hrd HF IH]; [done|].
  apply builtRound_court7 in Hrd as (_ & Hopp & Hne). simpl in *.
  rewrite filter_cons, Hopp. rewrite <- IH.
  case_decide as Hx; rewrite !elem_of_cons in Hx;
    repeat case_bool_decide; simplify_eq; simpl length; try lia.
  - destruct Hx as [|[|Hx]]; [done..|set_solver].
  - exfalso. apply Hx. auto.
  - exfalso. apply Hx. auto.
Qed.

Lemma generateSchedule_court7 localeCompare players seed schedule D M :
  generateSchedule localeCompare players seed = Ok schedule →
  duoIds players = [D; M] →
  ∀ rd, rd ∈ schedule → ∃ m, court7 rd = [m] ∧ team1 m = mkTeam D M.
Proof.
  intros (D' & M' & res & _ & Hduo' & _ & _ & _ & HF & _)
    %generateSchedule_structure Hduo rd Hrd.
  assert (D' = D ∧ M' = M) as [-> ->] by (split; congruence).
  apply list_elem_of_lookup in Hrd as [i Hi].
  destruct (Forall2_lookup_r _ _ _ _ _ HF Hi) as (dmOpp & _ & Hb).
  apply builtRound_court7 in Hb as (-> & _ & _). eauto.
Qed.

(** C1.  In a generated schedule of 15 rounds, every round has exactly
    one match on court 7, its first team is the Duo, and each of the ten
    non-Duo players is a member of the opposing team of that match in
    exactly 3 of the 15 rounds. *)
Theorem generateSchedule_duo_balance
    (localeCompare : string → string → Z)
    (players : list Player) (seed : Z) (schedule : list Round) :
  generateSchedule localeCompare players seed = Ok schedule →
  ∃ D M,
    duoIds players = [D; M]
    ∧ length schedule = 15%nat
    ∧ (∀ rd, rd ∈ schedule →
         ∃ m, court7 rd = [m] ∧ team1 m = mkTeam D M)
    ∧ NoDup (otherIds D M players)
    ∧ length (otherIds D M players) = 10%nat
    ∧ ∀ x, x ∈ otherIds D M players → timesVsDuo x schedule = 3%nat.
Proof.
  intros Hgen.
  pose proof (generateSchedule_NoDup_ids _ _ _ _ Hgen) as Hnd.
  pose proof (generateSchedule_structure _ _ _ _ Hgen)
    as (D & M & res & Hlen & Hduo & Hoth & _ & Hres & HF & _ & Hl15).
  assert (NoDup (otherIds D M players)) as Hndo
    by (eapply sublist_NoDup; [exact Hnd|apply otherIds_sublist]).
  exists D, M. split_and!; try done.
  - by eapply generateSchedule_court7.
  - intros x Hx.
    destruct (buildBalancedDmOpponents_balanced _ _ _ Hndo Hoth Hres)
      as (_ & _ & Hocc).
    pose proof (timesVsDuo_occ _ _ _ _ _ x HF) as Ht.
    rewrite (Hocc x Hx) in Ht. lia.
Qed.

(** ** When the generator fails *)

Lemma builtRound_complete D M others dmOpp rd :
  builtRound D M others dmOpp rd →
  court <$> matches rd = [7; 8; 9]
  ∧ Forall (λ m, score m = None) (matches rd).
Proof.
  intros (a8 & b8 & c8 & d8 & a9 & b9 & c9 & d9 & -> & _).
  split; [done|]. repeat constructor.
Qed.

Lemma generateSchedule_complete localeCompare players seed schedule :
  generateSchedule localeCompare players seed = Ok schedule →
  completeSchedule schedule.
Proof.
  intros (D & M & res & _ & _ & _ & _ & _ & HF & Hnum & _)
    %generateSchedule_structure.
  split; [done|]. apply Forall_forall. intros rd Hrd.
  apply list_elem_of_lookup in Hrd as [i Hi].
  destruct (Forall2_lookup_r _ _ _ _ _ HF Hi) as (dmOpp & _ & Hb).
  by eapply builtRound_complete.
Qed.

(** With pairwise different ids, the two Duo ids and the other ids are
    pairwise different. *)
Lemma NoDup_duo_others players D M :
  NoDup (p_id <$> players) →
  duoIds players = [D; M] →
  NoDup (D :: M :: otherIds D M players).
Proof.
  intros Hnd Hduo.
  assert (NoDup [D; M]) as Hdm.
  { rewrite <- Hduo. unfold duoIds.
    eapply sublist_NoDup; [exact Hnd|]. apply fmap_sublist, sublist_filter. }
  assert (NoDup (otherIds D M players)) as Hoth
    by (eapply sublist_NoDup; [exact Hnd|apply otherIds_sublist]).
  apply NoDup_cons in Hdm as [HD _].
  repeat constructor; try done.
  - rewrite elem_of_cons. intros [->|[? _]%otherIds_not_duo]; [set_solver|done].
  - intros [_ ?]%otherIds_not_duo. done.
Qed.

(** With pairwise different ids, the rounds are always built once the
    search has succeeded: neither the validation of a round nor a read
    outside an array stops the generation. *)
Lemma generateSchedule_rounds_Ok localeCompare players seed D M res :
  NoDup (p_id <$> players) →
  duoIds players = [D; M] →
  length (otherIds D M players) = 10%nat →
  buildBalancedDmOpponents localeCompare (otherIds D M players) = Ok res →
  ∃ schedule,
    roundsLoop D M (otherIds D M players) 1 res seed = Ok schedule.
Proof.
  intros Hnd Hduo Hoth Hres.
  apply roundsLoop_Ok; [by apply NoDup_duo_others|done|].
  eapply Path_pairs. by apply buildBalancedDmOpponents_Path in Hres.
Qed.

Lemma length_duoIds players :
  length (duoIds players)
  = length (filter (λ p, isDuoName (p_name p)) players).
Proof. unfold duoIds. by rewrite length_fmap. Qed.

Lemma buildBalancedDmOpponents_cases localeCompare ids :
  (∃ res, buildBalancedDmOpponents localeCompare ids = Ok res
          ∧ (backtrack localeCompare ids 15 (initSearch ids)).1 = Some res)
  ∨ (buildBalancedDmOpponents localeCompare ids = Throw ErrBalance
     ∧ (backtrack localeCompare ids 15 (initSearch ids)).1 = None).
Proof.
  unfold buildBalancedDmOpponents.
  destruct (backtrack _ _ 15 _) as [[res|] st']; eauto.
Qed.

(** With pairwise different ids there are two cases: one of the four
    conditions holds and a descriptive error is thrown, or none holds and
    a schedule is returned. *)
Lemma generateSchedule_cases localeCompare players seed :
  NoDup (p_id <$> players) →
  generationFails localeCompare players
  ∧ (∃ e, generateSchedule localeCompare players seed = Throw e
          ∧ e ∈ [ErrPlayers; ErrDuo; ErrOthers; ErrBalance])
  ∨ ¬ generationFails localeCompare players
    ∧ ∃ schedule,
        generateSchedule localeCompare players seed = Ok schedule.
Proof.
  intros Hnd.
  unfold generationFails, searchFails, generateSchedule.
  rewrite <- length_duoIds.
  case_bool_decide as Hlen.
  { left. split; [auto|]. eexists. split; [done|set_solver]. }
  destruct (duoIds players) as [|D [|M [|]]] eqn:Hduo;
    try (left; split; [auto|]; eexists; split; [done|set_solver]).
  case_bool_decide as Hoth.
  { left. split; [right; right; left; eauto|].
    eexists. split; [done|set_solver]. }
  destruct (buildBalancedDmOpponents_cases localeCompare
              (otherIds D M players)) as [(res & Hres & Hbt)|[Hres Hbt]];
    rewrite Hres.
  - right. split.
    + intros [?|[?|[(D' & M' & [= <- <-] & ?)|(D' & M' & [= <- <-] & Hn)]]];
        try done. rewrite Hbt in Hn. done.
    + destruct (generateSchedule_rounds_Ok localeCompare players seed
                  D M res Hnd Hduo) as [schedule Hs]; [lia|done|].
      exists schedule. exact Hs.
  - left. split.
    + right; right; right. by exists D, M.
    + eexists. split; [reflexivity|set_solver].
Qed.

(** ** Completeness of the search *)

Lemma pairKey_comm a b : pairKey a b = pairKey b a.
Proof.
  unfold pairKey, String.ltb.
  rewrite (String.compare_antisym b a).
  destruct (String.compare a b) eqn:Hc; simpl; try done.
  by apply String.compare_eq_iff in Hc as ->.
Qed.

Lemma choose_comm a b st : choose a b st = choose b a st.
Proof.
  unfold choose. rewrite (pairKey_comm a b). f_equal.
  destruct (decide (a = b)) as [->|Hne]; [done|].
  apply map_eq. intros x. rewrite !lookup_insert, !getCount_insert.
  repeat case_decide; simplify_eq; done.
Qed.

Lemma pair_submseteq_sublist (a b : string) (l : list string) :
  [a; b] ⊆+ l → [a; b] `sublist_of` l ∨ [b; a] `sublist_of` l.
Proof.
  induction l as [|y k IH]; intros Hsub.
  - by apply submseteq_nil_r in Hsub.
  - apply submseteq_cons_r in Hsub as [Hsub|(l' & Hperm & Hsub)].
    + destruct (IH Hsub); [left|right]; by apply sublist_cons.
    + assert (length l' = 1%nat) as Hlen.
      { apply Permutation_length in Hperm. simpl in Hperm. lia. }
      destruct l' as [|z [|]]; try done.
      assert (z ∈ k) as Hz.
      { eapply elem_of_submseteq; [|exact Hsub]. set_solver. }
      apply singleton_sublist_l in Hz.
      assert ((a = y ∧ b = z) ∨ (a = z ∧ b = y)) as [[-> ->]|[-> ->]].
      { assert (a ∈ [y; z]) as Ha by (rewrite <- Hperm; set_solver).
        assert (b ∈ [y; z]) as Hb by (rewrite <- Hperm; set_solver).
        assert (y ∈ [a; b]) as Hy by (rewrite Hperm; set_solver).
        assert (z ∈ [a; b]) as Hz' by (rewrite Hperm; set_solver).
        rewrite !elem_of_cons in Ha, Hb, Hy, Hz'.
        destruct (decide (a = y)) as [->|Hay].
        - left. split; [done|].
          apply Permutation_cons_inv in Hperm.
          by apply Permutation_singleton_l in Hperm as [= ->].
        - right. set_solver. }
      * left. by apply sublist_skip.
      * right. by apply sublist_skip.
Qed.

Lemma goodChoice_comm ids n st a b :
  goodChoice ids n st a b → goodChoice ids n st b a.
Proof.
  unfold goodChoice. rewrite (pairKey_comm b a), (choose_comm b a).
  naive_solver.
Qed.

Section LoopsComplete.
Variables (ids : list string) (n : nat) (search : Search → SearchResult).
Hypothesis search_ok : searchSpec ids n search.
Hypothesis search_complete :
  ∀ st res, keysOK ids st → Path ids n st res → is_Some (search st).1.

Lemma loopJ_complete a bs st b :
  keysOK ids st →
  (∀ b', b' ∈ bs → [a; b'] ⊆+ ids) →
  b ∈ bs →
  goodChoice ids n st a b →
  is_Some (loopJ ids (Z.of_nat n * 2) search a bs st).1.
Proof.
  intros Hk Hbs Hb Hgood.
  pose proof Hgood as (Ha & _).
  induction bs as [|b0 bs IH]; [by apply elem_of_nil in Hb|].
  assert (∀ b', b' ∈ bs → [a; b'] ⊆+ ids) as Hbs'
    by (intros; apply Hbs; set_solver).
  rewrite loopJ_cons.
  destruct (Z.leb_spec NEED (getCount (counts st) b0)) as [Hb0|Hb0].
  { apply IH; [done|]. apply elem_of_cons in Hb as [->|]; [|done].
    destruct Hgood as (_ & ? & _). lia. }
  case_bool_decide as Hu.
  { apply IH; [done|]. apply elem_of_cons in Hb as [->|]; [|done].
    by destruct Hgood as (_ & _ & ? & _). }
  assert ([a; b0] ⊆+ ids) as Hab by (apply Hbs; set_solver).
  assert (undo a b0 (choose a b0 st) = st) as Hundo.
  { apply undo_choose; [apply Hk|apply Hk|done].
    - eapply elem_of_submseteq; [|exact Hab]. set_solver.
    - eapply elem_of_submseteq; [|exact Hab]. set_solver. }
  destruct (Z.leb_spec (needTotal ids (counts (choose a b0 st)))
                       (Z.of_nat n * 2)) as [Hf|Hf].
  - pose proof (search_ok (choose a b0 st) (keysOK_choose _ _ _ _ Hk)) as Hs.
    destruct (search (choose a b0 st)) as [[res|] st'] eqn:Hsearch;
      [by eexists|].
    subst st'. rewrite Hundo.
    apply IH; [done|]. apply elem_of_cons in Hb as [->|]; [|done].
    destruct Hgood as (_ & _ & _ & _ & res & HP).
    destruct (search_complete _ res (keysOK_choose _ _ _ _ Hk) HP)
      as [? Hsome]. rewrite Hsearch in Hsome. done.
  - rewrite Hundo.
    apply IH; [done|]. apply elem_of_cons in Hb as [->|]; [|done].
    destruct Hgood as (_ & _ & _ & ? & _). lia.
Qed.

Lemma loopI_complete pool st a b :
  keysOK ids st →
  pool ⊆+ ids →
  [a; b] `sublist_of` pool →
  goodChoice ids n st a b →
  is_Some (loopI ids (Z.of_nat n * 2) search pool st).1.
Proof.
  intros Hk Hp Hsub Hgood.
  induction pool as [|a0 rest IH]; [by apply sublist_nil_r in Hsub|].
  assert (rest ⊆+ ids) as Hrest.
  { etrans; [|exact Hp]. by apply submseteq_cons. }
  assert (∀ b', b' ∈ rest → [a0; b'] ⊆+ ids) as Hpairs.
  { intros b' Hb'. etrans; [|exact Hp].
    apply submseteq_skip. by apply singleton_submseteq_l. }
  rewrite loopI_cons.
  apply sublist_cons_r in Hsub as [Hsub|(l' & [= <- <-] & Hsub)].
  - destruct (Z.leb_spec NEED (getCount (counts st) a0)); [by apply IH|].
    pose proof (loopJ_sound ids n search search_ok a0 rest st Hk) as HJ.
    destruct (loopJ ids (Z.of_nat n * 2) search a0 rest st)
      as [[res|] st']; [by eexists|].
    rewrite HJ by done. by apply IH.
  - apply singleton_sublist_l in Hsub.
    pose proof Hgood as (Ha & _).
    destruct (Z.leb_spec NEED (getCount (counts st) a)); [lia|].
    destruct (loopJ_complete a rest st b Hk Hpairs Hsub Hgood)
      as [res Hres].
    destruct (loopJ ids (Z.of_nat n * 2) search a rest st)
      as [[res'|] st']; [by eexists|done].
Qed.
End LoopsComplete.

(** If the remaining slots can be filled at all, [backtrack] fills
    them, whatever order [localeCompare] gives the pool. *)
Lemma backtrack_complete localeCompare ids n st res :
  keysOK ids st → Path ids n st res →
  is_Some (backtrack localeCompare ids n st).1.
Proof.
  revert st res. induction n as [|n IH]; intros st res Hk HP.
  - by eexists.
  - inversion HP as [|n' st' a b res' Hab Ha Hb Hu Hf HP']; subst.
    cbn [backtrack].
    set (pool := arraySort _ ids).
    assert (pool ≡ₚ ids) as Hpool by apply arraySort_Permutation.
    assert (goodChoice ids n st a b) as Hgood by (unfold goodChoice; eauto 10).
    rewrite <- Hpool in Hab.
    destruct (pair_submseteq_sublist a b pool Hab) as [Hsub|Hsub].
    + eapply loopI_complete; eauto using backtrack_sound.
      by rewrite Hpool.
    + eapply loopI_complete; eauto using backtrack_sound, goodChoice_comm.
      by rewrite Hpool.
Qed.

(** Whether the search succeeds does not depend on [localeCompare]. *)
Lemma searchFails_comparator lc1 lc2 players :
  searchFails lc1 players → searchFails lc2 players.
Proof.
  intros (D & M & Hduo & Hnone). exists D, M. split; [done|].
  set (ids := otherIds D M players) in *.
  destruct (backtrack lc2 ids 15 (initSearch ids)) as [[res|] st'] eqn:Hbt;
    [|done].
  exfalso.
  pose proof (backtrack_sound lc2 ids 15 (initSearch ids)
                (keysOK_initSearch ids)) as HP.
  rewrite Hbt in HP.
  destruct (backtrack_complete lc1 ids 15 (initSearch ids) res
              (keysOK_initSearch ids) HP) as [r Hr].
  rewrite Hnone in Hr. done.
Qed.

(** ** The Duo name rule *)

Lemma buildRound_Throw D M others rn dmOpp seed e :
  buildRound D M others rn dmOpp seed = Throw e →
  e = ErrRound rn ∨ e = ErrUndefined rn.
Proof.
  unfold buildRound.
  destruct (pairRemaining _ _) as [prs sd1].
  destruct (shuffle prs sd1) as [pp sd2].
  repeat match goal with
         | |- context [at2 ?pp ?k ?i] =>
             destruct (at2 pp k i); simpl; [|intros [= <-]; by right]
         end.
  case_match; [done|]. intros [= <-]. by left.
Qed.

Lemma roundsLoop_Throw D M others rn dmOppPairs seed e :
  roundsLoop D M others rn dmOppPairs seed = Throw e →
  ∃ r, e = ErrRound r ∨ e = ErrUndefined r.
Proof.
  revert rn seed. induction dmOppPairs as [|p pairs IH]; intros rn seed;
    [done|].
  cbn [roundsLoop].
  destruct (buildRound _ _ _ _ _ _) as [[rd sd']|e'] eqn:Hb; simpl.
  - specialize (IH (rn + 1) sd').
    destruct (roundsLoop _ _ _ _ _ _) as [rds|e'']; [done|].
    simpl. intros [= <-]. by apply IH.
  - intros [= <-]. apply buildRound_Throw in Hb. eauto.
Qed.

Lemma generateSchedule_ErrDuo localeCompare players seed :
  length players = 12%nat →
  generateSchedule localeCompare players seed = Throw ErrDuo
  ↔ length (filter (λ p, isDuoName (p_name p)) players) ≠ 2%nat.
Proof.
  intros Hlen. unfold generateSchedule. rewrite <- length_duoIds.
  rewrite bool_decide_eq_false_2 by (by intros ?).
  destruct (duoIds players) as [|D [|M [|]]]; try done.
  case_bool_decide as Hoth; [done|].
  destruct (buildBalancedDmOpponents_cases localeCompare
              (otherIds D M players)) as [(res & -> & _)|[-> _]];
    [|done].
  split; [|done]. intros Hthrow. exfalso.
  apply roundsLoop_Throw in Hthrow as [r [?|?]]; done.
Qed.

(** C9.  The Duo name rule counts names and does not ask for one Daniel
    and one Macho: for twelve players the generator rejects the names
    exactly when the number of players named "daniel" or "macho" (trimmed,
    lower-cased) is not 2.  The twelve players [twoDaniels], two of them
    named Daniel and none Macho, are accepted for every seed: the two
    Daniels are the Duo, and a schedule of 15 rounds is generated with
    them as the first team on court 7 of every round. *)
Theorem generateSchedule_accepts_two_daniels
    (localeCompare : string → string → Z) (seed : Z) :
  (∀ players sd,
     length players = 12%nat →
     generateSchedule localeCompare players sd = Throw ErrDuo
     ↔ length (filter (λ p, isDuoName (p_name p)) players) ≠ 2%nat)
  ∧ p_name <$> filter (λ p, isDuoName (p_name p)) twoDaniels
    = ["Daniel"; "Daniel"]
  ∧ duoIds twoDaniels = ["p1"; "p2"]
  ∧ ∃ schedule,
      generateSchedule localeCompare twoDaniels seed = Ok schedule
      ∧ length schedule = 15%nat
      ∧ ∀ rd, rd ∈ schedule →
          ∃ m, court7 rd = [m] ∧ team1 m = mkTeam "p1" "p2".
Proof.
  split; [intros players sd; apply generateSchedule_ErrDuo|].
  split; [by vm_compute|]. split; [by vm_compute|].
  assert (NoDup (p_id <$> twoDaniels)) as Hnd.
  { apply (bool_decide_unpack _). by vm_compute. }
  destruct (generateSchedule_cases localeCompare twoDaniels seed Hnd)
    as [[Hfails _]|[_ [schedule Hgen]]].
  - exfalso. destruct Hfails as [Hf|[Hf|[(D & M & Hduo & Hf)|Hf]]].
    + by vm_compute in Hf.
    + by vm_compute in Hf.
    + assert (D = "p1" ∧ M = "p2") as [-> ->]
        by (vm_compute in Hduo; split; congruence).
      by vm_compute in Hf.
    + apply (searchFails_comparator _ codeUnitCompare) in Hf
        as (D & M & Hduo & Hnone).
      assert (D = "p1" ∧ M = "p2") as [-> ->]
        by (vm_compute in Hduo; split; congruence).
      by vm_compute in Hnone.
  - exists schedule. split; [done|]. split.
    + by apply generateSchedule_structure in Hgen
        as (? & ? & ? & _ & _ & _ & _ & _ & _ & _ & ?).
    + eapply generateSchedule_court7; [exact Hgen|]. by vm_compute.
Qed.

(** ** A successful search shows that the ids are pairwise different *)

Lemma mult_cons x y l :
  mult x (y :: l) = (if bool_decide (x = y) then 1 else 0) + mult x l.
Proof.
  unfold mult. rewrite filter_cons.
  case_decide; case_bool_decide; simplify_eq; simpl length; lia.
Qed.

Lemma mult_nonneg x l : 0 ≤ mult x l.
Proof. unfold mult. lia. Qed.

#[local] Instance mult_Permutation x : Proper ((≡ₚ) ==> (=)) (mult x).
Proof. intros l k Hlk. unfold mult. by rewrite Hlk. Qed.

Lemma mult_pair a b ids :
  [a; b] ⊆+ ids →
  1 ≤ mult a ids ∧ 1 ≤ mult b ids ∧ (a = b → 2 ≤ mult a ids).
Proof.
  intros [k ->]%submseteq_Permutation. cbn [app].
  rewrite !mult_cons. pose proof (mult_nonneg a k). pose proof (mult_nonneg b k).
  repeat case_bool_decide; simplify_eq; split_and!; try lia; try done.
Qed.

Lemma sumZ_cons x l : sumZ (x :: l) = x + sumZ l.
Proof. reflexivity. Qed.

Lemma sumZ_le {A} (f g : A → Z) (d : list A) :
  (∀ x, x ∈ d → f x ≤ g x) → sumZ (f <$> d) ≤ sumZ (g <$> d).
Proof.
  induction d as [|x d IH]; intros H; [done|].
  rewrite !fmap_cons, !sumZ_cons.
  specialize (H x) as Hx. specialize (IH (λ y Hy, H y (list_elem_of_further _ _ _ Hy))).
  assert (f x ≤ g x) by (apply Hx; set_solver). lia.
Qed.

Lemma sumZ_plus {A} (f g : A → Z) (d : list A) :
  sumZ ((λ x, f x + g x) <$> d) = sumZ (f <$> d) + sumZ (g <$> d).
Proof.
  induction d as [|x d IH]; [done|].
  rewrite !fmap_cons, !sumZ_cons, IH. lia.
Qed.

Lemma sumZ_const {A} (c : Z) (d : list A) :
  sumZ ((λ _, c) <$> d) = c * Z.of_nat (length d).
Proof.
  induction d as [|x d IH]; [simpl; lia|].
  rewrite fmap_cons, sumZ_cons, IH. simpl length. lia.
Qed.

Lemma sumZ_indicator (y : string) (d : list string) :
  0 ≤ sumZ ((λ x, if bool_decide (x = y) then 1 else 0) <$> d)
  ∧ (y ∈ d → 1 ≤ sumZ ((λ x, if bool_decide (x = y) then 1 else 0) <$> d))
  ∧ (NoDup d → sumZ ((λ x, if bool_decide (x = y) then 1 else 0) <$> d) ≤ 1)
  ∧ (y ∉ d → sumZ ((λ x, if bool_decide (x = y) then 1 else 0) <$> d) = 0).
Proof.
  induction d as [|x d (IH0 & IH1 & IH2 & IH3)]; [by split_and!; try set_solver|].
  rewrite fmap_cons, sumZ_cons. split_and!.
  - case_bool_decide; lia.
  - intros [->|Hy]%elem_of_cons.
    + rewrite bool_decide_eq_true_2 by done. lia.
    + specialize (IH1 Hy). case_bool_decide; lia.
  - intros [Hx Hnd]%NoDup_cons. case_bool_decide as Hxy.
    + subst. rewrite (IH3 Hx). lia.
    + specialize (IH2 Hnd). lia.
  - intros Hy. rewrite bool_decide_eq_false_2 by set_solver.
    rewrite IH3 by set_solver. lia.
Qed.

Lemma sumZ_mult_le (d l : list string) :
  NoDup d → sumZ ((λ x, mult x l) <$> d) ≤ Z.of_nat (length l).
Proof.
  intros Hnd. induction l as [|y l IH].
  - etrans; [apply (sumZ_le _ (λ _, 0)); intros; unfold mult; simpl; lia|].
    rewrite sumZ_const. simpl. lia.
  - erewrite (list_fmap_ext _ (λ x, _ + mult x l)); cycle 1.
    { intros i x _. apply mult_cons. }
    rewrite (sumZ_plus (λ x, if bool_decide (x = y) then 1 else 0)).
    destruct (sumZ_indicator y d) as (_ & _ & H1 & _).
    specialize (H1 Hnd). simpl length. lia.
Qed.

Lemma sumZ_occ_ge (d : list string) (res : list (string * string)) :
  Forall (λ p, p.1 ∈ d ∧ p.2 ∈ d) res →
  2 * Z.of_nat (length res) ≤ sumZ ((λ x, occ x res) <$> d).
Proof.
  induction 1 as [|[a b] res [Ha Hb] _ IH]; simpl in *.
  - etrans; [|apply (sumZ_le (λ _, 0)); intros; lia].
    rewrite sumZ_const. lia.
  - rewrite (sumZ_plus (λ x, (if bool_decide (x = a) then 1 else 0)
                             + (if bool_decide (x = b) then 1 else 0))).
    rewrite (sumZ_plus (λ x, if bool_decide (x = a) then 1 else 0)).
    destruct (sumZ_indicator a d) as (_ & H1 & _).
    destruct (sumZ_indicator b d) as (_ & H2 & _).
    specialize (H1 Ha). specialize (H2 Hb). lia.
Qed.

(** The cap of the inner loop bounds the count of an id by its number
    of positions plus two. *)
Lemma Path_cap ids n st res x :
  Path ids n st res →
  (∀ y, getCount (counts st) y ≤ 2 + mult y ids) →
  getCount (counts st) x + occ x res ≤ 2 + mult x ids.
Proof.
  intros HP. induction HP as [st|n st a b res Hab Ha Hb Hu Hf HP IH];
    intros Hle.
  - specialize (Hle x). simpl. lia.
  - simpl. rewrite getCount_choose in IH.
    assert (getCount (counts st) x + (if bool_decide (x = a) then 1 else 0)
            + (if bool_decide (x = b) then 1 else 0) + occ x res
            ≤ 2 + mult x ids); [|lia].
    apply IH. intros y. rewrite getCount_choose.
    specialize (Hle y). apply mult_pair in Hab as (H1 & H2 & H3).
    unfold NEED in *.
    repeat case_bool_decide; simplify_eq; try lia;
      specialize (H3 eq_refl); lia.
Qed.

Lemma length_remove_dups_le (l : list string) :
  (length (remove_dups l) ≤ length l)%nat.
Proof.
  induction l as [|x l IH]; simpl; [done|]. case_decide; simpl; lia.
Qed.

Lemma length_remove_dups_NoDup (l : list string) :
  length (remove_dups l) = length l → NoDup l.
Proof.
  induction l as [|x l IH]; simpl; [constructor|].
  pose proof (length_remove_dups_le l).
  case_decide; simpl; [lia|]. intros [= Hlen]. constructor; auto.
Qed.

(** Fifteen pairs for ten positions: every position holds a different
    id. *)
Lemma search_success_NoDup ids res :
  length ids = 10%nat →
  Path ids 15 (initSearch ids) res →
  NoDup ids.
Proof.
  intros Hlen HP. apply length_remove_dups_NoDup.
  set (d := remove_dups ids).
  pose proof (length_remove_dups_le ids) as Hle. fold d in Hle.
  assert (NoDup d) as Hnd by apply NoDup_remove_dups.
  assert (2 * 15 ≤ sumZ ((λ x, occ x res) <$> d)) as Hlo.
  { replace 15 with (Z.of_nat (length res))
      by (rewrite (Path_length _ _ _ _ HP); done).
    apply sumZ_occ_ge. eapply Forall_impl; [by eapply Path_pairs|].
    intros [a b] Hab. simpl in *. unfold d.
    rewrite !elem_of_remove_dups. split.
    - eapply elem_of_submseteq; [|exact Hab]. set_solver.
    - eapply elem_of_submseteq; [|exact Hab]. set_solver. }
  assert (sumZ ((λ x, occ x res) <$> d)
          ≤ sumZ ((λ x, 2 + mult x ids) <$> d)) as Hup.
  { apply sumZ_le. intros x _.
    pose proof (Path_cap ids 15 _ res x HP) as Hc.
    rewrite getCount_initSearch in Hc. apply Hc.
    intros y. rewrite getCount_initSearch. pose proof (mult_nonneg y ids). lia. }
  rewrite (sumZ_plus (λ _, 2) (λ x, mult x ids)), sumZ_const in Hup.
  pose proof (sumZ_mult_le d ids Hnd). lia.
Qed.

(** ** No read outside an array *)

Lemma roundsLoop_defined D M others rn dmOppPairs seed r :
  NoDup others → D ∉ others → M ∉ others →
  length others = 10%nat →
  Forall (λ p, [p.1; p.2] ⊆+ others) dmOppPairs →
  roundsLoop D M others rn dmOppPairs seed ≠ Throw (ErrUndefined r).
Proof.
  intros Hnd HD HM Hlen HF. revert rn seed.
  induction HF as [|dmOpp rest Hp HF IH]; intros rn seed; [done|].
  cbn [roundsLoop].
  pose proof (buildRound_defined D M others rn dmOpp seed r
                Hnd HD HM Hlen Hp) as Hb.
  destruct (buildRound _ _ _ _ _ _) as [[rd sd']|e]; simpl.
  - specialize (IH (rn + 1) sd').
    destruct (roundsLoop _ _ _ _ _ _) as [rds|e]; simpl; congruence.
  - congruence.
Qed.

(** The outcome [ErrUndefined] never occurs: whenever the rounds are
    built, the search has succeeded, so the ten other ids are pairwise
    different and every array read of the round construction is defined.
    The embedding therefore loses nothing by keeping ids as strings. *)
Lemma generateSchedule_never_undefined localeCompare players seed r :
  generateSchedule localeCompare players seed ≠ Throw (ErrUndefined r).
Proof.
  unfold generateSchedule. case_bool_decide as Hlen; [done|].
  destruct (duoIds players) as [|D [|M [|]]]; try done.
  case_bool_decide as Hoth; [done|].
  destruct (buildBalancedDmOpponents_cases localeCompare
              (otherIds D M players)) as [(res & Hres & _)|[-> _]];
    [|done].
  rewrite Hres.
  pose proof (buildBalancedDmOpponents_Path _ _ _ Hres) as HP.
  assert (length (otherIds D M players) = 10%nat) as Hl10 by lia.
  apply (roundsLoop_defined D M (otherIds D M players) 1 res seed r).
  - by eapply search_success_NoDup.
  - by intros [? _]%otherIds_not_duo.
  - by intros [_ ?]%otherIds_not_duo.
  - done.
  - by eapply Path_pairs.
Qed.

(** ** The outcomes of the generator for arbitrary ids *)

Lemma roundValid_shared_duo D a b m8 m9 :
  roundValid [mkMatch 7 (mkTeam D D) (mkTeam a b) None; m8; m9] = false.
Proof.
  destruct (roundValid _) eqn:Hv; [|done].
  apply roundValid_true in Hv as [Hnd _].
  cbn [fmap list_fmap mjoin list_join matchIds team1 team2 t_a t_b app]
    in Hnd.
  apply NoDup_cons in Hnd as [Hn _]. set_solver.
Qed.





(** ** Standings ignore matches without a valid score *)

Lemma validScore_clearScore m : validScore (clearScore m) = None.
Proof. reflexivity. Qed.

Lemma statsMatch_invalid idToName rows m :
  validScore m = None → statsMatch idToName rows m = rows.
Proof. intros H. unfold statsMatch. by rewrite H. Qed.

Lemma foldl_alter_same {A B} (g : B → A → B) (f : A → A) (i : nat)
    (l : list A) (acc : B) :
  (∀ x b, l !! i = Some x → g b (f x) = g b x) →
  foldl g acc (alter f i l) = foldl g acc l.
Proof.
  revert i acc. induction l as [|y l IH]; intros [|i] acc H; simpl; try done.
  - by rewrite (H y acc eq_refl).
  - apply IH. intros x b Hx. by apply H.
Qed.

Lemma statsRows_clearScoreAt idToName ri mi schedule r m :
  schedule !! ri = Some r → matches r !! mi = Some m →
  validScore m = None →
  statsRows idToName (clearScoreAt ri mi schedule)
  = statsRows idToName schedule.
Proof.
  intros Hr Hm Hv. unfold statsRows, clearScoreAt.
  apply foldl_alter_same. intros r' rows Hr'. simpl.
  assert (r' = r) as -> by congruence.
  apply foldl_alter_same. intros m' rows' Hm'.
  assert (m' = m) as -> by congruence.
  by rewrite !statsMatch_invalid.
Qed.

(** C4.  A match without a score, or with a score that does not sum to
    24, contributes nothing to the standings: [computeStats] returns the
    same rows (same players, same played, won, tied, lost, points-for and
    points-against counts, in the same order) as on the schedule in which
    that match has no score.  In particular a match scored 10-10 counts
    for nothing. *)
Theorem computeStats_ignores_invalid_score
    (localeCompare : string → string → Z)
    (schedule : list Round) (players : list Player)
    (ri mi : nat) (r : Round) (m : Match) :
  schedule !! ri = Some r →
  matches r !! mi = Some m →
  (score m = None
   ∨ ∃ sc, score m = Some sc ∧ s_team1 sc + s_team2 sc ≠ 24) →
  computeStats localeCompare schedule players
  = computeStats localeCompare (clearScoreAt ri mi schedule) players.
Proof.
  intros Hr Hm Hs. unfold computeStats.
  rewrite (statsRows_clearScoreAt _ ri mi schedule r m); try done.
  unfold validScore. destruct Hs as [->|(sc & -> & Hne)]; [done|].
  by rewrite bool_decide_eq_true_2.
Qed.

(** ** Which players have a row *)

Lemma keepsPlayer_addGame pf pa : keepsPlayer (addGame pf pa).
Proof. by intros r. Qed.
Lemma keepsPlayer_addWon : keepsPlayer addWon.
Proof. by intros r. Qed.
Lemma keepsPlayer_addLost : keepsPlayer addLost.
Proof. by intros r. Qed.
Lemma keepsPlayer_addTied : keepsPlayer addTied.
Proof. by intros r. Qed.

Create HintDb rows discriminated.
#[local] Hint Resolve keepsPlayer_addGame keepsPlayer_addWon
  keepsPlayer_addLost keepsPlayer_addTied : rows.

Lemma touch_players idToName f rows id :
  keepsPlayer f →
  player <$> touch idToName f rows id
  = (player <$> rows) ++ (if hasRow id rows then [] else [id]).
Proof.
  intros Hf. unfold touch, ensure.
  rewrite <- list_fmap_compose.
  rewrite (list_fmap_ext _ player (if hasRow id rows then rows else _));
    cycle 1.
  { intros i r _. simpl. case_bool_decide; [apply Hf|done]. }
  destruct (hasRow id rows); [by rewrite app_nil_r|].
  by rewrite fmap_app.
Qed.

Lemma touch_elem idToName f rows id x :
  keepsPlayer f →
  x ∈ player <$> touch idToName f rows id ↔ x = id ∨ x ∈ player <$> rows.
Proof.
  intros Hf. rewrite touch_players by done. unfold hasRow.
  case_bool_decide; set_solver.
Qed.

Lemma touch_NoDup idToName f rows id :
  keepsPlayer f →
  NoDup (player <$> rows) → NoDup (player <$> touch idToName f rows id).
Proof.
  intros Hf Hnd. rewrite touch_players by done. unfold hasRow.
  case_bool_decide; [by rewrite app_nil_r|].
  apply NoDup_app. split; [done|]. split; [|apply NoDup_singleton].
  intros y Hy ->%list_elem_of_singleton. done.
Qed.

Lemma foldl_touch_elem idToName f ids rows x :
  keepsPlayer f →
  x ∈ player <$> foldl (touch idToName f) rows ids
  ↔ x ∈ ids ∨ x ∈ player <$> rows.
Proof.
  intros Hf. revert rows. induction ids as [|id ids IH]; intros rows; simpl.
  - set_solver.
  - rewrite IH, touch_elem by done. set_solver.
Qed.

Lemma foldl_touch_NoDup idToName f ids rows :
  keepsPlayer f →
  NoDup (player <$> rows) →
  NoDup (player <$> foldl (touch idToName f) rows ids).
Proof.
  intros Hf. revert rows. induction ids as [|id ids IH]; intros rows; simpl.
  - done.
  - intros Hnd. by apply IH, touch_NoDup.
Qed.

Lemma statsMatch_elem idToName rows m x :
  x ∈ player <$> statsMatch idToName rows m
  ↔ (is_Some (validScore m) ∧ x ∈ matchIds m) ∨ x ∈ player <$> rows.
Proof.
  unfold statsMatch, matchIds. destruct (validScore m) as [sc|].
  - assert (is_Some (Some sc)) by eauto.
    repeat case_match;
      rewrite !foldl_touch_elem by auto with rows; set_solver.
  - split; [auto|]. intros [[[? [=]] _]|]; done.
Qed.

Lemma statsMatch_NoDup idToName rows m :
  NoDup (player <$> rows) → NoDup (player <$> statsMatch idToName rows m).
Proof.
  intros Hnd. unfold statsMatch. repeat case_match;
    repeat (apply foldl_touch_NoDup; [auto with rows|]); done.
Qed.

Lemma foldl_statsMatch_elem idToName ms rows x :
  x ∈ player <$> foldl (statsMatch idToName) rows ms
  ↔ (∃ m, m ∈ ms ∧ is_Some (validScore m) ∧ x ∈ matchIds m)
    ∨ x ∈ player <$> rows.
Proof.
  revert rows. induction ms as [|m ms IH]; intros rows; simpl.
  - set_solver.
  - rewrite IH, statsMatch_elem. set_solver.
Qed.

Lemma statsRows_elem idToName schedule x :
  x ∈ player <$> statsRows idToName schedule
  ↔ ∃ r m, r ∈ schedule ∧ m ∈ matches r
           ∧ is_Some (validScore m) ∧ x ∈ matchIds m.
Proof.
  unfold statsRows.
  cut (∀ rows,
    x ∈ player <$> foldl (λ rows r,
           foldl (statsMatch idToName) rows (matches r)) rows schedule
    ↔ (∃ r m, r ∈ schedule ∧ m ∈ matches r
              ∧ is_Some (validScore m) ∧ x ∈ matchIds m)
      ∨ x ∈ player <$> rows).
  { intros H. rewrite H. set_solver. }
  induction schedule as [|r schedule IH]; intros rows; simpl.
  - set_solver.
  - rewrite IH, foldl_statsMatch_elem. set_solver.
Qed.

Lemma statsRows_NoDup idToName schedule :
  NoDup (player <$> statsRows idToName schedule).
Proof.
  unfold statsRows.
  cut (∀ rows, NoDup (player <$> rows) →
    NoDup (player <$> foldl (λ rows r,
           foldl (statsMatch idToName) rows (matches r)) rows schedule)).
  { intros H. apply H. constructor. }
  induction schedule as [|r schedule IH]; intros rows Hnd; simpl; [done|].
  apply IH. generalize (matches r). intros ms. revert rows Hnd.
  induction ms as [|m ms IHm]; intros rows Hnd; simpl; [done|].
  by apply IHm, statsMatch_NoDup.
Qed.

Lemma computeStats_players localeCompare schedule players :
  player <$> computeStats localeCompare schedule players
  ≡ₚ player <$> statsRows
       (newMap ((λ p, (p_id p, p_name p)) <$> players)) schedule.
Proof.
  unfold computeStats. rewrite arraySort_Permutation.
  rewrite <- list_fmap_compose. done.
Qed.

(** C10.  [computeStats] has a row for a player exactly when that player
    is a member of some match with a valid score, and then exactly one;
    it returns the empty list exactly when no match has a valid score. *)
Theorem computeStats_rows_only_for_valid_matches
    (localeCompare : string → string → Z)
    (schedule : list Round) (players : list Player) :
  let rows := computeStats localeCompare schedule players in
  (∀ id, id ∈ player <$> rows
         ↔ ∃ r m, r ∈ schedule ∧ m ∈ matches r
                  ∧ is_Some (validScore m) ∧ id ∈ matchIds m)
  ∧ NoDup (player <$> rows)
  ∧ (rows = []
     ↔ ∀ r m, r ∈ schedule → m ∈ matches r → validScore m = None).
Proof.
  intros rows.
  assert (∀ id, id ∈ player <$> rows
         ↔ ∃ r m, r ∈ schedule ∧ m ∈ matches r
                  ∧ is_Some (validScore m) ∧ id ∈ matchIds m) as Hiff.
  { intros id. unfold rows.
    rewrite computeStats_players. apply statsRows_elem. }
  split; [done|]. split.
  { unfold rows. rewrite computeStats_players. apply statsRows_NoDup. }
  split.
  - intros Hnil r m Hr Hm. destruct (validScore m) as [sc|] eqn:Hv; [|done].
    exfalso. assert (t_a (team1 m) ∈ player <$> rows) as Hin.
    { apply Hiff. exists r, m. rewrite Hv. unfold matchIds.
      repeat split; eauto. set_solver. }
    rewrite Hnil in Hin. set_solver.
  - intros Hall. destruct rows as [|row rows'] eqn:Hrows; [done|].
    exfalso. assert (player row ∈ player <$> (row :: rows')) as Hin
      by set_solver.
    apply Hiff in Hin as (r & m & Hr & Hm & [sc Hsc] & _).
    rewrite (Hall r m Hr Hm) in Hsc. done.
Qed.

(** ** The Duo game log *)

Lemma dmStats_acc danielId machoId players schedule (games : list Game) :
  foldl (λ (games : list Game) r,
    foldl (λ (games : list Game) m,
      if hasDM danielId machoId (team1 m) || hasDM danielId machoId (team2 m)
      then games ++ [gameOf danielId machoId players (round r) m]
      else games) games (matches r)) games schedule
  = games ++ (r ← schedule; duoGames danielId machoId players r).
Proof.
  revert games. induction schedule as [|r schedule IH]; intros games; simpl.
  - by rewrite app_nil_r.
  - rewrite IH, app_assoc. f_equal. unfold duoGames.
    generalize (round r). intros rn. generalize (matches r). intros ms.
    revert games. induction ms as [|m ms IHm]; intros games; simpl.
    + by rewrite app_nil_r.
    + rewrite IHm, filter_cons.
      fold (duoPlays danielId machoId m).
      destruct (duoPlays danielId machoId m).
      * rewrite decide_True by done. by rewrite <- app_assoc.
      * rewrite decide_False by (by intros ?). done.
Qed.

(** C6 (as the code has it).  The game log has one entry for every match
    in which both Duo ids are on one team, in scan order, whether the
    match has a score or not and whatever the score sums to.  The entry of
    a match without a score has neither score string nor result letter;
    the entry of a match with a score has the string "s1-s2" and the
    letter obtained by comparing the Duo's score with the opponents'. *)
Theorem dmStats_lists_every_duo_match
    (schedule : list Round) (danielId machoId : string)
    (players : list Player) :
  dmStats schedule danielId machoId players
  = (r ← schedule; duoGames danielId machoId players r)
  ∧ ∀ rn m,
      let g := gameOf danielId machoId players rn m in
      g_round g = rn
      ∧ match score m with
        | None => g_score g = None ∧ result g = None
        | Some sc =>
            g_score g
            = Some (showZ (s_team1 sc) +:+ "-" +:+ showZ (s_team2 sc))
            ∧ result g
              = Some (if oppScore danielId machoId m
                         <? duoScore danielId machoId m then "W"
                      else if duoScore danielId machoId m
                              <? oppScore danielId machoId m then "L"
                      else "T")
        end.
Proof.
  split.
  - unfold dmStats. by rewrite dmStats_acc.
  - intros rn m. unfold gameOf, oppScore, duoScore.
    destruct (score m) as [sc|]; simpl; [|done].
    by destruct (hasDM danielId machoId (team1 m)).
Qed.

(** A match of the Duo scored 10-10 is not a valid-score match, and it
    is in the game log, with its score and the result letter "T". *)
Lemma dmStats_keeps_invalid_score :
  let m := mkMatch 7 (mkTeam "p1" "p2") (mkTeam "p3" "p4")
                   (Some (mkScore 10 10)) in
  validScore m = None
  ∧ dmStats [mkRound 1 [m]] "p1" "p2" []
    = [mkGame 1 "p3 & p4" (Some "10-10") (Some "T")].
Proof. split; reflexivity. Qed.

(** ** The Duo summary *)

Lemma foldl_allMatches {B} (f : B → Match → B) (acc : B) schedule :
  foldl (λ acc r, foldl f acc (matches r)) acc schedule
  = foldl f acc (allMatches schedule).
Proof.
  unfold allMatches. revert acc.
  induction schedule as [|r schedule IH]; intros acc; simpl; [done|].
  by rewrite foldl_app, IH.
Qed.

Lemma duoCounted_validScore danielId machoId m :
  duoCounted danielId machoId m = true
  ↔ duoPlays danielId machoId m = true ∧ is_Some (validScore m).
Proof.
  unfold duoCounted, validScore.
  destruct (duoPlays danielId machoId m); simpl;
    [|by split; [|intros [? _]]].
  destruct (score m) as [sc|]; simpl.
  - repeat case_bool_decide; try lia; split; try done;
      try (intros [_ [? ?]]; done); eauto.
  - split; [done|]. by intros [_ [? ?]].
Qed.

Lemma tallyMatch_spec danielId machoId t m :
  let c := duoCounted danielId machoId m in
  let ds := duoScore danielId machoId m in
  let os := oppScore danielId machoId m in
  tallyMatch danielId machoId t m
  = if c then
      mkTally (tl_played t + 1)
              (tl_won t + if bool_decide (os < ds) then 1 else 0)
              (tl_tied t + if bool_decide (os = ds) then 1 else 0)
              (tl_lost t + if bool_decide (ds < os) then 1 else 0)
              (tl_pointsFor t + ds)
    else t.
Proof.
  unfold tallyMatch, duoCounted, duoPlays, duoScore, oppScore, validScore.
  destruct t as [p w ti l pf]. simpl.
  destruct (hasDM danielId machoId (team1 m)
            || hasDM danielId machoId (team2 m)); simpl; [|done].
  destruct (score m) as [sc|]; simpl; [|done].
  repeat case_bool_decide; try lia; try done; simpl;
    repeat match goal with
           | |- context [?a <? ?b] => destruct (Z.ltb_spec a b)
           end; try lia; f_equal; lia.
Qed.

Lemma foldl_tallyMatch danielId machoId ms t :
  let counted := filter (λ m, duoCounted danielId machoId m) ms in
  let ds := duoScore danielId machoId in
  let os := oppScore danielId machoId in
  foldl (tallyMatch danielId machoId) t ms
  = mkTally
      (tl_played t + Z.of_nat (length counted))
      (tl_won t + Z.of_nat (length (filter (λ m, os m < ds m) counted)))
      (tl_tied t + Z.of_nat (length (filter (λ m, os m = ds m) counted)))
      (tl_lost t + Z.of_nat (length (filter (λ m, ds m < os m) counted)))
      (tl_pointsFor t + sumZ (ds <$> counted)).
Proof.
  revert t. induction ms as [|m ms IH]; intros t; simpl.
  - destruct t. simpl. f_equal; lia.
  - rewrite IH, tallyMatch_spec, filter_cons.
    destruct (duoCounted danielId machoId m) eqn:Hc.
    + rewrite decide_True by done. rewrite !filter_cons. cbn [fmap list_fmap].
      unfold sumZ. cbn [foldr tl_played tl_won tl_tied tl_lost tl_pointsFor].
      repeat case_bool_decide; repeat case_decide; try lia;
        cbn [length]; f_equal; lia.
    + rewrite decide_False by (by intros ?). done.
Qed.

Lemma filter_duoCounted_unscored danielId machoId ms :
  Forall (λ m, score m = None) ms →
  filter (λ m, duoCounted danielId machoId m) ms = [].
Proof.
  induction 1 as [|m ms Hm _ IH]; [done|].
  rewrite filter_cons_False; [done|].
  unfold duoCounted. rewrite Hm, andb_false_r. by intros ?.
Qed.

Lemma allMatches_unscored schedule :
  completeSchedule schedule →
  Forall (λ m, score m = None) (allMatches schedule).
Proof.
  intros [_ HF]. unfold allMatches.
  induction HF as [|rd schedule [_ Hrd] _ IH]; simpl; [constructor|].
  by apply Forall_app.
Qed.

Lemma hasDM_duo D M : hasDM D M (mkTeam D M) = true.
Proof.
  unfold hasDM. simpl.
  rewrite !bool_decide_eq_true_2; [done|set_solver..].
Qed.

(** The scenario of the specification: on a fresh schedule, the score
    15-9 entered for team 1 of round 1, court 7. *)
Lemma fresh_schedule_first_score localeCompare players seed fresh D M :
  generateSchedule localeCompare players seed = Ok fresh →
  duoIds players = [D; M] →
  ∃ next,
    setScoreAuto fresh 0 0 15 1 = Some next
    ∧ dmTally next D M = mkTally 1 1 0 0 15
    ∧ dmSummary next D M = mkSummary 1 1 0 0 15.
Proof.
  intros Hgen Hduo.
  pose proof (generateSchedule_complete _ _ _ _ Hgen) as Hcomplete.
  apply generateSchedule_structure in Hgen
    as (D' & M' & res & _ & Hduo' & _ & _ & _ & HF & _ & Hl15).
  assert (D' = D ∧ M' = M) as [-> ->] by (split; congruence).
  destruct HF as [|dmOpp rd res rest Hrd HF]; [done|].
  destruct Hrd as (a8 & b8 & c8 & d8 & a9 & b9 & c9 & d9 & Hm & _).
  apply allMatches_unscored in Hcomplete.
  unfold allMatches in Hcomplete. simpl in Hcomplete.
  apply Forall_app in Hcomplete as [_ Hrest].
  unfold setScoreAuto. simpl. rewrite Hm. simpl.
  eexists. split; [reflexivity|].
  assert (dmTally
            (mkRound (round rd)
               [ mkMatch 7 (mkTeam D M) (mkTeam dmOpp.1 dmOpp.2)
                   (Some (newScore None 15 1));
                 mkMatch 8 (mkTeam a8 b8) (mkTeam c8 d8) None;
                 mkMatch 9 (mkTeam a9 b9) (mkTeam c9 d9) None ] :: rest)
            D M = mkTally 1 1 0 0 15) as Ht.
  { unfold dmTally. rewrite foldl_allMatches, foldl_tallyMatch.
    unfold allMatches. cbn [mbind list_bind matches app].
    rewrite filter_cons_True; cycle 1.
    { unfold duoCounted, duoPlays. cbn [team1 score].
      by rewrite hasDM_duo. }
    rewrite !filter_cons_False
      by (unfold duoCounted; cbn [score]; rewrite andb_false_r; by intros ?).
    fold (allMatches rest).
    rewrite (filter_duoCounted_unscored D M (allMatches rest) Hrest).
    rewrite !filter_cons, !filter_nil.
    unfold duoScore, oppScore. cbn [score team1 fmap list_fmap].
    rewrite !hasDM_duo. reflexivity. }
  split; [exact Ht|]. unfold dmSummary. rewrite Ht. reflexivity.
Qed.

(** C7.  [dmSummary] counts the matches in which both Duo ids are on one
    team and the score sums to 24; it classifies each as won, tied or lost
    by comparing the Duo's score with the opponents', and adds up the
    Duo's scores as points-for.  The average is points-for divided by the
    number of matches played, and 0 when no match was played.  On a fresh
    schedule on which the score of round 1, court 7 is set to 15 for
    team 1 (hence 9 for team 2), the summary is played 1, won 1,
    points-for 15, average 15. *)
Theorem dmSummary_spec
    (schedule : list Round) (danielId machoId : string) :
  let counted :=
    filter (λ m, duoCounted danielId machoId m) (allMatches schedule) in
  let ds := duoScore danielId machoId in
  let os := oppScore danielId machoId in
  let t := dmTally schedule danielId machoId in
  let s := dmSummary schedule danielId machoId in
  tl_played t = Z.of_nat (length counted)
  ∧ tl_won t = Z.of_nat (length (filter (λ m, os m < ds m) counted))
  ∧ tl_tied t = Z.of_nat (length (filter (λ m, os m = ds m) counted))
  ∧ tl_lost t = Z.of_nat (length (filter (λ m, ds m < os m) counted))
  ∧ tl_pointsFor t = sumZ (ds <$> counted)
  ∧ dm_played s = tl_played t ∧ dm_won s = tl_won t
  ∧ dm_tied s = tl_tied t ∧ dm_lost s = tl_lost t
  ∧ dm_avg s = (if decide (tl_played t = 0) then 0%Q
                else ((tl_pointsFor t # 1) / (tl_played t # 1))%Q)
  ∧ ∀ localeCompare players seed fresh D M,
      generateSchedule localeCompare players seed = Ok fresh →
      duoIds players = [D; M] →
      ∃ next,
        setScoreAuto fresh 0 0 15 1 = Some next
        ∧ dmTally next D M = mkTally 1 1 0 0 15
        ∧ dmSummary next D M = mkSummary 1 1 0 0 15.
Proof.
  intros counted ds os t s.
  assert (t = mkTally
      (Z.of_nat (length counted))
      (Z.of_nat (length (filter (λ m, os m < ds m) counted)))
      (Z.of_nat (length (filter (λ m, os m = ds m) counted)))
      (Z.of_nat (length (filter (λ m, ds m < os m) counted)))
      (sumZ (ds <$> counted))) as Ht.
  { unfold t, dmTally. rewrite foldl_allMatches, foldl_tallyMatch. done. }
  split_and!; try (rewrite Ht; reflexivity); try reflexivity.
  - unfold s, dmSummary, average. fold t. simpl.
    destruct (Z.eqb_spec (tl_played t) 0); by case_decide.
  - apply fresh_schedule_first_score.
Qed.

(** ** Score entry *)

Lemma clamp24_range x : 0 ≤ clamp24 x ≤ 24.
Proof. unfold clamp24. lia. Qed.

Lemma clamp24_idem x : clamp24 (clamp24 x) = clamp24 x.
Proof. unfold clamp24. lia. Qed.

(** The score written does not depend on the score that was there. *)
Lemma newScore_eq old value side :
  newScore old value side =
    if side =? 1 then mkScore (clamp24 value) (clamp24 (24 - value))
    else mkScore (clamp24 (24 - value)) (clamp24 value).
Proof.
  unfold newScore. destruct old as [sc|]; simpl;
    destruct (side =? 1); simpl; by rewrite clamp24_idem.
Qed.

Lemma setScoreAuto_out_of_range prev roundIdx matchIdx value side :
  (length prev ≤ roundIdx)%nat →
  setScoreAuto prev roundIdx matchIdx value side = None.
Proof.
  intros Hle. unfold setScoreAuto. by rewrite lookup_ge_None_2.
Qed.

(** C8.  For a round index and a match index that address a match of
    the schedule, [setScoreAuto] returns a schedule of the same shape in
    which every round number, court and team is as before and every score
    is as before except that of the addressed match, whose edited side is
    the value clamped to [0,24] and whose other side is 24 minus the value,
    clamped to [0,24].  Side 1 with value 30 on a match without score gives
    24 for team 1 and 0 for team 2. *)
Theorem setScoreAuto_spec (prev : list Round) (roundIdx matchIdx : nat)
    (value side : Z) (r : Round) (m : Match) :
  prev !! roundIdx = Some r →
  matches r !! matchIdx = Some m →
  ∃ next,
    setScoreAuto prev roundIdx matchIdx value side = Some next
    ∧ length next = length prev
    ∧ (∀ i ri, prev !! i = Some ri →
        ∃ ri', next !! i = Some ri'
          ∧ round ri' = round ri
          ∧ length (matches ri') = length (matches ri)
          ∧ ∀ j mj, matches ri !! j = Some mj →
              ∃ mj', matches ri' !! j = Some mj'
                ∧ court mj' = court mj
                ∧ team1 mj' = team1 mj
                ∧ team2 mj' = team2 mj
                ∧ score mj' =
                    if bool_decide (i = roundIdx ∧ j = matchIdx) then
                      Some (if side =? 1
                            then mkScore (clamp24 value) (clamp24 (24 - value))
                            else mkScore (clamp24 (24 - value)) (clamp24 value))
                    else score mj)
    ∧ (side = 1 → value = 30 → score m = None →
        ∃ r' m', next !! roundIdx = Some r'
          ∧ matches r' !! matchIdx = Some m'
          ∧ score m' = Some (mkScore 24 0)).
Proof.
  intros Hr Hm. unfold setScoreAuto. rewrite Hr. simpl. rewrite Hm. simpl.
  eexists. split; [reflexivity|].
  pose proof (lookup_lt_Some _ _ _ Hr) as Hlr.
  pose proof (lookup_lt_Some _ _ _ Hm) as Hlm.
  split; [by rewrite length_insert|]. split.
  - intros i ri Hi. destruct (decide (i = roundIdx)) as [->|Hne].
    + rewrite list_lookup_insert_eq by done.
      assert (ri = r) as -> by congruence.
      eexists. split; [reflexivity|]. simpl.
      split; [done|]. split; [by rewrite length_insert|].
      intros j mj Hj. destruct (decide (j = matchIdx)) as [->|Hnj].
      * rewrite list_lookup_insert_eq by done.
        assert (mj = m) as -> by congruence.
        eexists. split; [reflexivity|]. simpl.
        rewrite bool_decide_eq_true_2 by done.
        by rewrite newScore_eq.
      * rewrite list_lookup_insert_ne by done.
        exists mj. rewrite bool_decide_eq_false_2 by (intros [? ?]; congruence). done.
    + rewrite list_lookup_insert_ne by done.
      exists ri. repeat split; try done.
      intros j mj Hj. exists mj.
      rewrite bool_decide_eq_false_2 by (intros [? ?]; congruence). done.
  - intros -> -> Hs.
    rewrite list_lookup_insert_eq by done. eexists _, _.
    split; [reflexivity|]. simpl. rewrite list_lookup_insert_eq by done.
    split; [reflexivity|]. simpl. by rewrite Hs.
Qed.

(** ** The development at concrete inputs *)

Lemma ascii_compare_refl c : Ascii.compare c c = Eq.
Proof. unfold Ascii.compare. apply N.compare_refl. Qed.

Lemma string_compare_trans a b c :
  String.compare a b ≠ Gt → String.compare b c ≠ Gt →
  String.compare a c ≠ Gt.
Proof.
  revert b c. induction a as [|x a IH]; intros [|y b] [|z c]; simpl;
    try done.
  destruct (Ascii.compare x y) eqn:Hxy; [| |done];
    destruct (Ascii.compare y z) eqn:Hyz; try done.
  - apply Ascii.compare_eq_iff in Hxy as ->.
    apply Ascii.compare_eq_iff in Hyz as ->.
    rewrite ascii_compare_refl. apply IH.
  - apply Ascii.compare_eq_iff in Hxy as ->. by rewrite Hyz.
  - apply Ascii.compare_eq_iff in Hyz as ->. by rewrite Hxy.
  - unfold Ascii.compare in *.
    rewrite N.compare_lt_iff in Hxy, Hyz.
    assert ((N_of_ascii x ?= N_of_ascii z)%N = Lt) as ->; [|done].
    apply N.compare_lt_iff. lia.
Qed.

Lemma codeUnitCompare_antisym a b :
  Z.sgn (codeUnitCompare b a) = - Z.sgn (codeUnitCompare a b).
Proof.
  unfold codeUnitCompare. rewrite (String.compare_antisym a b).
  by destruct (String.compare b a).
Qed.

Lemma codeUnitCompare_trans a b c :
  codeUnitCompare a b ≤ 0 → codeUnitCompare b c ≤ 0 →
  codeUnitCompare a c ≤ 0.
Proof.
  unfold codeUnitCompare. intros Hab Hbc.
  pose proof (string_compare_trans a b c) as H.
  destruct (String.compare a b), (String.compare b c),
    (String.compare a c); try done; try lia; exfalso; by apply H.
Qed.

Lemma generateSchedule_42 :
  generateSchedule codeUnitCompare defaultPlayers 42 = Ok schedule42.
Proof. vm_compute. reflexivity. Qed.

(** When the players named Daniel and Macho share an id, the search
    succeeds and the validation of round 1 stops the generation: the
    ids have to be pairwise different for the generator to fail under
    the four conditions of [generationFails] only. *)
Example generateSchedule_shared_duo_id :
  generateSchedule codeUnitCompare sharedDuoId 42 = Throw (ErrRound 1).
Proof. vm_compute. reflexivity. Qed.

Lemma generateSchedule_duo_balance_witness :
  generateSchedule codeUnitCompare defaultPlayers 42 = Ok schedule42
  ∧ ∃ D M,
      duoIds defaultPlayers = [D; M]
      ∧ length schedule42 = 15%nat
      ∧ (∀ rd, rd ∈ schedule42 →
           ∃ m, court7 rd = [m] ∧ team1 m = mkTeam D M)
      ∧ NoDup (otherIds D M defaultPlayers)
      ∧ length (otherIds D M defaultPlayers) = 10%nat
      ∧ ∀ x, x ∈ otherIds D M defaultPlayers →
             timesVsDuo x schedule42 = 3%nat.
Proof.
  split; [vm_compute; reflexivity|].
  apply (generateSchedule_duo_balance codeUnitCompare defaultPlayers 42
           schedule42).
  vm_compute. reflexivity.
Defined.

Lemma generateSchedule_coverage_witness :
  generateSchedule codeUnitCompare defaultPlayers 42 = Ok schedule42
  ∧ length defaultPlayers = 12%nat
  ∧ ∀ rd, rd ∈ schedule42 →
      length (matches rd) = 3%nat
      ∧ (∀ m, m ∈ matches rd → NoDup (matchIds m))
      ∧ NoDup (roundIds rd)
      ∧ roundIds rd ≡ₚ p_id <$> defaultPlayers.
Proof.
  split; [vm_compute; reflexivity|].
  apply (generateSchedule_coverage codeUnitCompare defaultPlayers 42
           schedule42).
  vm_compute. reflexivity.
Defined.

Lemma computeStats_ignores_invalid_score_witness :
  computeStats codeUnitCompare scoredExample defaultPlayers
  = computeStats codeUnitCompare (clearScoreAt 0 0 scoredExample)
      defaultPlayers.
Proof.
  apply (computeStats_ignores_invalid_score codeUnitCompare scoredExample
           defaultPlayers 0 0
           (mkRound 1
              [ mkMatch 7 (mkTeam "p1" "p2") (mkTeam "p3" "p4")
                        (Some (mkScore 10 10));
                mkMatch 8 (mkTeam "p5" "p6") (mkTeam "p7" "p8")
                        (Some (mkScore 15 9));
                mkMatch 9 (mkTeam "p9" "p10") (mkTeam "p11" "p12") None ])
           (mkMatch 7 (mkTeam "p1" "p2") (mkTeam "p3" "p4")
                    (Some (mkScore 10 10)))).
  - reflexivity.
  - reflexivity.
  - right. exists (mkScore 10 10). split; [reflexivity|]. simpl. lia.
Defined.

Lemma computeStats_order_witness :
  let rows := computeStats codeUnitCompare scoredExample defaultPlayers in
  StronglySorted (rowBefore codeUnitCompare) rows
  ∧ (∀ r, r ∈ rows → diff r = pointsFor r - pointsAgainst r)
  ∧ (∀ i j a b,
       rows !! i = Some a → rows !! j = Some b →
       pointsFor a = pointsFor b → won a = won b → diff a = diff b →
       codeUnitCompare (name a) (name b) < 0 →
       (i < j)%nat).
Proof.
  exact (computeStats_order codeUnitCompare codeUnitCompare_antisym
           codeUnitCompare_trans scoredExample defaultPlayers).
Defined.

Lemma dmSummary_spec_witness :
  generateSchedule codeUnitCompare defaultPlayers 42 = Ok schedule42
  ∧ duoIds defaultPlayers = ["p1"; "p2"]
  ∧ ∃ next,
      setScoreAuto schedule42 0 0 15 1 = Some next
      ∧ dmTally next "p1" "p2" = mkTally 1 1 0 0 15
      ∧ dmSummary next "p1" "p2" = mkSummary 1 1 0 0 15.
Proof.
  split; [vm_compute; reflexivity|]. split; [vm_compute; reflexivity|].
  destruct (dmSummary_spec schedule42 "p1" "p2")
    as (_ & _ & _ & _ & _ & _ & _ & _ & _ & _ & Hscenario).
  apply (Hscenario codeUnitCompare defaultPlayers 42 schedule42 "p1" "p2").
  - vm_compute. reflexivity.
  - vm_compute. reflexivity.
Defined.

Lemma setScoreAuto_spec_witness :
  ∃ next,
    setScoreAuto schedule42 0 0 30 1 = Some next
    ∧ ∃ r' m', next !! 0%nat = Some r'
        ∧ matches r' !! 0%nat = Some m'
        ∧ score m' = Some (mkScore 24 0).
Proof.
  destruct (setScoreAuto_spec schedule42 0 0 30 1
              (mkRound 1
                 [ mkMatch 7 (mkTeam "p1" "p2") (mkTeam "p10" "p11") None;
                   mkMatch 8 (mkTeam "p4" "p3") (mkTeam "p5" "p12") None;
                   mkMatch 9 (mkTeam "p6" "p7") (mkTeam "p9" "p8") None ])
              (mkMatch 7 (mkTeam "p1" "p2") (mkTeam "p10" "p11") None))
    as (next & Hnext & _ & _ & Hex).
  - reflexivity.
  - reflexivity.
  - exists next. split; [exact Hnext|]. apply Hex; reflexivity.
Defined.

Lemma generateSchedule_accepts_two_daniels_witness :
  length twoDaniels = 12%nat
  ∧ length (filter (λ p, isDuoName (p_name p)) twoDaniels) = 2%nat
  ∧ generateSchedule codeUnitCompare twoDaniels 42 ≠ Throw ErrDuo.
Proof.
  split; [reflexivity|]. split; [vm_compute; reflexivity|].
  intros H.
  apply (proj1 (generateSchedule_accepts_two_daniels codeUnitCompare 42)
           twoDaniels 42) in H.
  - apply H. vm_compute. reflexivity.
  - reflexivity.
Defined.

(** * Further properties of the code *)

(** ** [shuffle] and the random stream *)

Lemma shuffleLoop_length {A} n (a : list A) seed :
  length (shuffleLoop n a seed).1 = length a.
Proof. by rewrite shuffleLoop_Permutation. Qed.

Lemma shuffleLoop_seed {A} n (a : list A) seed :
  (shuffleLoop n a seed).2 = seed + Z.of_nat n * 0x6d2b79f5.
Proof.
  revert a seed. induction n as [|n IH]; intros a seed.
  - simpl. lia.
  - cbn [shuffleLoop]. unfold mulberry32 at 1. cbv zeta.
    rewrite IH. lia.
Qed.

(** X1.  [shuffle] returns a permutation of its argument, of the same
    length, for every seed.  It calls the generator once for every
    element but the first: when the seed is a safe integer and is still
    one after these calls, so that the additions of the generator are
    exact, the state of the generator has advanced by [length - 1]
    increments. *)
Theorem shuffle_permutes {A} (arr : list A) (seed : Z) :
  (shuffle arr seed).1 ≡ₚ arr
  ∧ length (shuffle arr seed).1 = length arr
  ∧ (safeInteger seed →
     safeInteger (seed + Z.of_nat (length arr - 1) * 0x6d2b79f5) →
     (shuffle arr seed).2
     = seed + Z.of_nat (length arr - 1) * 0x6d2b79f5).
Proof.
  unfold shuffle. split_and!.
  - apply shuffleLoop_Permutation.
  - apply shuffleLoop_length.
  - intros _ _. apply shuffleLoop_seed.
Qed.

(** X2.  A call of the generator yields a number in [0, 1), a numerator
    from 0 to 2^32 - 1 over 2^32, whatever the state is; the index that
    [shuffle] derives from it for position [i] lies between 0 and [i],
    so every exchange stays inside the array. *)
Theorem mulberry32_index_in_range (seed : Z) (i : nat) :
  0 ≤ (mulberry32 seed).1 < 4294967296
  ∧ (randIndex (mulberry32 seed).1 i ≤ i)%nat.
Proof.
  pose proof (mulberry32_range seed) as Hu.
  split; [lia|].
  by apply randIndex_le.
Qed.

(** X3.  [pairKey] does not depend on the order of its arguments, and
    it is one of the two concatenations with a dash.  It does not
    determine the pair when an id contains a dash. *)
Theorem pairKey_unordered (a b : string) :
  pairKey a b = pairKey b a
  ∧ (pairKey a b = a +:+ "-" +:+ b ∨ pairKey a b = b +:+ "-" +:+ a)
  ∧ pairKey "a-b" "c" = pairKey "a" "b-c".
Proof.
  split; [apply pairKey_comm|]. split; [|reflexivity].
  unfold pairKey. destruct (String.ltb a b); auto.
Qed.

(** ** Score entry *)

Lemma newScore_valid old value side :
  let sc := newScore old value side in
  s_team1 sc + s_team2 sc = 24
  ∧ 0 ≤ s_team1 sc ≤ 24 ∧ 0 ≤ s_team2 sc ≤ 24.
Proof.
  rewrite newScore_eq. unfold clamp24.
  destruct (side =? 1); simpl; lia.
Qed.

(** X4.  A score entered with [setScoreAuto] is always a valid score:
    both sides are between 0 and 24 and they sum to 24, whatever integer
    is typed, so the match counts for the standings. *)
Theorem setScoreAuto_valid_score (prev next : list Round)
    (roundIdx matchIdx : nat) (value side : Z) :
  setScoreAuto prev roundIdx matchIdx value side = Some next →
  ∃ r m sc,
    next !! roundIdx = Some r
    ∧ matches r !! matchIdx = Some m
    ∧ score m = Some sc
    ∧ validScore m = Some sc
    ∧ s_team1 sc + s_team2 sc = 24
    ∧ 0 ≤ s_team1 sc ≤ 24 ∧ 0 ≤ s_team2 sc ≤ 24.
Proof.
  unfold setScoreAuto. intros H.
  destruct (prev !! roundIdx) as [r|] eqn:Hr; [|done]. simpl in H.
  destruct (matches r !! matchIdx) as [m|] eqn:Hm; [|done]. simpl in H.
  injection H as <-.
  pose proof (lookup_lt_Some _ _ _ Hr). pose proof (lookup_lt_Some _ _ _ Hm).
  pose proof (newScore_valid (score m) value side) as (Hsum & H1 & H2).
  eexists _, _, _. rewrite list_lookup_insert_eq by done.
  split; [reflexivity|]. simpl. rewrite list_lookup_insert_eq by done.
  split; [reflexivity|]. simpl. split; [reflexivity|].
  unfold validScore. simpl.
  rewrite bool_decide_eq_false_2 by (by intros ?). done.
Qed.

(** X5.  [setScoreAuto] fails (the source raises a TypeError) exactly
    when the round index or the match index addresses no match. *)
Theorem setScoreAuto_fails_iff (prev : list Round)
    (roundIdx matchIdx : nat) (value side : Z) :
  setScoreAuto prev roundIdx matchIdx value side = None
  ↔ (length prev ≤ roundIdx)%nat
    ∨ ∃ r, prev !! roundIdx = Some r
           ∧ (length (matches r) ≤ matchIdx)%nat.
Proof.
  unfold setScoreAuto.
  destruct (prev !! roundIdx) as [r|] eqn:Hr; simpl.
  - pose proof (lookup_lt_Some _ _ _ Hr).
    destruct (matches r !! matchIdx) as [m|] eqn:Hm; simpl.
    + pose proof (lookup_lt_Some _ _ _ Hm). split; [done|].
      intros [?|(r' & [= <-] & ?)]; lia.
    + apply lookup_ge_None in Hm. split; [|done]. eauto.
  - apply lookup_ge_None in Hr. split; [auto|done].
Qed.

(** X6.  A second entry for the same match replaces the first: the
    result is the one of the second entry alone.  The score written
    never depends on the score that was there. *)
Theorem setScoreAuto_overrides (prev mid : list Round)
    (roundIdx matchIdx : nat) (v1 s1 v2 s2 : Z) :
  setScoreAuto prev roundIdx matchIdx v1 s1 = Some mid →
  setScoreAuto mid roundIdx matchIdx v2 s2
  = setScoreAuto prev roundIdx matchIdx v2 s2.
Proof.
  unfold setScoreAuto. intros H.
  destruct (prev !! roundIdx) as [r|] eqn:Hr; [|done]. simpl in *.
  destruct (matches r !! matchIdx) as [m|] eqn:Hm; [|done]. simpl in *.
  injection H as <-.
  pose proof (lookup_lt_Some _ _ _ Hr). pose proof (lookup_lt_Some _ _ _ Hm).
  rewrite list_lookup_insert_eq by done. simpl.
  rewrite list_lookup_insert_eq by done. simpl.
  rewrite !list_insert_insert_eq. by rewrite !newScore_eq.
Qed.

(** ** The Duo summary *)

Lemma filter_trichotomy {A} (f g : A → Z) (l : list A) :
  length l
  = (length (filter (λ m, (g m < f m)%Z) l)
     + length (filter (λ m, g m = f m) l)
     + length (filter (λ m, (f m < g m)%Z) l))%nat.
Proof.
  induction l as [|x l IH]; [done|].
  rewrite !filter_cons.
  repeat case_decide; simpl; lia.
Qed.

(** X7.  In the Duo summary the matches played are the matches won,
    tied and lost together, and no count is negative. *)
Theorem dmSummary_totals (schedule : list Round) (danielId machoId : string) :
  let s := dmSummary schedule danielId machoId in
  dm_played s = dm_won s + dm_tied s + dm_lost s
  ∧ 0 ≤ dm_won s ∧ 0 ≤ dm_tied s ∧ 0 ≤ dm_lost s.
Proof.
  unfold dmSummary, dmTally.
  rewrite foldl_allMatches, foldl_tallyMatch. simpl.
  set (counted := filter _ (allMatches schedule)).
  pose proof (filter_trichotomy (duoScore danielId machoId)
                (oppScore danielId machoId) counted).
  lia.
Qed.

(** ** The search state *)

Lemma chooseAll_cons a b res st :
  chooseAll ((a, b) :: res) st = chooseAll res (choose a b st).
Proof. reflexivity. Qed.

Lemma getCount_chooseAll res st x :
  getCount (counts (chooseAll res st)) x = getCount (counts st) x + occ x res.
Proof.
  revert st. induction res as [|[a b] res IH]; intros st.
  - simpl. lia.
  - rewrite chooseAll_cons, IH, getCount_choose. cbn [occ]. lia.
Qed.

Lemma usedPair_chooseAll res st :
  usedPair (chooseAll res st) = list_to_set (pairKeys res) ∪ usedPair st.
Proof.
  revert st. induction res as [|[a b] res IH]; intros st.
  - simpl. set_solver.
  - rewrite chooseAll_cons, IH. unfold pairKeys. simpl. set_solver.
Qed.

Section LoopsState.
Variables (ids : list string) (n : nat) (search : Search → SearchResult).
Hypothesis search_ok : searchSpec ids n search.
Hypothesis search_state :
  ∀ st res st', keysOK ids st →
    search st = (Some res, st') → st' = chooseAll res st.

Lemma loopJ_state a bs st res st' :
  keysOK ids st →
  (∀ b, b ∈ bs → [a; b] ⊆+ ids) →
  loopJ ids (Z.of_nat n * 2) search a bs st = (Some res, st') →
  st' = chooseAll res st.
Proof.
  intros Hk. induction bs as [|b bs IH]; intros Hbs; [done|].
  rewrite loopJ_cons.
  assert (∀ b, b ∈ bs → [a; b] ⊆+ ids) as Hbs'
    by (intros; apply Hbs; set_solver).
  destruct (NEED <=? getCount (counts st) b); [by apply IH|].
  case_bool_decide as Hu; [by apply IH|].
  assert ([a; b] ⊆+ ids) as Hab by (apply Hbs; set_solver).
  assert (undo a b (choose a b st) = st) as Hundo.
  { apply undo_choose; [apply Hk|apply Hk|done].
    - eapply elem_of_submseteq; [|exact Hab]. set_solver.
    - eapply elem_of_submseteq; [|exact Hab]. set_solver. }
  pose proof (keysOK_choose ids a b st Hk) as Hk'.
  destruct (needTotal ids (counts (choose a b st)) <=? Z.of_nat n * 2).
  - pose proof (search_ok (choose a b st) Hk') as Hs.
    pose proof (search_state (choose a b st)) as Hst.
    destruct (search (choose a b st)) as [[r|] st2].
    + intros [= <- <-]. rewrite chooseAll_cons. by eapply Hst.
    + subst st2. rewrite Hundo. by apply IH.
  - rewrite Hundo. by apply IH.
Qed.

Lemma loopI_state pool st res st' :
  keysOK ids st →
  pool ⊆+ ids →
  loopI ids (Z.of_nat n * 2) search pool st = (Some res, st') →
  st' = chooseAll res st.
Proof.
  intros Hk. induction pool as [|a rest IH]; intros Hp; [done|].
  rewrite loopI_cons.
  assert (rest ⊆+ ids) as Hrest.
  { etrans; [|exact Hp]. by apply submseteq_cons. }
  assert (∀ b, b ∈ rest → [a; b] ⊆+ ids) as Hpairs.
  { intros b Hb. etrans; [|exact Hp].
    apply submseteq_skip. by apply singleton_submseteq_l. }
  destruct (Z.leb_spec NEED (getCount (counts st) a)) as [|Ha];
    [by apply IH|].
  pose proof (loopJ_sound ids n search search_ok a rest st Hk Ha Hpairs)
    as HJ.
  pose proof (loopJ_state a rest st) as HS.
  destruct (loopJ ids (Z.of_nat n * 2) search a rest st) as [[r|] st2].
  - intros [= <- <-]. by eapply HS.
  - subst st2. by apply IH.
Qed.
End LoopsState.

Lemma backtrack_state localeCompare ids n st res st' :
  keysOK ids st →
  backtrack localeCompare ids n st = (Some res, st') →
  st' = chooseAll res st.
Proof.
  revert st res st'. induction n as [|n IH]; intros st res st' Hk.
  - by intros [= <- <-].
  - cbn [backtrack]. apply loopI_state; try done.
    + apply backtrack_sound.
    + by rewrite arraySort_Permutation.
Qed.

(** X8.  The mutable state of the search.  When [backtrack] returns
    false, [counts] and [usedPair] are as they were on entry: every
    choice has been undone.  When it returns true, they are the entry
    state with exactly the returned pairs chosen: every count has grown
    by the number of appearances of its id, and the keys of the pairs
    have been added to [usedPair]. *)
Theorem backtrack_final_state
    (localeCompare : string → string → Z)
    (ids : list string) (n : nat) (st : Search) :
  keysOK ids st →
  match backtrack localeCompare ids n st with
  | (None, st') => st' = st
  | (Some res, st') =>
      length res = n
      ∧ (∀ x, getCount (counts st') x = getCount (counts st) x + occ x res)
      ∧ usedPair st' = list_to_set (pairKeys res) ∪ usedPair st
  end.
Proof.
  intros Hk.
  pose proof (backtrack_sound localeCompare ids n st Hk) as Hs.
  pose proof (backtrack_state localeCompare ids n st) as Hst.
  destruct (backtrack localeCompare ids n st) as [[res|] st']; [|done].
  rewrite (Hst res st' Hk eq_refl). split_and!.
  - by eapply Path_length.
  - intros x. apply getCount_chooseAll.
  - apply usedPair_chooseAll.
Qed.

(** ** No opponent pair twice *)

Lemma Path_pairKeys ids n st res :
  Path ids n st res →
  NoDup (pairKeys res) ∧ ∀ k, k ∈ pairKeys res → k ∉ usedPair st.
Proof.
  induction 1 as [st|n st a b res Hab Ha Hb Hu Hf HP [IH1 IH2]].
  - split; [constructor|]. intros k Hk. by apply elem_of_nil in Hk.
  - unfold pairKeys in *. rewrite fmap_cons. simpl. split.
    + constructor; [|done]. intros Hin. apply (IH2 _ Hin).
      unfold choose. simpl. set_solver.
    + intros k [->|Hk]%elem_of_cons; [done|].
      intros Hin. apply (IH2 _ Hk). unfold choose. simpl. set_solver.
Qed.

Lemma pair_Permutation_pairKey (a b c d : string) :
  [a; b] ≡ₚ [c; d] → pairKey a b = pairKey c d.
Proof.
  intros Hp.
  assert (a ∈ [c; d]) as Ha by (rewrite <- Hp; set_solver).
  assert (b ∈ [c; d]) as Hb by (rewrite <- Hp; set_solver).
  assert (c ∈ [a; b]) as Hc by (rewrite Hp; set_solver).
  assert (d ∈ [a; b]) as Hd by (rewrite Hp; set_solver).
  rewrite !elem_of_cons in Ha, Hb, Hc, Hd.
  destruct (decide (a = c)) as [->|Hac].
  - apply Permutation_cons_inv in Hp.
    by apply Permutation_singleton_l in Hp as [= ->].
  - assert (a = d) as -> by set_solver.
    assert (b = c) as -> by set_solver. apply pairKey_comm.
Qed.

(** X9.  In a generated schedule no two rounds pit the Duo against the
    same pair of opponents. *)
Theorem generateSchedule_no_repeated_opponents
    (localeCompare : string → string → Z)
    (players : list Player) (seed : Z) (schedule : list Round)
    (i j : nat) (rd1 rd2 : Round) :
  generateSchedule localeCompare players seed = Ok schedule →
  schedule !! i = Some rd1 → schedule !! j = Some rd2 → i ≠ j →
  ¬ (duoOpponents rd1 ≡ₚ duoOpponents rd2).
Proof.
  intros (D & M & res & _ & _ & _ & HP & _ & HF & _)
    %generateSchedule_structure Hi Hj Hij Hperm.
  destruct (Forall2_lookup_r _ _ _ _ _ HF Hi) as ([a b] & Hpi & Hb1).
  destruct (Forall2_lookup_r _ _ _ _ _ HF Hj) as ([c d] & Hpj & Hb2).
  apply builtRound_court7 in Hb1 as (_ & Ho1 & _).
  apply builtRound_court7 in Hb2 as (_ & Ho2 & _).
  rewrite Ho1, Ho2 in Hperm. simpl in Hperm.
  apply pair_Permutation_pairKey in Hperm.
  apply Path_pairKeys in HP as [Hnd _].
  apply Hij. eapply NoDup_lookup; [exact Hnd| |].
  - unfold pairKeys. rewrite list_lookup_fmap, Hpi. reflexivity.
  - unfold pairKeys. rewrite list_lookup_fmap, Hpj. simpl. by rewrite Hperm.
Qed.

(** ** The search and its inputs *)

(** X10.  Whether the balancing search succeeds does not depend on the
    order that [localeCompare] gives the ids: the search is exhaustive, so
    if it finds an assignment with one comparator it finds one with every
    comparator. *)
Theorem buildBalancedDmOpponents_any_comparator
    (lc1 lc2 : string → string → Z) (ids : list string)
    (res1 : list (string * string)) :
  buildBalancedDmOpponents lc1 ids = Ok res1 →
  ∃ res2, buildBalancedDmOpponents lc2 ids = Ok res2.
Proof.
  intros HP%buildBalancedDmOpponents_Path.
  destruct (backtrack_complete lc2 ids 15 (initSearch ids) res1
              (keysOK_initSearch ids) HP) as [res2 Hres2].
  destruct (buildBalancedDmOpponents_cases lc2 ids)
    as [(r & Hr & _)|[_ Hnone]]; [eauto|].
  rewrite Hnone in Hres2. done.
Qed.

(** X11.  With ten ids of which two are equal, the balancing search
    fails: [buildBalancedDmOpponents] throws its error. *)
Theorem buildBalancedDmOpponents_duplicate_ids
    (localeCompare : string → string → Z) (ids : list string) :
  length ids = 10%nat → ¬ NoDup ids →
  buildBalancedDmOpponents localeCompare ids = Throw ErrBalance.
Proof.
  intros Hlen Hdup.
  destruct (buildBalancedDmOpponents_cases localeCompare ids)
    as [(res & Hres & _)|[Hthrow _]]; [|done].
  exfalso. apply Hdup.
  eapply search_success_NoDup; [done|].
  by apply buildBalancedDmOpponents_Path in Hres.
Qed.

(** ** The errors of [generateSchedule] *)

(** X12.  The errors of the generator.  [generateSchedule] throws one of
    its four descriptive errors, or the internal round construction error;
    the latter only when the players named Daniel and Macho have the same
    id, and then for round 1.  Nothing else goes wrong: no array is read
    outside its bounds. *)
Theorem generateSchedule_errors
    (localeCompare : string → string → Z)
    (players : list Player) (seed : Z) (e : GenError) :
  generateSchedule localeCompare players seed = Throw e →
  e ∈ [ErrPlayers; ErrDuo; ErrOthers; ErrBalance]
  ∨ (e = ErrRound 1 ∧ ∃ D, duoIds players = [D; D]).
Proof.
  unfold generateSchedule. case_bool_decide as Hlen.
  { intros [= <-]. left. set_solver. }
  destruct (duoIds players) as [|D [|M [|]]] eqn:Hduo;
    try (intros [= <-]; left; set_solver).
  case_bool_decide as Hoth.
  { intros [= <-]. left. set_solver. }
  destruct (buildBalancedDmOpponents_cases localeCompare
              (otherIds D M players)) as [(res & Hres & _)|[-> _]];
    [|intros [= <-]; left; set_solver].
  rewrite Hres. intros Hthrow.
  change (roundsLoop D M (otherIds D M players) 1 res seed = Throw e)
    in Hthrow.
  pose proof (buildBalancedDmOpponents_Path _ _ _ Hres) as HP.
  assert (length (otherIds D M players) = 10%nat) as Hl10 by lia.
  pose proof (search_success_NoDup _ _ Hl10 HP) as Hnd.
  assert (D ∉ otherIds D M players) as HD
    by (by intros [? _]%otherIds_not_duo).
  assert (M ∉ otherIds D M players) as HM
    by (by intros [_ ?]%otherIds_not_duo).
  pose proof (Path_pairs _ _ _ _ HP) as Hpairs.
  destruct (decide (D = M)) as [->|Hne].
  - right. split; [|eauto].
    pose proof (Path_length _ _ _ _ HP) as Hl15.
    destruct res as [|p rest]; [done|].
    apply Forall_cons in Hpairs as [Hp _].
    cbn [roundsLoop] in Hthrow.
    destruct (buildRound_reads M M (otherIds M M players) 1 p seed
                Hnd HM HM Hl10 Hp)
      as (a8 & b8 & c8 & d8 & a9 & b9 & c9 & d9 & seed' & _ & Hb).
    rewrite Hb in Hthrow. cbn zeta in Hthrow.
    rewrite roundValid_shared_duo in Hthrow. simpl in Hthrow. congruence.
  - exfalso.
    destruct (roundsLoop_Ok D M (otherIds D M players) 1 res seed)
      as [rds Hrds]; try done; [|congruence].
    repeat constructor; try done. set_solver.
Qed.

(** X13.  The seed decides neither whether the generation succeeds nor
    whom the Duo meets: if a schedule is generated for one seed, one is
    generated for every seed, with the same matches on court 7 in the
    same rounds.  Trying another seed cannot cure a failure. *)
Theorem generateSchedule_seed_independent
    (localeCompare : string → string → Z)
    (players : list Player) (seed1 seed2 : Z) (schedule1 : list Round) :
  generateSchedule localeCompare players seed1 = Ok schedule1 →
  ∃ schedule2,
    generateSchedule localeCompare players seed2 = Ok schedule2
    ∧ court7 <$> schedule2 = court7 <$> schedule1.
Proof.
  intros Hgen1.
  pose proof (generateSchedule_NoDup_ids _ _ _ _ Hgen1) as Hnd.
  assert (¬ generationFails localeCompare players) as Hnf.
  { destruct (generateSchedule_cases localeCompare players seed1 Hnd)
      as [(_ & e & He & _)|[? _]]; [congruence|done]. }
  destruct (generateSchedule_cases localeCompare players seed2 Hnd)
    as [[? _]|[_ [schedule2 Hgen2]]]; [done|].
  exists schedule2. split; [done|].
  apply generateSchedule_structure in Hgen1
    as (D & M & res & _ & Hduo & _ & _ & Hres & HF1 & _).
  apply generateSchedule_structure in Hgen2
    as (D' & M' & res' & _ & Hduo' & _ & _ & Hres' & HF2 & _).
  assert (D' = D ∧ M' = M) as [-> ->] by (split; congruence).
  assert (res' = res) as -> by congruence.
  assert (∀ schedule,
    Forall2 (builtRound D M (otherIds D M players)) res schedule →
    court7 <$> schedule
    = (λ p, [mkMatch 7 (mkTeam D M) (mkTeam p.1 p.2) None]) <$> res) as Hc.
  { clear. induction 1 as [|p rd res schedule Hrd _ IH]; [done|].
    rewrite !fmap_cons, IH. f_equal.
    by apply builtRound_court7 in Hrd as (-> & _). }
  by rewrite (Hc _ HF1), (Hc _ HF2).
Qed.

(** X14.  Players of whom two have the same id are never given a
    schedule. *)
Theorem generateSchedule_duplicate_ids
    (localeCompare : string → string → Z)
    (players : list Player) (seed : Z) :
  ¬ NoDup (p_id <$> players) →
  ∃ e, generateSchedule localeCompare players seed = Throw e.
Proof.
  intros Hdup.
  destruct (generateSchedule localeCompare players seed) as [schedule|e]
    eqn:Hgen; [|eauto].
  exfalso. apply Hdup. by eapply generateSchedule_NoDup_ids.
Qed.

(** ** A fresh schedule *)

Lemma foldl_statsMatch_unscored idToName rows ms :
  Forall (λ m, score m = None) ms →
  foldl (statsMatch idToName) rows ms = rows.
Proof.
  induction 1 as [|m ms Hm _ IH]; simpl; [done|].
  rewrite statsMatch_invalid; [done|]. unfold validScore. by rewrite Hm.
Qed.

(** X15.  On a schedule as [generateSchedule] returns it, before any
    score is entered, the standings are empty and the Duo summary is all
    zero, its average included. *)
Theorem fresh_schedule_statistics
    (localeCompare : string → string → Z)
    (players : list Player) (seed : Z) (schedule : list Round) :
  generateSchedule localeCompare players seed = Ok schedule →
  ∀ lc players' danielId machoId,
    computeStats lc schedule players' = []
    ∧ dmSummary schedule danielId machoId = mkSummary 0 0 0 0 0.
Proof.
  intros Hgen%generateSchedule_complete lc players' danielId machoId.
  pose proof (allMatches_unscored _ Hgen) as Hall. split.
  - unfold computeStats, statsRows.
    rewrite foldl_allMatches, foldl_statsMatch_unscored by done. done.
  - unfold dmSummary, dmTally.
    rewrite foldl_allMatches, foldl_tallyMatch.
    by rewrite (filter_duoCounted_unscored _ _ _ Hall).
Qed.

Lemma hasDM_outside D M a b :
  D ≠ a → D ≠ b → hasDM D M (mkTeam a b) = false.
Proof.
  intros Ha Hb. unfold hasDM. simpl.
  rewrite (bool_decide_eq_false_2 (D ∈ [a; b])); [done|].
  rewrite !elem_of_cons. intros [?|[?|?%elem_of_nil]]; done.
Qed.

Lemma builtRound_duoGames D M others dmOpp rd players :
  builtRound D M others dmOpp rd →
  duoGames D M players rd
  = [mkGame (round rd)
       (findName players dmOpp.1 +:+ " & " +:+ findName players dmOpp.2)
       None None].
Proof.
  intros (a8 & b8 & c8 & d8 & a9 & b9 & c9 & d9 & Hm & Hnd & _).
  apply NoDup_cons in Hnd as [HD _].
  rewrite !elem_of_cons in HD.
  unfold duoGames. rewrite Hm.
  rewrite filter_cons_True; cycle 1.
  { unfold duoPlays. cbn [team1]. by rewrite hasDM_duo. }
  rewrite !filter_cons_False, filter_nil; cycle 1.
  { unfold duoPlays. cbn [team1 team2].
    rewrite !hasDM_outside; [by intros ?|intros ->; apply HD; auto 15..]. }
  { unfold duoPlays. cbn [team1 team2].
    rewrite !hasDM_outside; [by intros ?|intros ->; apply HD; auto 15..]. }
  cbn [fmap list_fmap]. unfold gameOf. cbn [team1 team2 score t_a t_b].
  by rewrite hasDM_duo.
Qed.

(** X16.  The game log of a fresh schedule.  For the Duo that the
    generator found, [dmStats] has one entry for each of the 15 rounds, in
    order of the rounds, naming the two opponents of the Duo in that
    round, without score and without result. *)
Theorem fresh_schedule_game_log
    (localeCompare : string → string → Z)
    (players : list Player) (seed : Z) (schedule : list Round)
    (D M : string) (players' : list Player) :
  generateSchedule localeCompare players seed = Ok schedule →
  duoIds players = [D; M] →
  let log := dmStats schedule D M players' in
  g_round <$> log = seqZ 1 15
  ∧ Forall2 (λ g rd,
       g_round g = round rd ∧ g_score g = None ∧ result g = None
       ∧ ∃ a b, duoOpponents rd = [a; b]
           ∧ oppNames g
             = findName players' a +:+ " & " +:+ findName players' b)
     log schedule.
Proof.
  intros (D' & M' & res & _ & Hduo' & _ & _ & _ & HF & Hnum & _)
    %generateSchedule_structure Hduo log.
  assert (D' = D ∧ M' = M) as [-> ->] by (split; congruence).
  assert (Forall2 (λ g rd,
       g_round g = round rd ∧ g_score g = None ∧ result g = None
       ∧ ∃ a b, duoOpponents rd = [a; b]
           ∧ oppNames g
             = findName players' a +:+ " & " +:+ findName players' b)
     log schedule) as Hlog.
  { unfold log, dmStats. rewrite dmStats_acc, app_nil_l.
    clear Hnum. induction HF as [|p rd res schedule Hrd _ IH]; [constructor|].
    cbn [mbind list_bind].
    rewrite (builtRound_duoGames _ _ _ _ _ players' Hrd).
    constructor; [|exact IH]. simpl. split_and!; try done.
    apply builtRound_court7 in Hrd as (_ & -> & _). eauto. }
  split; [|done].
  rewrite <- Hnum. clear Hnum HF.
  induction Hlog as [|g rd log' schedule (Hr & _) _ IH]; [done|].
  by rewrite !fmap_cons, Hr, IH.
Qed.

(** ** The validation of a round and the pairing *)

Lemma length_join_matchIds ms :
  length (mjoin (matchIds <$> ms)) = (4 * length ms)%nat.
Proof.
  induction ms as [|m ms IH]; [done|].
  change (mjoin (matchIds <$> m :: ms))
    with (matchIds m ++ mjoin (matchIds <$> ms)).
  rewrite length_app, IH. simpl. lia.
Qed.

(** X17.  The self-check of a round accepts a list of matches exactly
    when there are three matches and no id occurs twice among their
    slots. *)
Theorem roundValid_iff (ms : list Match) :
  roundValid ms = true
  ↔ length ms = 3%nat ∧ NoDup (mjoin (matchIds <$> ms)).
Proof.
  pose proof (length_join_matchIds ms) as Hlen.
  split.
  - intros [Hnd H12]%roundValid_true. split; [lia|done].
  - intros [H3 Hnd]. apply roundValid_true. split; [done|lia].
Qed.

Lemma pairUp_even arr n :
  length arr = (2 * n)%nat →
  length (pairUp arr) = n ∧ Forall (λ pr, length pr = 2%nat) (pairUp arr).
Proof.
  revert arr. induction n as [|n IH]; intros arr Hlen.
  - destruct arr; [|done]. split; [done|constructor].
  - destruct arr as [|x [|y tl]]; simpl in Hlen; try lia.
    destruct (IH tl) as [H1 H2]; [lia|].
    cbn [pairUp]. split; [simpl; lia|]. by constructor.
Qed.

(** X18.  [pairRemaining] splits its argument into pairs without losing
    or repeating a player: the pairs together are a permutation of the
    argument, and for an even number of players there are half as many
    pairs, each of two players. *)
Theorem pairRemaining_pairs (eight : list string) (seed : Z) (n : nat) :
  length eight = (2 * n)%nat →
  let pairs := (pairRemaining eight seed).1 in
  mjoin pairs ≡ₚ eight
  ∧ length pairs = n
  ∧ Forall (λ pr, length pr = 2%nat) pairs.
Proof.
  intros Hlen. unfold pairRemaining.
  pose proof (shuffle_Permutation eight seed) as Hperm.
  destruct (shuffle eight seed) as [arr seed'] eqn:Hsh. simpl in *.
  split; [by rewrite pairUp_concat|].
  apply pairUp_even. by rewrite Hperm.
Qed.

(** ** Invariants of the standings *)

Lemma rowOf_fmap (g : Row → Row) x rows :
  keepsPlayer g → rowOf x (g <$> rows) = g <$> rowOf x rows.
Proof.
  intros Hg. unfold rowOf. induction rows as [|r rows IH]; [done|].
  cbn [fmap list_fmap List.find]. rewrite Hg.
  case_bool_decide; [done|]. exact IH.
Qed.

Lemma rowOf_player x rows r : rowOf x rows = Some r → player r = x.
Proof.
  unfold rowOf. intros [_ H]%find_some. by apply bool_decide_eq_true in H.
Qed.

Lemma rowOf_None x rows : rowOf x rows = None ↔ x ∉ player <$> rows.
Proof.
  unfold rowOf. induction rows as [|r rows IH].
  - split; [intros _; apply not_elem_of_nil|done].
  - cbn [List.find]. rewrite fmap_cons, not_elem_of_cons.
    case_bool_decide as Hp.
    + split; [done|]. intros [Hne _]. by subst.
    + rewrite IH. split; [intros ?; split; [by intros ->|done]|by intros [_ ?]].
Qed.

Lemma rowOf_app_singleton x rows r :
  rowOf x (rows ++ [r])
  = match rowOf x rows with
    | Some r' => Some r'
    | None => if bool_decide (player r = x) then Some r else None
    end.
Proof.
  unfold rowOf. induction rows as [|r0 rows IH]; simpl; [done|].
  destruct (bool_decide (player r0 = x)); [done|exact IH].
Qed.

Lemma rowOf_touch idToName f rows id x :
  keepsPlayer f →
  rowOf x (touch idToName f rows id)
  = if bool_decide (x = id)
    then Some (f (default (mkRow id (nameOf idToName id) 0 0 0 0 0 0 0)
                          (rowOf id rows)))
    else rowOf x rows.
Proof.
  intros Hf. unfold touch. rewrite rowOf_fmap; cycle 1.
  { intros r. case_bool_decide; [apply Hf|done]. }
  unfold ensure, hasRow.
  destruct (rowOf id rows) as [rid|] eqn:Hid.
  - assert (id ∈ player <$> rows) as Hin.
    { destruct (decide (id ∈ player <$> rows)) as [|Hn]; [done|].
      apply rowOf_None in Hn. congruence. }
    rewrite bool_decide_eq_true_2 by done.
    case_bool_decide as Hx.
    + subst. rewrite Hid. simpl.
      by rewrite bool_decide_eq_true_2 by by eapply rowOf_player.
    + destruct (rowOf x rows) as [rx|] eqn:Hrx; [|done]. simpl.
      apply rowOf_player in Hrx. by rewrite bool_decide_eq_false_2 by congruence.
  - pose proof (proj1 (rowOf_None _ _) Hid) as Hn.
    rewrite bool_decide_eq_false_2 by done.
    rewrite rowOf_app_singleton. cbn [player default].
    destruct (decide (x = id)) as [->|Hx].
    + rewrite Hid, !bool_decide_eq_true_2 by done. simpl.
      by rewrite bool_decide_eq_true_2.
    + rewrite (bool_decide_eq_false_2 (x = id)) by done.
      rewrite (bool_decide_eq_false_2 (id = x)) by congruence.
      destruct (rowOf x rows) as [rx|] eqn:Hrx; [|done]. simpl.
      apply rowOf_player in Hrx.
      by rewrite bool_decide_eq_false_2 by congruence.
Qed.

Lemma mult_app x l k : mult x (l ++ k) = mult x l + mult x k.
Proof.
  induction l as [|y l IH]; [unfold mult; simpl; lia|].
  cbn [app]. rewrite !mult_cons, IH. lia.
Qed.

Section RowQuantity.
Variable φ : Row → Z.
Variable cg : Z → Z → Z.
Variable cr : Z.
Hypothesis φ_new : ∀ id nm, φ (mkRow id nm 0 0 0 0 0 0 0) = 0.
Hypothesis φ_game : ∀ pf pa r, φ (addGame pf pa r) = φ r + cg pf pa.
Hypothesis φ_won : ∀ r, φ (addWon r) = φ r + cr.
Hypothesis φ_lost : ∀ r, φ (addLost r) = φ r + cr.
Hypothesis φ_tied : ∀ r, φ (addTied r) = φ r + cr.

Lemma rowVal_touch idToName f c rows id x :
  keepsPlayer f → (∀ r, φ (f r) = φ r + c) →
  rowVal φ x (touch idToName f rows id)
  = rowVal φ x rows + (if bool_decide (x = id) then c else 0).
Proof.
  intros Hf Hc. unfold rowVal. rewrite rowOf_touch by done.
  case_bool_decide as Hx; [|lia]. subst. simpl. rewrite Hc.
  destruct (rowOf id rows); simpl; [done|]. by rewrite φ_new.
Qed.

Lemma rowVal_foldl_touch idToName f c ids rows x :
  keepsPlayer f → (∀ r, φ (f r) = φ r + c) →
  rowVal φ x (foldl (touch idToName f) rows ids)
  = rowVal φ x rows + c * mult x ids.
Proof.
  intros Hf Hc. revert rows.
  induction ids as [|id ids IH]; intros rows.
  - unfold mult. simpl. lia.
  - cbn [foldl]. rewrite IH, (rowVal_touch _ f c) by done.
    rewrite mult_cons. case_bool_decide; lia.
Qed.

Lemma rowVal_statsMatch idToName rows m x :
  rowVal φ x (statsMatch idToName rows m)
  = rowVal φ x rows
    + match validScore m with
      | Some sc =>
          cg (s_team1 sc) (s_team2 sc)
            * mult x [t_a (team1 m); t_b (team1 m)]
          + cg (s_team2 sc) (s_team1 sc)
            * mult x [t_a (team2 m); t_b (team2 m)]
          + cr * mult x (matchIds m)
      | None => 0
      end.
Proof.
  unfold statsMatch. destruct (validScore m) as [sc|]; [|lia].
  change (matchIds m) with ([t_a (team1 m); t_b (team1 m)]
                            ++ [t_a (team2 m); t_b (team2 m)]).
  rewrite mult_app. cbv zeta.
  repeat case_match;
    repeat first
      [ rewrite (rowVal_foldl_touch _ addWon cr _ _ _
                   keepsPlayer_addWon φ_won)
      | rewrite (rowVal_foldl_touch _ addLost cr _ _ _
                   keepsPlayer_addLost φ_lost)
      | rewrite (rowVal_foldl_touch _ addTied cr _ _ _
                   keepsPlayer_addTied φ_tied)
      | rewrite (rowVal_foldl_touch _ (addGame _ _) (cg _ _) _ _ _
                   (keepsPlayer_addGame _ _) (φ_game _ _)) ];
    rewrite ?mult_app; lia.
Qed.

Lemma rowVal_foldl_statsMatch idToName ms rows x :
  rowVal φ x (foldl (statsMatch idToName) rows ms)
  = rowVal φ x rows
    + sumZ ((λ m, match validScore m with
                  | Some sc =>
                      cg (s_team1 sc) (s_team2 sc)
                        * mult x [t_a (team1 m); t_b (team1 m)]
                      + cg (s_team2 sc) (s_team1 sc)
                        * mult x [t_a (team2 m); t_b (team2 m)]
                      + cr * mult x (matchIds m)
                  | None => 0
                  end) <$> ms).
Proof.
  revert rows. induction ms as [|m ms IH]; intros rows.
  - simpl. lia.
  - cbn [foldl]. rewrite IH, rowVal_statsMatch, fmap_cons, sumZ_cons. lia.
Qed.
End RowQuantity.

Lemma sumZ_zero {A} (f : A → Z) (l : list A) :
  (∀ x, x ∈ l → f x = 0) → sumZ (f <$> l) = 0.
Proof.
  induction l as [|x l IH]; intros H; [done|].
  rewrite fmap_cons, sumZ_cons, H, IH by set_solver. done.
Qed.

Lemma sumZ_elem_le {A} (f : A → Z) (l : list A) y :
  (∀ x, x ∈ l → 0 ≤ f x) → y ∈ l → f y ≤ sumZ (f <$> l).
Proof.
  induction l as [|x l IH]; intros H Hy; [by apply elem_of_nil in Hy|].
  rewrite fmap_cons, sumZ_cons.
  assert (0 ≤ sumZ (f <$> l)).
  { etrans; [|apply (sumZ_le (λ _, 0)); intros; apply H; set_solver].
    rewrite sumZ_const. lia. }
  apply elem_of_cons in Hy as [->|Hy].
  - lia.
  - assert (0 ≤ f x) by (apply H; set_solver).
    assert (f y ≤ sumZ (f <$> l)) by (apply IH; [intros; apply H; set_solver|done]).
    lia.
Qed.

Lemma rowOf_NoDup rows r :
  NoDup (player <$> rows) → r ∈ rows → rowOf (player r) rows = Some r.
Proof.
  unfold rowOf. induction rows as [|r0 rows IH]; intros Hnd Hr.
  - by apply elem_of_nil in Hr.
  - rewrite fmap_cons in Hnd. apply NoDup_cons in Hnd as [Hr0 Hnd].
    simpl. apply elem_of_cons in Hr as [->|Hr].
    + by rewrite bool_decide_eq_true_2.
    + rewrite bool_decide_eq_false_2; [by apply IH|].
      intros Heq. apply Hr0. rewrite Heq. by apply list_elem_of_fmap_2.
Qed.

(** X19.  Every row of the standings is consistent: the matches played
    are the matches won, tied and lost together; points for and points
    against make 24 for every match played; and a player who has a row has
    played at least one match. *)
Theorem computeStats_row_invariants
    (localeCompare : string → string → Z)
    (schedule : list Round) (players : list Player) (r : Row) :
  r ∈ computeStats localeCompare schedule players →
  played r = won r + tied r + lost r
  ∧ pointsFor r + pointsAgainst r = 24 * played r
  ∧ 1 ≤ played r.
Proof.
  unfold computeStats. rewrite arraySort_Permutation.
  set (idToName := newMap _).
  intros (r0 & -> & Hr0)%list_elem_of_fmap.
  pose proof (statsRows_NoDup idToName schedule) as Hnd.
  pose proof (rowOf_NoDup _ _ Hnd Hr0) as Hrow.
  assert (∀ φ, rowVal φ (player r0) (statsRows idToName schedule) = φ r0)
    as Hval by (intros φ; unfold rowVal; by rewrite Hrow).
  unfold statsRows in *. rewrite foldl_allMatches in *.
  split_and!.
  - pose proof (Hval unclassified) as H1.
    rewrite (rowVal_foldl_statsMatch unclassified (λ _ _, 1) (-1)) in H1
      by (intros; unfold unclassified; simpl; lia).
    rewrite sumZ_zero in H1; cycle 1.
    { intros m _. destruct (validScore m); [|done].
      change (matchIds m) with ([t_a (team1 m); t_b (team1 m)]
                                ++ [t_a (team2 m); t_b (team2 m)]).
      rewrite mult_app. lia. }
    unfold unclassified, rowVal in H1. simpl in *. lia.
  - pose proof (Hval pointsExcess) as H2.
    rewrite (rowVal_foldl_statsMatch pointsExcess
               (λ pf pa, pf + pa - 24) 0) in H2
      by (intros; unfold pointsExcess; simpl; lia).
    rewrite sumZ_zero in H2; cycle 1.
    { intros m _. unfold validScore.
      destruct (score m) as [sc|]; [|done].
      case_bool_decide; [done|]. lia. }
    unfold pointsExcess, rowVal in H2. simpl in *. lia.
  - pose proof (Hval played) as H3.
    rewrite (rowVal_foldl_statsMatch played (λ _ _, 1) 0) in H3
      by (intros; simpl; lia).
    assert (player r0 ∈ player <$> foldl (statsMatch idToName) []
                                     (allMatches schedule)) as Hin
      by (by apply list_elem_of_fmap_2).
    apply foldl_statsMatch_elem in Hin as [(m & Hm & [sc Hsc] & Hx)|Hin];
      [|by apply elem_of_nil in Hin].
    set (g := λ m : Match, match validScore m with
               | Some sc => 1 * mult (player r0) [t_a (team1 m); t_b (team1 m)]
                            + 1 * mult (player r0) [t_a (team2 m); t_b (team2 m)]
                            + 0 * mult (player r0) (matchIds m)
               | None => 0 end) in H3.
    assert (g m ≤ sumZ (g <$> allMatches schedule)) as Hle.
    { apply sumZ_elem_le; [|done]. intros m' _. unfold g.
      destruct (validScore m'); [|done].
      pose proof (mult_nonneg (player r0) [t_a (team1 m'); t_b (team1 m')]).
      pose proof (mult_nonneg (player r0) [t_a (team2 m'); t_b (team2 m')]).
      lia. }
    assert (1 ≤ g m).
    { unfold g. rewrite Hsc.
      assert (1 ≤ mult (player r0) (matchIds m)) as H1.
      { apply list_elem_of_split in Hx as (l1 & l2 & ->).
        rewrite mult_app, mult_cons, bool_decide_eq_true_2 by done.
        pose proof (mult_nonneg (player r0) l1).
        pose proof (mult_nonneg (player r0) l2). lia. }
      change (matchIds m) with ([t_a (team1 m); t_b (team1 m)]
                                ++ [t_a (team2 m); t_b (team2 m)]) in H1.
      rewrite mult_app in H1. lia. }
    unfold rowVal in H3. simpl in *. lia.
Qed.

(** ** Renaming a player *)

Lemma findName_updateName_other id nm players x :
  x ≠ id → findName (updateName id nm players) x = findName players x.
Proof.
  intros Hx. unfold findName, updateName.
  induction players as [|p players IH]; [done|].
  cbn [fmap list_fmap List.find].
  destruct (decide (p_id p = id)) as [Hp|Hp].
  - rewrite (bool_decide_eq_true_2 _ Hp). cbn [p_id].
    rewrite !bool_decide_eq_false_2 by congruence. exact IH.
  - rewrite (bool_decide_eq_false_2 _ Hp).
    destruct (bool_decide (p_id p = x)); [done|exact IH].
Qed.

(** X20.  [updateName] changes names only: the ids stay as they are, in
    the same order; the player with the given id is displayed under the
    new name (or under the id, when the new name is empty); every other
    player is displayed as before. *)
Theorem updateName_spec (id nm : string) (players : list Player) :
  p_id <$> updateName id nm players = p_id <$> players
  ∧ (id ∈ p_id <$> players →
       findName (updateName id nm players) id = orStr nm id)
  ∧ (∀ x, x ≠ id →
       findName (updateName id nm players) x = findName players x)
  ∧ (id ∉ p_id <$> players → updateName id nm players = players).
Proof.
  split_and!.
  - unfold updateName. rewrite <- list_fmap_compose.
    apply list_fmap_ext. intros i p _. simpl. by case_bool_decide.
  - unfold findName, updateName.
    induction players as [|p players IH]; intros Hin.
    + by apply elem_of_nil in Hin.
    + cbn [fmap list_fmap List.find].
      destruct (decide (p_id p = id)) as [Hp|Hp].
      * rewrite (bool_decide_eq_true_2 _ Hp). cbn [p_id p_name].
        by rewrite bool_decide_eq_true_2.
      * rewrite !(bool_decide_eq_false_2 _ Hp). apply IH.
        rewrite fmap_cons in Hin. by apply elem_of_cons in Hin as [?|?].
  - intros x Hx. by apply findName_updateName_other.
  - unfold updateName. induction players as [|p players IH]; intros Hn;
      [done|].
    rewrite fmap_cons in Hn. apply not_elem_of_cons in Hn as [Hp Hn].
    cbn [fmap list_fmap]. rewrite bool_decide_eq_false_2 by congruence.
    f_equal. by apply IH.
Qed.

(** ** The Duo rule of the printable view *)

Lemma lowerChar_white c : isWhite c = true → lowerChar c = c.
Proof.
  unfold isWhite, lowerChar. intros H%bool_decide_eq_true.
  rewrite !elem_of_cons in H.
  destruct H as [->|[->|[->|[->|[->|[->|[->|H]]]]]]];
    [reflexivity..|by apply elem_of_nil in H].
Qed.

Lemma trimStartL_not_white c l :
  isWhite c = false → trimStartL (c :: l) = c :: l.
Proof. intros H. simpl. by rewrite H. Qed.

Lemma lowerChar_letter_not_white c x :
  lowerChar c = x → isWhite x = false → isWhite c = false.
Proof.
  intros Hc Hx. destruct (isWhite c) eqn:Hw; [|done].
  rewrite (lowerChar_white c Hw) in Hc. congruence.
Qed.

Lemma isDuoNamePrint_trim name :
  isDuoNamePrint name = true → trim name = name.
Proof.
  unfold isDuoNamePrint. rewrite orb_true_iff, !bool_decide_eq_true.
  intros [H|H].
  - destruct name as [|c1 [|c2 [|c3 [|c4 [|c5 [|c6 [|]]]]]]]; try done.
    injection H as H1 _ _ _ _ H6.
    apply lowerChar_letter_not_white in H1; [|done].
    apply lowerChar_letter_not_white in H6; [|done].
    unfold trim. cbn [list_ascii_of_string].
    rewrite trimStartL_not_white by done.
    change (reverse [c1; c2; c3; c4; c5; c6]) with [c6; c5; c4; c3; c2; c1].
    rewrite trimStartL_not_white by done. reflexivity.
  - destruct name as [|c1 [|c2 [|c3 [|c4 [|c5 [|]]]]]]; try done.
    injection H as H1 _ _ _ H5.
    apply lowerChar_letter_not_white in H1; [|done].
    apply lowerChar_letter_not_white in H5; [|done].
    unfold trim. cbn [list_ascii_of_string].
    rewrite trimStartL_not_white by done.
    change (reverse [c1; c2; c3; c4; c5]) with [c5; c4; c3; c2; c1].
    rewrite trimStartL_not_white by done. reflexivity.
Qed.

Lemma isDuoNamePrint_isDuoName name :
  isDuoNamePrint name = true → isDuoName name = true.
Proof.
  intros H. pose proof (isDuoNamePrint_trim name H) as Ht.
  unfold isDuoName, lower. by rewrite Ht.
Qed.

(** X21.  The printable view finds the Duo by a stricter rule than the
    generator: it does not trim the names.  Every player it takes for a
    member of the Duo is one for the generator, in the same order, and the
    two rules agree when no name has white space at its ends. *)
Theorem duoIdsPrint_spec (players : list Player) :
  (∀ name, isDuoNamePrint name = true → isDuoName name = true)
  ∧ duoIdsPrint players `sublist_of` duoIds players
  ∧ ((∀ p, p ∈ players → trim (p_name p) = p_name p) →
       duoIdsPrint players = duoIds players).
Proof.
  split; [apply isDuoNamePrint_isDuoName|]. split.
  - unfold duoIdsPrint, duoIds. apply fmap_sublist.
    induction players as [|p players IH]; [done|].
    rewrite !filter_cons.
    destruct (isDuoNamePrint (p_name p)) eqn:Hp.
    + rewrite (isDuoNamePrint_isDuoName _ Hp).
      rewrite !decide_True by done. by apply sublist_skip.
    + rewrite (decide_False (P := Is_true false)) by (by intros ?).
      case_decide; [by apply sublist_cons|done].
  - intros Htrim. unfold duoIdsPrint, duoIds. f_equal.
    induction players as [|p players IH]; [done|].
    rewrite !filter_cons.
    assert (isDuoNamePrint (p_name p) = isDuoName (p_name p)) as ->.
    { unfold isDuoNamePrint, isDuoName, lower.
      rewrite (Htrim p) by (apply elem_of_cons; by left). done. }
    rewrite IH; [done|]. intros q Hq. apply Htrim. apply elem_of_cons; by right.
Qed.

(** ** Escaping in the printable view and in the CSV export *)

Lemma append_String c s t : String c s +:+ t = String c (s +:+ t).
Proof. reflexivity. Qed.

Lemma append_Empty t : EmptyString +:+ t = t.
Proof. reflexivity. Qed.

Lemma append_assoc_s (a b c : string) : (a +:+ b) +:+ c = a +:+ (b +:+ c).
Proof.
  induction a as [|x a IH]; [done|]. rewrite !append_String. by rewrite IH.
Qed.

Lemma replaceAllChar_ne c rep x s :
  x ≠ c → replaceAllChar c rep (String x s) = String x (replaceAllChar c rep s).
Proof. intros H. cbn [replaceAllChar]. by rewrite bool_decide_eq_false_2. Qed.

Lemma replaceAllChar_eq c rep s :
  replaceAllChar c rep (String c s) = rep +:+ replaceAllChar c rep s.
Proof. cbn [replaceAllChar]. by rewrite bool_decide_eq_true_2. Qed.

Lemma htmlEscape_cons c s :
  htmlEscape (String c s) = escChar c +:+ htmlEscape s.
Proof.
  unfold htmlEscape, escChar.
  destruct (decide (c = "&"%char)) as [->|H1].
  { rewrite replaceAllChar_eq, bool_decide_eq_true_2 by done.
    rewrite !append_String, append_Empty.
    by rewrite !replaceAllChar_ne by done. }
  rewrite (bool_decide_eq_false_2 _ H1), (replaceAllChar_ne _ _ _ _ H1).
  destruct (decide (c = "<"%char)) as [->|H2].
  { rewrite replaceAllChar_eq, bool_decide_eq_true_2 by done.
    rewrite !append_String, append_Empty.
    by rewrite !replaceAllChar_ne by done. }
  rewrite (bool_decide_eq_false_2 _ H2), (replaceAllChar_ne _ _ _ _ H2).
  destruct (decide (c = ">"%char)) as [->|H3].
  { by rewrite replaceAllChar_eq, bool_decide_eq_true_2 by done. }
  by rewrite (bool_decide_eq_false_2 _ H3), (replaceAllChar_ne _ _ _ _ H3).
Qed.

Lemma escChar_cases c :
  (c = "&"%char ∧ escChar c = "&amp;")
  ∨ (c = "<"%char ∧ escChar c = "&lt;")
  ∨ (c = ">"%char ∧ escChar c = "&gt;")
  ∨ (c ≠ "&"%char ∧ c ≠ "<"%char ∧ c ≠ ">"%char
     ∧ escChar c = String c EmptyString).
Proof.
  unfold escChar.
  destruct (decide (c = "&"%char)) as [->|H1]; [by left|].
  destruct (decide (c = "<"%char)) as [->|H2]; [by right; left|].
  destruct (decide (c = ">"%char)) as [->|H3]; [by right; right; left|].
  right; right; right.
  by rewrite !bool_decide_eq_false_2 by done.
Qed.

(** X22.  [htmlEscape] leaves no angle bracket in its result, returns a
    text without [&], [<] and [>] unchanged, and never maps two different
    texts to the same result. *)
Theorem htmlEscape_spec :
  (∀ s, Forall (λ c, c ≠ "<"%char ∧ c ≠ ">"%char)
          (list_ascii_of_string (htmlEscape s)))
  ∧ (∀ s, Forall (λ c, c ≠ "&"%char ∧ c ≠ "<"%char ∧ c ≠ ">"%char)
            (list_ascii_of_string s) → htmlEscape s = s)
  ∧ (∀ s1 s2, htmlEscape s1 = htmlEscape s2 → s1 = s2).
Proof.
  split_and!.
  - induction s as [|c s IH]; [constructor|].
    rewrite htmlEscape_cons.
    destruct (escChar_cases c)
      as [[_ ->]|[[_ ->]|[[_ ->]|(_ & H2 & H3 & ->)]]];
      rewrite ?append_String, ?append_Empty; cbn [list_ascii_of_string];
      repeat (constructor; [done|]); exact IH.
  - induction s as [|c s IH]; [done|].
    cbn [list_ascii_of_string]. intros [(H1 & H2 & H3) Hs]%Forall_cons.
    rewrite htmlEscape_cons, (IH Hs).
    destruct (escChar_cases c)
      as [[? _]|[[? _]|[[? _]|(_ & _ & _ & ->)]]]; done.
  - induction s1 as [|c s1 IH]; intros [|d s2].
    + done.
    + rewrite htmlEscape_cons.
      destruct (escChar_cases d)
        as [[_ ->]|[[_ ->]|[[_ ->]|(_ & _ & _ & ->)]]]; done.
    + rewrite htmlEscape_cons.
      destruct (escChar_cases c)
        as [[_ ->]|[[_ ->]|[[_ ->]|(_ & _ & _ & ->)]]]; done.
    + rewrite !htmlEscape_cons.
      destruct (escChar_cases c)
        as [[-> ->]|[[-> ->]|[[-> ->]|(Hc1 & Hc2 & Hc3 & ->)]]];
      destruct (escChar_cases d)
        as [[-> ->]|[[-> ->]|[[-> ->]|(Hd1 & Hd2 & Hd3 & ->)]]];
      rewrite ?append_String, ?append_Empty; intros Heq; try discriminate Heq;
        try (injection Heq as Heq; f_equal; by apply IH);
        try (injection Heq as Heq' Heq; congruence).
      injection Heq as -> Heq. f_equal. by apply IH.
Qed.

(** *** Quoting of CSV fields *)

Lemma quoteBody_inj x y r1 r2 :
  noQuoteAhead r1 → noQuoteAhead r2 →
  quoteBody x +:+ String dquote r1 = quoteBody y +:+ String dquote r2 →
  x = y ∧ r1 = r2.
Proof.
  unfold quoteBody. revert y.
  induction x as [|c x IH]; intros [|d y] H1 H2; cbn [replaceAllChar].
  - rewrite ?append_String, ?append_Empty. intros [= ->]. done.
  - destruct (decide (d = dquote)) as [->|Hd].
    + rewrite bool_decide_eq_true_2 by done.
      rewrite ?append_String, ?append_Empty.
      intros [= ->]. by destruct H1.
    + rewrite bool_decide_eq_false_2 by done.
      rewrite ?append_String, ?append_Empty.
      intros [= <- _]. done.
  - destruct (decide (c = dquote)) as [->|Hc].
    + rewrite bool_decide_eq_true_2 by done.
      rewrite ?append_String, ?append_Empty.
      intros [= <-]. by destruct H2.
    + rewrite bool_decide_eq_false_2 by done.
      rewrite ?append_String, ?append_Empty.
      intros [= -> _]. done.
  - destruct (decide (c = dquote)) as [->|Hc];
      destruct (decide (d = dquote)) as [->|Hd];
      rewrite ?bool_decide_eq_true_2 by done;
      rewrite ?(bool_decide_eq_false_2 _ Hc);
      rewrite ?(bool_decide_eq_false_2 _ Hd);
      rewrite ?append_String, ?append_Empty.
    + intros [= Heq]. destruct (IH y H1 H2 Heq) as [-> ->]. done.
    + intros [= <- _]. done.
    + intros [= -> _]. done.
    + intros [= -> Heq]. destruct (IH y H1 H2 Heq) as [-> ->]. done.
Qed.

Lemma csvField_append x rest :
  csvField x +:+ rest = String dquote (quoteBody x +:+ String dquote rest).
Proof.
  unfold csvField, quoteBody.
  by rewrite append_String, append_assoc_s, append_String, append_Empty.
Qed.

Lemma csvLine_cons x r :
  csvLine (x :: r) =
  csvField x +:+ match r with [] => "" | _ :: _ => "," +:+ csvLine r end.
Proof.
  unfold csvLine. destruct r as [|y r]; cbn [fmap list_fmap String.concat].
  - clear. induction (csvField x) as [|c s IH]; [done|].
    rewrite append_String. by rewrite <- IH.
  - done.
Qed.

Lemma csvLine_inj r1 r2 rest1 rest2 :
  r1 ≠ [] → r2 ≠ [] → lineEnd rest1 → lineEnd rest2 →
  csvLine r1 +:+ rest1 = csvLine r2 +:+ rest2 →
  r1 = r2 ∧ rest1 = rest2.
Proof.
  revert r2. induction r1 as [|x r1 IH]; intros [|y r2] N1 N2 E1 E2;
    try done.
  rewrite !csvLine_cons, !append_assoc_s, !csvField_append.
  intros [= Heq]. apply quoteBody_inj in Heq as [-> Heq].
  - destruct r1 as [|x1 r1], r2 as [|y2 r2];
      rewrite ?append_String, ?append_Empty in Heq.
    + by subst.
    + subst rest1. by cbn in E1.
    + subst rest2. by cbn in E2.
    + injection Heq as Heq.
      destruct (IH (y2 :: r2)) as [-> ->]; done.
  - destruct r1; [|done]. destruct rest1; [done|]. cbn in *. by subst.
  - destruct r2; [|done]. destruct rest2; [done|]. cbn in *. by subst.
Qed.

Lemma csvText_cons r rows :
  csvText (r :: rows) =
  csvLine r +:+
  match rows with
  | [] => ""
  | _ :: _ => String "010"%char EmptyString +:+ csvText rows
  end.
Proof.
  unfold csvText. destruct rows as [|r' rows];
    cbn [fmap list_fmap String.concat].
  - fold (csvLine r). clear. induction (csvLine r) as [|c s IH]; [done|].
    rewrite append_String. by rewrite <- IH.
  - done.
Qed.

Lemma csvText_inj rows1 rows2 :
  Forall (λ r, r ≠ []) rows1 → Forall (λ r, r ≠ []) rows2 →
  csvText rows1 = csvText rows2 → rows1 = rows2.
Proof.
  revert rows2. induction rows1 as [|r1 rows1 IH]; intros [|r2 rows2] F1 F2.
  - done.
  - apply Forall_cons in F2 as [N2 _]. rewrite csvText_cons.
    destruct r2 as [|y r2]; [done|]. rewrite csvLine_cons, csvField_append.
    by intros [=].
  - apply Forall_cons in F1 as [N1 _]. rewrite csvText_cons.
    destruct r1 as [|y r1]; [done|]. rewrite csvLine_cons, csvField_append.
    by intros [=].
  - apply Forall_cons in F1 as [N1 F1]. apply Forall_cons in F2 as [N2 F2].
    rewrite !csvText_cons. intros Heq.
    apply csvLine_inj in Heq as [-> Heq]; try done.
    + destruct rows1 as [|r1' rows1], rows2 as [|r2' rows2];
        rewrite ?append_String, ?append_Empty in Heq; try done.
      injection Heq as Heq. f_equal. by apply IH.
    + by destruct rows1.
    + by destruct rows2.
Qed.

Lemma csvRows_shape idToName schedule :
  Forall (λ r, length r = 5%nat) (csvRows idToName schedule)
  ∧ length (csvRows idToName schedule) = S (length (allMatches schedule)).
Proof.
  unfold csvRows, allMatches. split.
  - constructor; [done|].
    apply Forall_forall. intros r (rd & Hr & _)%list_elem_of_bind.
    apply list_elem_of_fmap in Hr as (m & -> & _). done.
  - cbn [length]. f_equal.
    induction schedule as [|rd schedule IH]; [done|].
    rewrite !bind_cons, !length_app, length_fmap. by rewrite IH.
Qed.

(** X23.  The CSV export writes five fields on every line, one line for
    the header and one for each match, and its quoting loses nothing:
    two exports with the same text were made from the same table, also
    when names contain quotes, commas or line feeds. *)
Theorem exportCSV_lossless (players players' : list Player)
    (schedule schedule' : list Round) :
  exportCSV players schedule = exportCSV players' schedule' →
  csvRows (newMap ((λ p, (p_id p, p_name p)) <$> players)) schedule
  = csvRows (newMap ((λ p, (p_id p, p_name p)) <$> players')) schedule'
  ∧ Forall (λ r, length r = 5%nat)
      (csvRows (newMap ((λ p, (p_id p, p_name p)) <$> players)) schedule)
  ∧ length (csvRows (newMap ((λ p, (p_id p, p_name p)) <$> players)) schedule)
    = S (length (allMatches schedule)).
Proof.
  intros Heq. split; [|apply csvRows_shape].
  apply csvText_inj; [| |exact Heq];
    (eapply Forall_impl; [apply csvRows_shape|]);
    intros [|] ?; done.
Qed.

(** ** The diagnostic counts *)

Lemma bump_lookup k map x v :
  map !! x = Some v →
  bump k map !! x = Some (v + if bool_decide (x = k) then 1 else 0).
Proof.
  intros Hx. unfold bump. destruct (decide (x = k)) as [->|Hk].
  - rewrite lookup_insert_eq, Hx, bool_decide_eq_true_2 by done.
    unfold orNum. destruct (v =? 0) eqn:Hv; [|done].
    apply Z.eqb_eq in Hv. by subst.
  - rewrite lookup_insert_ne, bool_decide_eq_false_2 by done.
    rewrite Hx. f_equal. lia.
Qed.

Lemma hasDM_comm D M t : hasDM M D t = hasDM D M t.
Proof. unfold hasDM. apply andb_comm. Qed.

Lemma builtRound_countMatch D M others dmOpp rd map :
  builtRound D M others dmOpp rd →
  foldl (countMatch D M) map (matches rd) = bump dmOpp.2 (bump dmOpp.1 map).
Proof.
  intros (a8 & b8 & c8 & d8 & a9 & b9 & c9 & d9 & Hm & Hnd & _).
  apply NoDup_cons in Hnd as [HD _].
  rewrite !elem_of_cons in HD.
  rewrite Hm. cbn [foldl]. unfold countMatch. cbn [team1 team2 t_a t_b].
  rewrite hasDM_duo.
  rewrite !hasDM_outside by (intros ->; apply HD; tauto).
  done.
Qed.

Lemma countRounds_lookup D M others res schedule map x v :
  Forall2 (builtRound D M others) res schedule →
  map !! x = Some v →
  foldl (λ map r, foldl (countMatch D M) map (matches r)) map schedule !! x
  = Some (v + occ x res).
Proof.
  intros HF. revert map v.
  induction HF as [|[a b] rd res schedule Hb _ IH]; intros map v Hx.
  - cbn [foldl occ]. rewrite Hx. f_equal. lia.
  - cbn [foldl]. rewrite (builtRound_countMatch _ _ _ _ _ _ Hb).
    cbn [fst snd].
    erewrite IH; [|apply bump_lookup, bump_lookup, Hx].
    cbn [occ]. f_equal. lia.
Qed.

Lemma countRounds_comm D M map schedule :
  foldl (λ map r, foldl (countMatch M D) map (matches r)) map schedule
  = foldl (λ map r, foldl (countMatch D M) map (matches r)) map schedule.
Proof.
  revert map. induction schedule as [|rd schedule IH]; intros map; [done|].
  cbn [foldl]. rewrite IH. f_equal.
  generalize (matches rd). clear. intros ms. revert map.
  induction ms as [|m ms IH]; intros map; [done|].
  cbn [foldl]. rewrite IH. f_equal.
  unfold countMatch. by rewrite !(hasDM_comm D M).
Qed.

Lemma occ_outside x res :
  Forall (λ p : string * string, x ≠ p.1 ∧ x ≠ p.2) res → occ x res = 0.
Proof.
  induction 1 as [|[a b] res [Ha Hb] _ IH]; [done|].
  cbn [occ]. cbn [fst snd] in Ha, Hb.
  by rewrite !bool_decide_eq_false_2, IH by done.
Qed.

Lemma NoDup_fmap_elems {A B} (f : A → B) (l : list A) x y :
  NoDup (f <$> l) → x ∈ l → y ∈ l → f x = f y → x = y.
Proof.
  intros Hnd (i & Hi)%list_elem_of_lookup (j & Hj)%list_elem_of_lookup Hf.
  assert (i = j) as ->; [|congruence].
  eapply NoDup_lookup; [exact Hnd| |].
  - by rewrite list_lookup_fmap, Hi.
  - by rewrite list_lookup_fmap, Hj, Hf.
Qed.

Lemma find_lower_name nm players p :
  p ∈ players → lower (p_name p) = nm →
  ∃ q, List.find (λ p, bool_decide (lower (p_name p) = nm)) players = Some q
       ∧ q ∈ players ∧ lower (p_name q) = nm.
Proof.
  intros Hp Hn.
  destruct (List.find _ players) as [q|] eqn:Hf.
  - apply find_some in Hf as [Hq Hq'].
    exists q. split; [done|]. split; [by apply list_elem_of_In|].
    by apply bool_decide_eq_true in Hq'.
  - apply list_elem_of_In in Hp.
    pose proof (find_none _ _ Hf p Hp) as Hp'. cbn beta in Hp'.
    by rewrite bool_decide_eq_true_2 in Hp'.
Qed.

Lemma zero_map_lookup players x :
  x ∈ p_id <$> players →
  newMap ((λ p, (p_id p, 0)) <$> players) !! x = Some 0.
Proof.
  intros Hx. unfold newMap.
  replace ((λ p, (p_id p, 0)) <$> players)
    with ((λ id : string, (id, 0)) <$> (p_id <$> players))
    by (by rewrite <- list_fmap_compose).
  rewrite newMap_lookup_zero. by rewrite bool_decide_eq_true_2.
Qed.

Lemma dmOppCounts_lookup localeCompare players seed schedule x :
  generateSchedule localeCompare players seed = Ok schedule →
  (∃ pd pm, pd ∈ players ∧ pm ∈ players
            ∧ lower (p_name pd) = "daniel" ∧ lower (p_name pm) = "macho") →
  "" ∉ p_id <$> players →
  x ∈ p_id <$> players →
  dmOppCounts schedule players !! x
  = Some (if bool_decide (x ∈ duoIds players) then 0 else 3).
Proof.
  intros Hgen.
  intros (pd0 & pm0 & Hpd0 & Hpm0 & Hnd0 & Hnm0) Hne Hx.
  pose proof (generateSchedule_NoDup_ids _ _ _ _ Hgen) as Hnd.
  destruct (generateSchedule_structure _ _ _ _ Hgen)
    as (D & M & res & _ & Hduo & Hlen & _ & Hres & HF & _).
  destruct (find_lower_name _ _ _ Hpd0 Hnd0) as (pd & Hfd & Hpd & Hnd').
  destruct (find_lower_name _ _ _ Hpm0 Hnm0) as (pm & Hfm & Hpm & Hnm').
  assert (NoDup (otherIds D M players)) as Hndo.
  { eapply sublist_NoDup; [exact Hnd|apply otherIds_sublist]. }
  destruct (buildBalancedDmOpponents_balanced _ _ _ Hndo Hlen Hres)
    as (_ & Hpairs & Hocc).
  assert (∀ p, p ∈ players → isDuoName (p_name p) = true →
               p_id p ∈ [D; M]) as Hin.
  { intros p Hp Hd. rewrite <- Hduo. unfold duoIds.
    apply list_elem_of_fmap. exists p. split; [done|].
    apply list_elem_of_filter. split; [by rewrite Hd|done]. }
  assert (p_id pd ∈ [D; M]) as HdD.
  { apply Hin; [done|]. unfold isDuoName. rewrite Hnd'. done. }
  assert (p_id pm ∈ [D; M]) as HmM.
  { apply Hin; [done|]. unfold isDuoName. rewrite Hnm'. done. }
  assert (p_id pd ≠ p_id pm) as Hdm.
  { intros Heq.
    pose proof (NoDup_fmap_elems p_id players pd pm Hnd Hpd Hpm Heq).
    subst pm. rewrite Hnd' in Hnm'. discriminate. }
  assert (p_id pd ≠ "" ∧ p_id pm ≠ "") as [Hd0 Hm0].
  { split; intros Heq; apply Hne; rewrite <- Heq;
      apply list_elem_of_fmap; eauto. }
  assert (dmOppCounts schedule players
          = foldl (λ map r, foldl (countMatch D M) map (matches r))
              (newMap ((λ p, (p_id p, 0)) <$> players)) schedule) as ->.
  { unfold dmOppCounts. rewrite Hfd, Hfm. cbn [fmap option_fmap option_map].
    rewrite !bool_decide_eq_false_2 by done. cbn [orb].
    rewrite !elem_of_cons in HdD, HmM.
    destruct HdD as [HdD|[HdD|HdD%elem_of_nil]]; [| |done];
      destruct HmM as [HmM|[HmM|HmM%elem_of_nil]]; try done;
      try congruence; rewrite HdD, HmM; [done|].
    apply countRounds_comm. }
  rewrite (countRounds_lookup _ _ _ _ _ _ x 0 HF (zero_map_lookup _ _ Hx)).
  f_equal. rewrite Hduo.
  destruct (decide (x ∈ [D; M])) as [Hduo'|Hoth].
  + rewrite bool_decide_eq_true_2 by done.
    rewrite occ_outside; [done|].
    eapply Forall_impl; [exact Hpairs|].
    intros p (H1 & H2 & _).
    apply otherIds_not_duo in H1, H2.
    rewrite !elem_of_cons in Hduo'.
    destruct Hduo' as [->|[->|?%elem_of_nil]]; [| |done];
      split; intros Heq; rewrite <- Heq in *; tauto.
  + rewrite bool_decide_eq_false_2 by done.
    rewrite Hocc; [done|].
    apply list_elem_of_fmap in Hx as (p & -> & Hp).
    unfold otherIds. apply list_elem_of_fmap. exists p. split; [done|].
    apply list_elem_of_filter. split; [|done].
    rewrite !elem_of_cons in Hoth. split; intros Heq; apply Hoth; tauto.
Qed.

(** X24.  The diagnostic counts on a generated schedule.  When one player
    is called Daniel and one Macho, and no id is empty, the panel counts
    0 for the two members of the Duo and 3 for every other player.  When
    no player is called Daniel, or none Macho, as with a Duo of two
    Daniels that the generator accepts, every count is 0. *)
Theorem dmOppCounts_spec (localeCompare : string → string → Z)
    (players : list Player) (seed : Z) (schedule : list Round) :
  generateSchedule localeCompare players seed = Ok schedule →
  ((∃ pd pm, pd ∈ players ∧ pm ∈ players
             ∧ lower (p_name pd) = "daniel" ∧ lower (p_name pm) = "macho") →
   "" ∉ p_id <$> players →
   ∀ x, x ∈ p_id <$> players →
     dmOppCounts schedule players !! x
     = Some (if bool_decide (x ∈ duoIds players) then 0 else 3))
  ∧ ((∀ p, p ∈ players → lower (p_name p) ≠ "daniel")
     ∨ (∀ p, p ∈ players → lower (p_name p) ≠ "macho") →
     ∀ x, x ∈ p_id <$> players → dmOppCounts schedule players !! x = Some 0).
Proof.
  intros Hgen. split.
  - intros Hex Hne x Hx. by eapply dmOppCounts_lookup.
  - intros Hnone x Hx.
    assert (dmOppCounts schedule players
            = newMap ((λ p, (p_id p, 0)) <$> players)) as ->;
      [|by apply zero_map_lookup].
    unfold dmOppCounts.
    destruct Hnone as [Hnone|Hnone].
    + destruct (List.find _ players) as [q|] eqn:Hf; [|done].
      apply find_some in Hf as [Hq Hq'%bool_decide_eq_true].
      destruct (Hnone q); [by apply list_elem_of_In|done].
    + destruct (List.find (λ p, bool_decide (lower (p_name p) = "macho"))
                  players) as [q|] eqn:Hf.
      * apply find_some in Hf as [Hq Hq'%bool_decide_eq_true].
        destruct (Hnone q); [by apply list_elem_of_In|done].
      * by destruct (p_id <$> List.find _ players).
Qed.

Lemma isDuoName_panelHidden name :
  trim name = name → isDuoName name = true → panelHidden name = true.
Proof.
  unfold isDuoName, lower, panelHidden. intros ->.
  rewrite !orb_true_iff, !bool_decide_eq_true.
  intros [H|H]; rewrite H; [left|right]; done.
Qed.

(** X25.  The diagnostic panel on a generated schedule: when one player
    is called Daniel and one Macho, no id is empty and no name has white
    space at its ends, every row of the panel shows 3, and the panel has
    at most ten rows. *)
Theorem panelRows_all_three (localeCompare : string → string → Z)
    (players : list Player) (seed : Z) (schedule : list Round) :
  generateSchedule localeCompare players seed = Ok schedule →
  (∃ pd pm, pd ∈ players ∧ pm ∈ players
            ∧ lower (p_name pd) = "daniel" ∧ lower (p_name pm) = "macho") →
  "" ∉ p_id <$> players →
  (∀ p, p ∈ players → trim (p_name p) = p_name p) →
  Forall (λ row, row.2 = 3)
    (panelRows players (dmOppCounts schedule players))
  ∧ (length (panelRows players (dmOppCounts schedule players)) ≤ 10)%nat.
Proof.
  intros Hgen Hex Hne Htrim.
  assert (∀ p, p ∈ players → panelHidden (p_name p) = false →
               p_id p ∉ duoIds players) as Hshown.
  { intros p Hp Hh (q & Hq & Hin)%list_elem_of_fmap.
    apply list_elem_of_filter in Hin as [Hd Hqin].
    pose proof (generateSchedule_NoDup_ids _ _ _ _ Hgen) as Hnd.
    pose proof (NoDup_fmap_elems p_id players p q Hnd Hp Hqin Hq). subst q.
    apply Is_true_true in Hd.
    rewrite (isDuoName_panelHidden _ (Htrim p Hp) Hd) in Hh. done. }
  split.
  - unfold panelRows. apply Forall_fmap, Forall_forall.
    intros p [Hh Hp]%list_elem_of_filter. unfold compose. cbn [snd].
    rewrite (dmOppCounts_lookup _ _ _ _ (p_id p) Hgen Hex Hne)
      by (apply list_elem_of_fmap; eauto).
    rewrite bool_decide_eq_false_2; [done|].
    apply Hshown; [done|]. by destruct (panelHidden (p_name p)).
  - unfold panelRows. rewrite length_fmap.
    destruct (generateSchedule_structure _ _ _ _ Hgen)
      as (D & M & res & _ & Hduo & Hlen & _).
    rewrite <- Hlen. unfold otherIds. rewrite length_fmap.
    apply sublist_length.
    clear Hlen. revert Hshown. rewrite Hduo. clear.
    induction players as [|p players IH]; intros Hshown; [done|].
    rewrite !filter_cons.
    assert (∀ q, q ∈ players → panelHidden (p_name q) = false →
                 p_id q ∉ [D; M]) as Hshown'.
    { intros q Hq. apply Hshown, elem_of_cons. by right. }
    destruct (panelHidden (p_name p)) eqn:Hh; cbn [negb].
    + rewrite (decide_False (P := Is_true false)) by (by intros ?).
      case_decide; [apply sublist_cons|]; by apply IH.
    + rewrite (decide_True (P := Is_true true)) by done.
      rewrite decide_True.
      * apply sublist_skip. by apply IH.
      * assert (p_id p ∉ [D; M]) as Hn
          by (apply Hshown; [apply elem_of_cons; by left|done]).
        rewrite !elem_of_cons in Hn. split; intros ?; apply Hn; tauto.
Qed.

(** ** Score entry and the statistics *)

(** X26.  A score entered with [setScoreAuto] always counts: whatever
    integer is typed, the four players of the match have a row in the
    standings afterwards, and when the Duo plays in the match, the Duo
    summary counts at least one match played. *)
Theorem entered_score_counts (localeCompare : string → string → Z)
    (prev next : list Round) (players : list Player)
    (roundIdx matchIdx : nat) (value side : Z) (r : Round) (m : Match) :
  setScoreAuto prev roundIdx matchIdx value side = Some next →
  prev !! roundIdx = Some r →
  matches r !! matchIdx = Some m →
  (∀ x, x ∈ matchIds m →
     x ∈ player <$> computeStats localeCompare next players)
  ∧ (∀ danielId machoId,
       duoPlays danielId machoId m = true →
       1 ≤ dm_played (dmSummary next danielId machoId)).
Proof.
  unfold setScoreAuto. intros H Hr Hm. rewrite Hr in H. simpl in H.
  rewrite Hm in H. simpl in H. injection H as <-.
  pose proof (lookup_lt_Some _ _ _ Hr) as Hlr.
  pose proof (lookup_lt_Some _ _ _ Hm) as Hlm.
  set (m' := mkMatch (court m) (team1 m) (team2 m)
               (Some (newScore (score m) value side))).
  set (r' := mkRound (round r) (<[matchIdx := m']> (matches r))).
  pose proof (newScore_valid (score m) value side) as (Hsum & _).
  assert (r' ∈ <[roundIdx := r']> prev) as Hr'.
  { apply list_elem_of_lookup. exists roundIdx.
    by rewrite list_lookup_insert_eq. }
  assert (m' ∈ matches r') as Hm'.
  { apply list_elem_of_lookup. exists matchIdx. unfold r'. cbn [matches].
    by rewrite list_lookup_insert_eq. }
  split.
  - intros x Hx. rewrite computeStats_players.
    apply statsRows_elem. exists r', m'. split_and!; try done.
    unfold validScore, m'. cbn [score].
    rewrite bool_decide_eq_false_2 by (by intros ?). by eexists.
  - intros danielId machoId Hduo.
    unfold dmSummary, dmTally. cbn [dm_played].
    rewrite foldl_allMatches, foldl_tallyMatch. cbn [tl_played].
    assert (m' ∈ filter (λ m, duoCounted danielId machoId m)
                   (allMatches (<[roundIdx := r']> prev))) as Hin.
    { apply list_elem_of_filter. split.
      - unfold duoCounted, m'. cbn [score].
        change (duoPlays danielId machoId
                  (mkMatch (court m) (team1 m) (team2 m)
                     (Some (newScore (score m) value side))))
          with (duoPlays danielId machoId m).
        rewrite Hduo. cbn [andb].
        by rewrite bool_decide_eq_true_2.
      - unfold allMatches. apply list_elem_of_bind. eauto. }
    destruct (filter _ _) as [|y l]; [by apply elem_of_nil in Hin|].
    cbn [length]. lia.
Qed.

(** ** The further properties at concrete inputs *)

Lemma shuffle_permutes_witness :
  (shuffle ["p3"; "p4"; "p5"; "p6"; "p7"; "p8"; "p9"; "p10"] 42).2
  = 42 + 7 * 0x6d2b79f5.
Proof.
  apply (shuffle_permutes
           ["p3"; "p4"; "p5"; "p6"; "p7"; "p8"; "p9"; "p10"] 42).
  - unfold safeInteger. lia.
  - unfold safeInteger. simpl. lia.
Defined.

Lemma setScoreAuto_valid_score_witness :
  ∃ next,
    setScoreAuto scoredExample 0 0 (-7) 2 = Some next
    ∧ ∃ r m sc,
        next !! 0%nat = Some r
        ∧ matches r !! 0%nat = Some m
        ∧ score m = Some sc
        ∧ validScore m = Some sc
        ∧ s_team1 sc + s_team2 sc = 24
        ∧ 0 ≤ s_team1 sc ≤ 24 ∧ 0 ≤ s_team2 sc ≤ 24.
Proof.
  eexists. split; [reflexivity|].
  apply (setScoreAuto_valid_score scoredExample _ 0 0 (-7) 2).
  reflexivity.
Defined.

Lemma setScoreAuto_overrides_witness :
  ∃ mid,
    setScoreAuto scoredExample 0 0 5 1 = Some mid
    ∧ setScoreAuto mid 0 0 9 2 = setScoreAuto scoredExample 0 0 9 2.
Proof.
  eexists. split; [reflexivity|].
  apply (setScoreAuto_overrides scoredExample _ 0 0 5 1 9 2).
  reflexivity.
Defined.

Lemma backtrack_final_state_witness :
  match backtrack codeUnitCompare (otherIds "p1" "p2" defaultPlayers) 15
          (initSearch (otherIds "p1" "p2" defaultPlayers)) with
  | (None, st') => st' = initSearch (otherIds "p1" "p2" defaultPlayers)
  | (Some res, st') =>
      length res = 15%nat
      ∧ (∀ x, getCount (counts st') x
              = getCount
                  (counts (initSearch (otherIds "p1" "p2" defaultPlayers))) x
                + occ x res)
      ∧ usedPair st'
        = list_to_set (pairKeys res)
          ∪ usedPair (initSearch (otherIds "p1" "p2" defaultPlayers))
  end.
Proof.
  apply (backtrack_final_state codeUnitCompare
           (otherIds "p1" "p2" defaultPlayers) 15
           (initSearch (otherIds "p1" "p2" defaultPlayers))).
  apply keysOK_initSearch.
Defined.

Lemma generateSchedule_no_repeated_opponents_witness :
  ¬ (duoOpponents (default (mkRound 0 []) (schedule42 !! 0%nat))
     ≡ₚ duoOpponents (default (mkRound 0 []) (schedule42 !! 1%nat))).
Proof.
  apply (generateSchedule_no_repeated_opponents codeUnitCompare
           defaultPlayers 42 schedule42 0 1).
  - vm_compute. reflexivity.
  - reflexivity.
  - reflexivity.
  - lia.
Defined.

Lemma buildBalancedDmOpponents_any_comparator_witness :
  ∃ res2,
    buildBalancedDmOpponents (λ a b, codeUnitCompare b a)
      (otherIds "p1" "p2" defaultPlayers) = Ok res2.
Proof.
  assert (∃ res1, buildBalancedDmOpponents codeUnitCompare
                    (otherIds "p1" "p2" defaultPlayers) = Ok res1)
    as [res1 Hres1] by (vm_compute; eexists; reflexivity).
  exact (buildBalancedDmOpponents_any_comparator codeUnitCompare
           (λ a b, codeUnitCompare b a)
           (otherIds "p1" "p2" defaultPlayers) res1 Hres1).
Defined.

Lemma buildBalancedDmOpponents_duplicate_ids_witness :
  buildBalancedDmOpponents codeUnitCompare
    ["p3"; "p3"; "p5"; "p6"; "p7"; "p8"; "p9"; "p10"; "p11"; "p12"]
  = Throw ErrBalance.
Proof.
  apply (buildBalancedDmOpponents_duplicate_ids codeUnitCompare).
  - reflexivity.
  - apply (proj1 (bool_decide_eq_false _)). vm_compute. reflexivity.
Defined.

Lemma generateSchedule_errors_witness :
  ErrRound 1 ∈ [ErrPlayers; ErrDuo; ErrOthers; ErrBalance]
  ∨ (ErrRound 1 = ErrRound 1 ∧ ∃ D, duoIds sharedDuoId = [D; D]).
Proof.
  apply (generateSchedule_errors codeUnitCompare sharedDuoId 42 (ErrRound 1)).
  vm_compute. reflexivity.
Defined.

Lemma generateSchedule_seed_independent_witness :
  ∃ schedule2,
    generateSchedule codeUnitCompare defaultPlayers 7 = Ok schedule2
    ∧ court7 <$> schedule2 = court7 <$> schedule42.
Proof.
  apply (generateSchedule_seed_independent codeUnitCompare defaultPlayers
           42 7 schedule42).
  vm_compute. reflexivity.
Defined.

Lemma generateSchedule_duplicate_ids_witness :
  ∃ e, generateSchedule codeUnitCompare sharedDuoId 42 = Throw e.
Proof.
  apply (generateSchedule_duplicate_ids codeUnitCompare sharedDuoId 42).
  apply (proj1 (bool_decide_eq_false _)). vm_compute. reflexivity.
Defined.

Lemma fresh_schedule_statistics_witness :
  computeStats codeUnitCompare schedule42 defaultPlayers = []
  ∧ dmSummary schedule42 "p1" "p2" = mkSummary 0 0 0 0 0.
Proof.
  apply (fresh_schedule_statistics codeUnitCompare defaultPlayers 42
           schedule42).
  vm_compute. reflexivity.
Defined.

Lemma fresh_schedule_game_log_witness :
  g_round <$> dmStats schedule42 "p1" "p2" defaultPlayers = seqZ 1 15.
Proof.
  apply (fresh_schedule_game_log codeUnitCompare defaultPlayers 42
           schedule42 "p1" "p2" defaultPlayers).
  - vm_compute. reflexivity.
  - vm_compute. reflexivity.
Defined.

Lemma pairRemaining_pairs_witness :
  mjoin (pairRemaining
           ["p3"; "p4"; "p5"; "p6"; "p7"; "p8"; "p9"; "p10"] 42).1
  ≡ₚ ["p3"; "p4"; "p5"; "p6"; "p7"; "p8"; "p9"; "p10"].
Proof.
  apply (pairRemaining_pairs
           ["p3"; "p4"; "p5"; "p6"; "p7"; "p8"; "p9"; "p10"] 42 4).
  reflexivity.
Defined.

Lemma computeStats_row_invariants_witness :
  2 = 2 + 0 + 0 ∧ 28 + 20 = 24 * 2 ∧ 1 ≤ 2.
Proof.
  apply (computeStats_row_invariants codeUnitCompare scoredExample
           defaultPlayers (mkRow "p5" "Player 5" 2 2 0 0 28 20 8)).
  vm_compute. apply elem_of_cons. by left.
Defined.

Lemma exportCSV_lossless_witness :
  csvRows (newMap ((λ p, (p_id p, p_name p)) <$> defaultPlayers))
    scoredExample
  = csvRows
      (newMap ((λ p, (p_id p, p_name p))
                 <$> defaultPlayers ++ [mkPlayer "p13" "Reserve"]))
      scoredExample
  ∧ Forall (λ r, length r = 5%nat)
      (csvRows (newMap ((λ p, (p_id p, p_name p)) <$> defaultPlayers))
         scoredExample)
  ∧ length (csvRows (newMap ((λ p, (p_id p, p_name p)) <$> defaultPlayers))
              scoredExample)
    = S (length (allMatches scoredExample)).
Proof.
  apply (exportCSV_lossless defaultPlayers
           (defaultPlayers ++ [mkPlayer "p13" "Reserve"])
           scoredExample scoredExample).
  vm_compute. reflexivity.
Defined.

Lemma dmOppCounts_spec_witness :
  dmOppCounts schedule42 defaultPlayers !! "p3"
  = Some (if bool_decide ("p3" ∈ duoIds defaultPlayers) then 0 else 3).
Proof.
  assert (generateSchedule codeUnitCompare defaultPlayers 42 = Ok schedule42)
    as Hgen by (vm_compute; reflexivity).
  destruct (dmOppCounts_spec codeUnitCompare defaultPlayers 42 schedule42
              Hgen) as [Hcounts _].
  apply Hcounts.
  - exists (mkPlayer "p1" "Daniel"), (mkPlayer "p2" "Macho").
    split_and!; [| |reflexivity..].
    + unfold defaultPlayers. apply elem_of_cons. by left.
    + unfold defaultPlayers. apply elem_of_cons. right.
      apply elem_of_cons. by left.
  - apply (proj1 (bool_decide_eq_false _)). vm_compute. reflexivity.
  - apply (bool_decide_unpack _). vm_compute. exact I.
Defined.

Lemma panelRows_all_three_witness :
  Forall (λ row, row.2 = 3)
    (panelRows defaultPlayers (dmOppCounts schedule42 defaultPlayers))
  ∧ (length (panelRows defaultPlayers
               (dmOppCounts schedule42 defaultPlayers)) ≤ 10)%nat.
Proof.
  apply (panelRows_all_three codeUnitCompare defaultPlayers 42 schedule42).
  - vm_compute. reflexivity.
  - exists (mkPlayer "p1" "Daniel"), (mkPlayer "p2" "Macho").
    split_and!; [| |reflexivity..].
    + unfold defaultPlayers. apply elem_of_cons. by left.
    + unfold defaultPlayers. apply elem_of_cons. right.
      apply elem_of_cons. by left.
  - apply (proj1 (bool_decide_eq_false _)). vm_compute. reflexivity.
  - intros p Hp.
    apply (proj1 (Forall_forall (λ p, trim (p_name p) = p_name p)
                    defaultPlayers)); [|exact Hp].
    repeat (constructor; [reflexivity|]). constructor.
Defined.

Lemma entered_score_counts_witness :
  ∃ next,
    setScoreAuto scoredExample 0 2 20 1 = Some next
    ∧ (∀ x, x ∈ ["p9"; "p10"; "p11"; "p12"] →
         x ∈ player <$> computeStats codeUnitCompare next defaultPlayers)
    ∧ (∀ danielId machoId,
         duoPlays danielId machoId
           (mkMatch 9 (mkTeam "p9" "p10") (mkTeam "p11" "p12") None) = true →
         1 ≤ dm_played (dmSummary next danielId machoId)).
Proof.
  eexists. split; [reflexivity|].
  apply (entered_score_counts codeUnitCompare scoredExample _ defaultPlayers
           0 2 20 1
           (mkRound 1
              [ mkMatch 7 (mkTeam "p1" "p2") (mkTeam "p3" "p4")
                        (Some (mkScore 10 10));
                mkMatch 8 (mkTeam "p5" "p6") (mkTeam "p7" "p8")
                        (Some (mkScore 15 9));
                mkMatch 9 (mkTeam "p9" "p10") (mkTeam "p11" "p12") None ])
           (mkMatch 9 (mkTeam "p9" "p10") (mkTeam "p11" "p12") None)).
  - reflexivity.
  - reflexivity.
  - reflexivity.
Defined.
